(** * Tycoon: routing and settlement engine

    A shallow embedding of the pathfinder ([pathfinding.js]), of the
    mutation commands of the game state ([gameState.js]), of the turn
    resolver ([turnResolver.js]) and of the step of the game controller
    ([game.js]), with the properties of the engine proved over it.

    Numbers.  The program computes with JavaScript numbers, which are IEEE
    754 doubles.  The engine is embedded over exact rationals extended with
    [Infinity], the one non-finite value the source writes itself (the
    sentinel of the distance matrix and of the import price).  Rounding is
    not part of that embedding, and an operation whose JavaScript result
    would be [NaN] or [-Infinity], a read of a field that does not exist and
    a [TypeError] all leave its domain: the embedded function returns [None]
    there.  What is stated over it is stated with the comparisons, the
    minima and the sums the program itself makes, in the order it makes
    them.

    Where rounding, [NaN] or [undefined] decide what the program does, the
    functions are embedded a second time over the doubles themselves
    ([Binary64] and [Ieee]): the rebuild of the pathfinder, the walk of the
    prices and the market shares. *)

From Stdlib Require Import QArith Qminmax Qround Lqa Lia List Bool String.
From Stdlib Require SpecFloat.
From stdpp Require Import base option list.

(** ** Numbers *)

Module JsNum.

Local Open Scope Q_scope.

Inductive num : Type :=
| Fin (q : Q)
| Infinity.

(** [x < y] on rationals, as a boolean. *)
Definition Qltb (x y : Q) : bool := negb (Qle_bool y x).

Definition Qleb (x y : Q) : bool := Qle_bool x y.

(** [Math.min] and [Math.max] on finite numbers. *)
Definition Qmin2 (x y : Q) : Q := if Qltb y x then y else x.
Definition Qmax2 (x y : Q) : Q := if Qltb x y then y else x.

(** [a + b] *)
Definition add (a b : num) : num :=
  match a, b with
  | Fin x, Fin y => Fin (x + y)
  | _, _ => Infinity
  end.

(** [a - b]; [Infinity - Infinity] is [NaN] and [x - Infinity] is
    [-Infinity]. *)
Definition sub (a b : num) : option num :=
  match a, b with
  | Fin x, Fin y => Some (Fin (x - y))
  | Infinity, Fin _ => Some Infinity
  | _, Infinity => None
  end.

(** [q * a] for a finite [q]; [0 * Infinity] is [NaN] and a negative
    multiple of [Infinity] is [-Infinity]. *)
Definition scale (q : Q) (a : num) : option num :=
  match a with
  | Fin x => Some (Fin (q * x))
  | Infinity => if Qltb 0 q then Some Infinity else None
  end.

(** [a < b] *)
Definition ltb (a b : num) : bool :=
  match a, b with
  | Fin x, Fin y => Qltb x y
  | Fin _, Infinity => true
  | Infinity, _ => false
  end.

(** [a > b] *)
Definition gtb (a b : num) : bool := ltb b a.

(** [x / y]; a division by zero gives [Infinity], [-Infinity] or [NaN]
    and is left out. *)
Definition Qdiv_js (x y : Q) : option Q :=
  if Qeq_bool y 0 then None else Some (x / y).

(** The order of the extended rationals, for the statements. *)
Definition le (a b : num) : Prop :=
  match a, b with
  | Fin x, Fin y => x <= y
  | _, Infinity => True
  | Infinity, Fin _ => False
  end.

Definition lt (a b : num) : Prop :=
  match a, b with
  | Fin x, Fin y => x < y
  | Fin _, Infinity => True
  | Infinity, _ => False
  end.

Definition finite (a : num) : Prop :=
  match a with Fin _ => True | Infinity => False end.

Definition nonneg (a : num) : Prop := le (Fin 0) a.

End JsNum.

Import JsNum.

(** ** The error monad of the embedding

    [None] is an abrupt completion ([TypeError]) or a value outside the
    modelled numbers. *)

Notation "'let?' x ':=' c 'in' k" :=
  (match c with Some x => k | None => None end)
  (at level 10, x name, c at level 100, k at level 200,
   format "'[v' 'let?'  x  ':='  c  'in'  '/' k ']'").

Fixpoint foldM {A B : Type} (f : B -> A -> option B) (l : list A) (b : B)
  : option B :=
  match l with
  | [] => Some b
  | x :: l' => let? b' := f b x in foldM f l' b'
  end.

(** A list together with its positions, for the loops that use both. *)
Definition indexed {A : Type} (l : list A) : list (nat * A) :=
  imap (fun i x => (i, x)) l.

(** ** Data model *)

Module Model.

(** [GAME_SETTINGS], the entries the engine reads. *)
Record Settings : Type := {
  GAME_LENGTH_TURNS : nat;
  WELL_BUILD_COST : Q;
  REFINERY_BUILD_COST : Q;
  REFINERY_UPGRADE_COST_MULTIPLIER : Q;
  PIPELINE_COST_PER_EDGE : Q;
  STORAGE_COST_PER_BARREL : Q;
  REFINERY_OPERATING_COST : Q;
  PIPELINE_DEFAULT_FEE : Q;
  PRICE_VOLATILITY : Q;
  TERMINAL_FEE : Q;
  BASE_TOTAL_DEMAND : Q;
  REFERENCE_PRICE : Q;
  DEMAND_ELASTICITY : Q;
  REFINERY_BASE_CAPACITY : Q;
  PIPELINE_BASE_CAPACITY : Q
}.

Definition GAME_SETTINGS : Settings := {|
  GAME_LENGTH_TURNS := 150;
  WELL_BUILD_COST := 5000000;
  REFINERY_BUILD_COST := 10000000;
  REFINERY_UPGRADE_COST_MULTIPLIER := 6 # 10;
  PIPELINE_COST_PER_EDGE := 1000000;
  STORAGE_COST_PER_BARREL := 1000;
  REFINERY_OPERATING_COST := 10;
  PIPELINE_DEFAULT_FEE := 1 # 2;
  PRICE_VOLATILITY := 2 # 100;
  TERMINAL_FEE := 5;
  BASE_TOTAL_DEMAND := 500000;
  REFERENCE_PRICE := 100;
  DEMAND_ELASTICITY := 3 # 10;
  REFINERY_BASE_CAPACITY := 10000;
  PIPELINE_BASE_CAPACITY := 20000
|}.

(** The result of [findCheapestSupply]: [{type: 'import', cost, terminal}]
    or [{type: 'player_supply', production, refinery, demand, cost}]. *)
Inductive Supply : Type :=
| Import (cost : num) (terminal : option nat)
| PlayerSupply (production refinery demand : nat) (cost : num).

Definition supply_cost (s : Supply) : num :=
  match s with
  | Import c _ => c
  | PlayerSupply _ _ _ c => c
  end.

(** [node.buildings.refinery] *)
Record Refinery : Type := {
  ref_owner : nat;
  ref_capacity : Q;
  ref_fee : Q;
  upgrade_level : nat;
  ref_utilization : Q;
  barrels_processed : Q
}.

(** [node.buildings.storage] *)
Record Storage : Type := {
  sto_owner : nat;
  sto_capacity : Q;
  crude_stored : Q;
  refined_stored : Q
}.

(** A node.  The production fields exist on production nodes only; read
    elsewhere they are [undefined] ([None], and [false] for the flag). *)
Record Node : Type := {
  node_id : nat;
  production_capacity : option Q;
  well_build_cost : option Q;
  operating_cost : option Q;
  has_well : bool;
  well_owner : option nat;
  is_import_terminal : bool;
  demand_base : Q;
  demand_growth_rate : Q;
  current_demand : Q;
  local_price : num;
  supply_source : option Supply;
  buildings_refinery : option Refinery;
  buildings_storage : option Storage
}.

(** [edge.transportation.pipeline] *)
Record Pipeline : Type := {
  pipe_owner : option nat;
  pipe_capacity : Q;
  pipe_fee : Q;
  pipe_utilization : Q
}.

(** An edge; [truck_cost], [rail_available] and [rail_cost] are
    [transportation.truck.cost], [transportation.rail.available] and
    [transportation.rail.cost]. *)
Record Edge : Type := {
  edge_id : nat;
  node_a : nat;
  node_b : nat;
  truck_cost : Q;
  rail_available : bool;
  rail_cost : Q;
  pipeline : Pipeline;
  flow_volume : Q
}.

Record Assets : Type := {
  wells : list nat;
  refineries : list nat;
  pipelines : list nat;
  storage : list nat
}.

Record Player : Type := {
  player_id : nat;
  cash : num;
  assets : Assets;
  revenue_this_turn : num;
  costs_this_turn : num;
  profit_this_turn : num;
  profit_history : list num;
  cumulative_profit : num;
  barrels_sold : Q;
  market_share : Q
}.

End Model.

Import Model.

(** ** Pathfinder ([pathfinding.js]) *)

Module Pathfinder.

(** The two tables of the pathfinder.  Its [nodes] and [edges] fields are
    the arrays of the game state themselves and are passed where they are
    read. *)
Record t : Type := {
  dist : list (list num);
  next : list (list (option nat))
}.

(** [m[i][j] = v] on a table that has the cell. *)
Definition mset {A : Type} (m : list (list A)) (i j : nat) (v : A)
  : list (list A) :=
  alter (fun row => <[j := v]> row) i m.

(** [m[i][j]] for a cell that exists; the triple loop and the self loop of
    [computeAllPaths] read and write below [n] only, the size both tables
    are allocated with. *)
Definition cell {A : Type} (d : A) (m : list (list A)) (i j : nat) : A :=
  default d (m !! i ≫= fun row => row !! j).

(** Get minimum transportation cost for an edge *)
Definition getEdgeCost (e : Edge) : Q :=
  let minCost := truck_cost e in
  let minCost :=
    if rail_available e then Qmin2 minCost (rail_cost e) else minCost in
  let minCost :=
    match pipe_owner (pipeline e) with
    | Some _ => Qmin2 minCost (pipe_fee (pipeline e))
    | None => minCost
    end in
  minCost.

(** [dist[i][i] = 0; next[i][i] = i] *)
Definition init_self (pf : t) (i : nat) : t :=
  {| dist := mset (dist pf) i i (Fin 0);
     next := mset (next pf) i i (Some i) |}.

(** One round of the loop over the edges.  [dist[node_a]] may be missing
    (a [TypeError]); a missing [dist[node_a][node_b]] is [undefined] and
    the comparison with it is false. *)
Definition init_edge (pf : t) (e : Edge) : option t :=
  let cost := Fin (getEdgeCost e) in
  match dist pf !! node_a e with
  | None => None
  | Some row =>
      match row !! node_b e with
      | None => Some pf
      | Some d =>
          if ltb cost d then
            Some {| dist := mset (mset (dist pf) (node_a e) (node_b e) cost)
                                 (node_b e) (node_a e) cost;
                    next := mset (mset (next pf) (node_a e) (node_b e)
                                       (Some (node_b e)))
                                 (node_b e) (node_a e) (Some (node_a e)) |}
          else Some pf
      end
  end.

(** The body of the triple loop. *)
Definition relax (k i j : nat) (pf : t) : t :=
  let through :=
    add (cell Infinity (dist pf) i k) (cell Infinity (dist pf) k j) in
  if ltb through (cell Infinity (dist pf) i j) then
    {| dist := mset (dist pf) i j through;
       next := mset (next pf) i j (cell None (next pf) i k) |}
  else pf.

Definition floydWarshall (n : nat) (pf : t) : t :=
  fold_left (fun pf k =>
    fold_left (fun pf i =>
      fold_left (fun pf j => relax k i j pf) (seq 0 n) pf)
      (seq 0 n) pf)
    (seq 0 n) pf.

(** Compute all-pairs shortest paths using Floyd-Warshall *)
Definition computeAllPaths (nodes : list Node) (edges : list Edge)
  : option t :=
  let n := length nodes in
  let pf := {| dist := replicate n (replicate n Infinity);
               next := replicate n (replicate n None) |} in
  let pf := fold_left init_self (seq 0 n) pf in
  let? pf := foldM init_edge edges pf in
  Some (floydWarshall n pf).

(** Get cost of shortest path: [dist[from][to]]. *)
Definition getCost (pf : t) (from to : nat) : option num :=
  dist pf !! from ≫= fun row => row !! to.

(** The [while] loop of [getPath]: the nodes pushed after [current].  A
    walk of more steps than the table has rows has been at some node twice
    and never ends. *)
Fixpoint walk (fuel : nat) (nx : list (list (option nat)))
  (current to : nat) : option (list nat) :=
  if decide (current = to) then Some []
  else
    match fuel with
    | O => None
    | S fuel =>
        let? row := nx !! current in
        let? hop := row !! to in
        let? c := hop in
        let? rest := walk fuel nx c to in
        Some (c :: rest)
    end.

(** Get shortest path between two nodes; [Some None] is the [null]
    result. *)
Definition getPath (pf : t) (from to : nat) : option (option (list nat)) :=
  let? row := next pf !! from in
  let? hop := row !! to in
  match hop with
  | None => Some None
  | Some _ =>
      let? rest := walk (length (next pf)) (next pf) from to in
      Some (Some (from :: rest))
  end.

(** Find edge between two nodes *)
Definition findEdge (edges : list Edge) (nodeA nodeB : nat) : option Edge :=
  List.find (fun e =>
    (Nat.eqb (node_a e) nodeA && Nat.eqb (node_b e) nodeB)
    || (Nat.eqb (node_a e) nodeB && Nat.eqb (node_b e) nodeA)) edges.

Inductive TransportType : Type := truck | rail | pipeline_t.

(** Get transportation method and cost for an edge *)
Definition getEdgeTransportation (e : Edge) : TransportType * Q :=
  let r := (truck, truck_cost e) in
  let r := if rail_available e && Qltb (rail_cost e) (snd r)
           then (rail, rail_cost e) else r in
  let r := match pipe_owner (pipeline e) with
           | Some _ => if Qltb (pipe_fee (pipeline e)) (snd r)
                       then (pipeline_t, pipe_fee (pipeline e)) else r
           | None => r
           end in
  r.

Record Breakdown : Type := {
  by_truck : Q;
  by_rail : Q;
  by_pipeline : Q
}.

Record Route : Type := {
  route_nodes : list nat;
  route_edges : list nat;
  totalCost : Q;
  breakdown : Breakdown
}.

Definition add_breakdown (b : Breakdown) (ty : TransportType) (c : Q)
  : Breakdown :=
  match ty with
  | truck => {| by_truck := by_truck b + c; by_rail := by_rail b;
                by_pipeline := by_pipeline b |}
  | rail => {| by_truck := by_truck b; by_rail := by_rail b + c;
               by_pipeline := by_pipeline b |}
  | pipeline_t => {| by_truck := by_truck b; by_rail := by_rail b;
                     by_pipeline := by_pipeline b + c |}
  end.

(** The loop of [getDetailedRoute] over the consecutive nodes of the
    path. *)
Fixpoint route_legs (edges : list Edge) (path : list nat) (r : Route)
  : Route :=
  match path with
  | nodeA :: ((nodeB :: _) as rest) =>
      match findEdge edges nodeA nodeB with
      | None => route_legs edges rest r
      | Some e =>
          let '(ty, c) := getEdgeTransportation e in
          route_legs edges rest
            {| route_nodes := route_nodes r;
               route_edges := route_edges r ++ [edge_id e];
               totalCost := totalCost r + c;
               breakdown := add_breakdown (breakdown r) ty c |}
      end
  | _ => r
  end.

(** Get detailed route with edge information *)
Definition getDetailedRoute (pf : t) (edges : list Edge) (from to : nat)
  : option (option Route) :=
  let? nodePath := getPath pf from to in
  match nodePath with
  | None => Some None
  | Some nodePath =>
      Some (Some (route_legs edges nodePath
        {| route_nodes := nodePath; route_edges := []; totalCost := 0;
           breakdown := {| by_truck := 0; by_rail := 0;
                           by_pipeline := 0 |} |}))
  end.

(** The loop of [findNearestTerminal]; the state is [(nearestTerminal,
    minCost)]. *)
Definition nearer_terminal (pf : t) (nodeId : nat)
  (acc : option nat * num) (x : nat * Node) : option (option nat * num) :=
  let '(i, node) := x in
  if is_import_terminal node then
    let? cost := getCost pf nodeId i in
    if ltb cost (snd acc) then Some (Some i, cost) else Some acc
  else Some acc.

(** Find nearest import terminal from a node *)
Definition findNearestTerminal (pf : t) (nodeId : nat) (nodes : list Node)
  : option (option nat) :=
  let? r := foldM (nearer_terminal pf nodeId) (indexed nodes)
                  (None, Infinity) in
  Some (fst r).

(** Calculate local price at a demand node *)
Definition calculateLocalPrice (pf : t) (demandNodeId : nat)
  (globalPrice terminalFee : Q) (nodes : list Node) : option num :=
  let? terminalId := findNearestTerminal pf demandNodeId nodes in
  match terminalId with
  | None => Some Infinity
  | Some terminalId =>
      let? transportCost := getCost pf terminalId demandNodeId in
      Some (add (add (Fin globalPrice) (Fin terminalFee)) transportCost)
  end.

(** The body of the inner loop of [findCheapestSupply]; the state is
    [(cheapestCost, cheapestRoute)].  A well node without an operating cost
    makes [totalCost] a [NaN], which is below nothing. *)
Definition consider (pf : t) (settings : Settings) (demandNodeId : nat)
  (prodId : nat) (prodNode : Node)
  (acc : num * option Supply) (x : nat * Node)
  : option (num * option Supply) :=
  let '(refId, refNode) := x in
  match buildings_refinery refNode with
  | None => Some acc
  | Some r =>
      let? transportToRef := getCost pf prodId refId in
      let? transportToDemand := getCost pf refId demandNodeId in
      match operating_cost prodNode with
      | None => Some acc
      | Some oc =>
          let totalCost :=
            add (add (add (add (Fin oc) transportToRef)
                               (Fin (REFINERY_OPERATING_COST settings)))
                          (Fin (ref_fee r)))
                transportToDemand in
          if ltb totalCost (fst acc) then
            Some (totalCost,
                  Some (PlayerSupply prodId refId demandNodeId totalCost))
          else Some acc
      end
  end.

(** The body of the outer loop of [findCheapestSupply]. *)
Definition consider_well (pf : t) (settings : Settings)
  (demandNodeId : nat) (nodes : list Node)
  (acc : num * option Supply) (x : nat * Node)
  : option (num * option Supply) :=
  let '(prodId, prodNode) := x in
  if has_well prodNode then
    foldM (consider pf settings demandNodeId prodId prodNode)
          (indexed nodes) acc
  else Some acc.

(** Find cheapest supply route (production -> refinery -> demand) *)
Definition findCheapestSupply (pf : t) (demandNodeId : nat)
  (globalPrice terminalFee : Q) (settings : Settings) (nodes : list Node)
  : option Supply :=
  let? importPrice :=
    calculateLocalPrice pf demandNodeId globalPrice terminalFee nodes in
  let? r := foldM (consider_well pf settings demandNodeId nodes)
                  (indexed nodes) (Infinity, None) in
  let '(cheapestCost, cheapestRoute) := r in
  if ltb importPrice cheapestCost then
    let? terminal := findNearestTerminal pf demandNodeId nodes in
    Some (Import importPrice terminal)
  else
    match cheapestRoute with
    | Some route => Some route
    | None =>
        let? terminal := findNearestTerminal pf demandNodeId nodes in
        Some (Import importPrice terminal)
    end.

(** The loop of [findNearestRefinery]; the state is [(nearestRefinery,
    minCost)]. *)
Definition nearer_refinery (pf : t) (productionNodeId : nat)
  (acc : option nat * num) (x : nat * Node) : option (option nat * num) :=
  let '(i, node) := x in
  match buildings_refinery node with
  | Some r =>
      if Qltb 0 (ref_capacity r) then
        let? cost := getCost pf productionNodeId i in
        if ltb cost (snd acc) then Some (Some i, cost) else Some acc
      else Some acc
  | None => Some acc
  end.

(** Find nearest refinery from a production node *)
Definition findNearestRefinery (pf : t) (productionNodeId : nat)
  (nodes : list Node) : option (option nat) :=
  let? r := foldM (nearer_refinery pf productionNodeId) (indexed nodes)
                  (None, Infinity) in
  Some (fst r).

End Pathfinder.

(** ** Game state and mutation commands ([gameState.js]) *)

Module GameState.

(** An entry of [turnHistory]. *)
Record PlayerSnapshot : Type := {
  snap_id : nat;
  snap_cash : num;
  snap_profit : num;
  snap_cumulative_profit : num
}.

Record Snapshot : Type := {
  snap_turn : nat;
  snap_globalPrice : Q;
  snap_players : list PlayerSnapshot
}.

(** The game state.  The three prices are numbers here: the record is the
    game once they are set.  What the constructor of the source leaves in
    them, and what the price update makes of it, is in [Ieee]. *)
Record t : Type := {
  settings : Settings;
  turn : nat;
  global_oil_price : Q;
  global_crude_price : Q;
  global_refined_price : Q;
  players : list Player;
  nodes : list Node;
  edges : list Edge;
  pathfinder : Pathfinder.t;
  turnHistory : list Snapshot
}.

(** [{ success: true }] and [{ success: false, error }]. *)
Inductive Outcome : Type :=
| Success
| Failure (error : string).

(** *** Field updates *)

Definition with_players (s : t) (ps : list Player) : t :=
  {| settings := settings s; turn := turn s;
     global_oil_price := global_oil_price s;
     global_crude_price := global_crude_price s;
     global_refined_price := global_refined_price s;
     players := ps; nodes := nodes s; edges := edges s;
     pathfinder := pathfinder s; turnHistory := turnHistory s |}.

Definition with_nodes (s : t) (ns : list Node) : t :=
  {| settings := settings s; turn := turn s;
     global_oil_price := global_oil_price s;
     global_crude_price := global_crude_price s;
     global_refined_price := global_refined_price s;
     players := players s; nodes := ns; edges := edges s;
     pathfinder := pathfinder s; turnHistory := turnHistory s |}.

Definition with_edges (s : t) (es : list Edge) : t :=
  {| settings := settings s; turn := turn s;
     global_oil_price := global_oil_price s;
     global_crude_price := global_crude_price s;
     global_refined_price := global_refined_price s;
     players := players s; nodes := nodes s; edges := es;
     pathfinder := pathfinder s; turnHistory := turnHistory s |}.

Definition with_pathfinder (s : t) (pf : Pathfinder.t) : t :=
  {| settings := settings s; turn := turn s;
     global_oil_price := global_oil_price s;
     global_crude_price := global_crude_price s;
     global_refined_price := global_refined_price s;
     players := players s; nodes := nodes s; edges := edges s;
     pathfinder := pf; turnHistory := turnHistory s |}.

Definition with_cash (p : Player) (c : num) : Player :=
  {| player_id := player_id p; cash := c; assets := assets p;
     revenue_this_turn := revenue_this_turn p;
     costs_this_turn := costs_this_turn p;
     profit_this_turn := profit_this_turn p;
     profit_history := profit_history p;
     cumulative_profit := cumulative_profit p;
     barrels_sold := barrels_sold p; market_share := market_share p |}.

Definition with_assets (p : Player) (a : Assets) : Player :=
  {| player_id := player_id p; cash := cash p; assets := a;
     revenue_this_turn := revenue_this_turn p;
     costs_this_turn := costs_this_turn p;
     profit_this_turn := profit_this_turn p;
     profit_history := profit_history p;
     cumulative_profit := cumulative_profit p;
     barrels_sold := barrels_sold p; market_share := market_share p |}.

Definition push_well (a : Assets) (nodeId : nat) : Assets :=
  {| wells := wells a ++ [nodeId]; refineries := refineries a;
     pipelines := pipelines a; storage := storage a |}.

Definition push_refinery (a : Assets) (nodeId : nat) : Assets :=
  {| wells := wells a; refineries := refineries a ++ [nodeId];
     pipelines := pipelines a; storage := storage a |}.

Definition push_pipeline (a : Assets) (edgeId : nat) : Assets :=
  {| wells := wells a; refineries := refineries a;
     pipelines := pipelines a ++ [edgeId]; storage := storage a |}.

Definition push_storage (a : Assets) (nodeId : nat) : Assets :=
  {| wells := wells a; refineries := refineries a;
     pipelines := pipelines a; storage := storage a ++ [nodeId] |}.

Definition with_well (n : Node) (owner : nat) : Node :=
  {| node_id := node_id n;
     production_capacity := production_capacity n;
     well_build_cost := well_build_cost n;
     operating_cost := operating_cost n;
     has_well := true; well_owner := Some owner;
     is_import_terminal := is_import_terminal n;
     demand_base := demand_base n;
     demand_growth_rate := demand_growth_rate n;
     current_demand := current_demand n; local_price := local_price n;
     supply_source := supply_source n;
     buildings_refinery := buildings_refinery n;
     buildings_storage := buildings_storage n |}.

Definition with_refinery (n : Node) (r : Refinery) : Node :=
  {| node_id := node_id n;
     production_capacity := production_capacity n;
     well_build_cost := well_build_cost n;
     operating_cost := operating_cost n;
     has_well := has_well n; well_owner := well_owner n;
     is_import_terminal := is_import_terminal n;
     demand_base := demand_base n;
     demand_growth_rate := demand_growth_rate n;
     current_demand := current_demand n; local_price := local_price n;
     supply_source := supply_source n;
     buildings_refinery := Some r;
     buildings_storage := buildings_storage n |}.

Definition with_storage (n : Node) (st : Storage) : Node :=
  {| node_id := node_id n;
     production_capacity := production_capacity n;
     well_build_cost := well_build_cost n;
     operating_cost := operating_cost n;
     has_well := has_well n; well_owner := well_owner n;
     is_import_terminal := is_import_terminal n;
     demand_base := demand_base n;
     demand_growth_rate := demand_growth_rate n;
     current_demand := current_demand n; local_price := local_price n;
     supply_source := supply_source n;
     buildings_refinery := buildings_refinery n;
     buildings_storage := Some st |}.

Definition with_pipeline (e : Edge) (pl : Pipeline) : Edge :=
  {| edge_id := edge_id e; node_a := node_a e; node_b := node_b e;
     truck_cost := truck_cost e; rail_available := rail_available e;
     rail_cost := rail_cost e; pipeline := pl;
     flow_volume := flow_volume e |}.

(** [!x] for a number that may be missing: [undefined] and [0] are
    falsy. *)
Definition falsy (x : option Q) : bool :=
  match x with
  | None => true
  | Some q => Qeq_bool q 0
  end.

(** [this.pathfinder.computeAllPaths(this.nodes, this.edges)] *)
Definition recompute (s : t) : option t :=
  let? pf := Pathfinder.computeAllPaths (nodes s) (edges s) in
  Some (with_pathfinder s pf).

(** Build a well on a production node *)
Definition buildWell (s : t) (playerId nodeId : nat) : option (t * Outcome) :=
  let player := players s !! playerId in
  let? node := nodes s !! nodeId in
  if falsy (production_capacity node) then
    Some (s, Failure "Not a production node")
  else if has_well node then
    Some (s, Failure "Well already exists")
  else
    let? player := player in
    let? cost := well_build_cost node in
    if ltb (cash player) (Fin cost) then
      Some (s, Failure "Insufficient funds")
    else
      let? c := sub (cash player) (Fin cost) in
      let player := with_cash player c in
      let node := with_well node playerId in
      let player := with_assets player (push_well (assets player) nodeId) in
      Some (with_players (with_nodes s (<[nodeId := node]> (nodes s)))
                         (<[playerId := player]> (players s)),
            Success).

(** Build a pipeline on an edge *)
Definition buildPipeline (s : t) (playerId edgeId : nat)
  : option (t * Outcome) :=
  let player := players s !! playerId in
  let? edge := edges s !! edgeId in
  match pipe_owner (pipeline edge) with
  | Some _ => Some (s, Failure "Pipeline already exists")
  | None =>
      let cost := PIPELINE_COST_PER_EDGE (settings s) in
      let? player := player in
      if ltb (cash player) (Fin cost) then
        Some (s, Failure "Insufficient funds")
      else
        let? c := sub (cash player) (Fin cost) in
        let player := with_cash player c in
        let edge := with_pipeline edge
          {| pipe_owner := Some playerId;
             pipe_capacity := PIPELINE_BASE_CAPACITY (settings s);
             pipe_fee := PIPELINE_DEFAULT_FEE (settings s);
             pipe_utilization := 0 |} in
        let player :=
          with_assets player (push_pipeline (assets player) edgeId) in
        let? s := recompute
          (with_players (with_edges s (<[edgeId := edge]> (edges s)))
                        (<[playerId := player]> (players s))) in
        Some (s, Success)
  end.

(** Build a refinery on any node *)
Definition buildRefinery (s : t) (playerId nodeId : nat)
  : option (t * Outcome) :=
  let player := players s !! playerId in
  let? node := nodes s !! nodeId in
  match buildings_refinery node with
  | Some _ => Some (s, Failure "Refinery already exists")
  | None =>
      let cost := REFINERY_BUILD_COST (settings s) in
      let? player := player in
      if ltb (cash player) (Fin cost) then
        Some (s, Failure "Insufficient funds")
      else
        let? c := sub (cash player) (Fin cost) in
        let player := with_cash player c in
        let node := with_refinery node
          {| ref_owner := playerId;
             ref_capacity := REFINERY_BASE_CAPACITY (settings s);
             ref_fee := 5;
             upgrade_level := 0;
             ref_utilization := 0;
             barrels_processed := 0 |} in
        let player :=
          with_assets player (push_refinery (assets player) nodeId) in
        let? s := recompute
          (with_players (with_nodes s (<[nodeId := node]> (nodes s)))
                        (<[playerId := player]> (players s))) in
        Some (s, Success)
  end.

(** Upgrade refinery capacity *)
Definition upgradeRefinery (s : t) (playerId nodeId : nat)
  : option (t * Outcome) :=
  let player := players s !! playerId in
  let? node := nodes s !! nodeId in
  match buildings_refinery node with
  | None => Some (s, Failure "No refinery exists")
  | Some r =>
      if negb (Nat.eqb (ref_owner r) playerId) then
        Some (s, Failure "Not your refinery")
      else
        let cost := (REFINERY_BUILD_COST (settings s)
                     * REFINERY_UPGRADE_COST_MULTIPLIER (settings s))%Q in
        let? player := player in
        if ltb (cash player) (Fin cost) then
          Some (s, Failure "Insufficient funds")
        else
          let? c := sub (cash player) (Fin cost) in
          let player := with_cash player c in
          let node := with_refinery node
            {| ref_owner := ref_owner r;
               ref_capacity := (ref_capacity r * 2)%Q;
               ref_fee := ref_fee r;
               upgrade_level := upgrade_level r + 1;
               ref_utilization := ref_utilization r;
               barrels_processed := barrels_processed r |} in
          Some (with_players (with_nodes s (<[nodeId := node]> (nodes s)))
                             (<[playerId := player]> (players s)),
                Success)
  end.

(** Build storage *)
Definition buildStorage (s : t) (playerId nodeId : nat) (capacity : Q)
  : option (t * Outcome) :=
  let? player := players s !! playerId in
  let node := nodes s !! nodeId in
  let cost := (capacity * STORAGE_COST_PER_BARREL (settings s))%Q in
  if ltb (cash player) (Fin cost) then
    Some (s, Failure "Insufficient funds")
  else
    let? c := sub (cash player) (Fin cost) in
    let player := with_cash player c in
    let? node := node in
    match buildings_storage node with
    | None =>
        let node := with_storage node
          {| sto_owner := playerId; sto_capacity := capacity;
             crude_stored := 0; refined_stored := 0 |} in
        let player :=
          with_assets player (push_storage (assets player) nodeId) in
        Some (with_players (with_nodes s (<[nodeId := node]> (nodes s)))
                           (<[playerId := player]> (players s)),
              Success)
    | Some st =>
        let node := with_storage node
          {| sto_owner := sto_owner st;
             sto_capacity := (sto_capacity st + capacity)%Q;
             crude_stored := crude_stored st;
             refined_stored := refined_stored st |} in
        Some (with_players (with_nodes s (<[nodeId := node]> (nodes s)))
                           (<[playerId := player]> (players s)),
              Success)
    end.

(** Set pipeline fee *)
Definition setPipelineFee (s : t) (playerId edgeId : nat) (fee : Q)
  : option (t * Outcome) :=
  let? edge := edges s !! edgeId in
  if negb (bool_decide (pipe_owner (pipeline edge) = Some playerId)) then
    Some (s, Failure "Not your pipeline")
  else
    let edge := with_pipeline edge
      {| pipe_owner := pipe_owner (pipeline edge);
         pipe_capacity := pipe_capacity (pipeline edge);
         pipe_fee := fee;
         pipe_utilization := pipe_utilization (pipeline edge) |} in
    let? s := recompute (with_edges s (<[edgeId := edge]> (edges s))) in
    Some (s, Success).

(** Set refinery fee *)
Definition setRefineryFee (s : t) (playerId nodeId : nat) (fee : Q)
  : option (t * Outcome) :=
  let? node := nodes s !! nodeId in
  match buildings_refinery node with
  | None => Some (s, Failure "Not your refinery")
  | Some r =>
      if negb (Nat.eqb (ref_owner r) playerId) then
        Some (s, Failure "Not your refinery")
      else
        let node := with_refinery node
          {| ref_owner := ref_owner r; ref_capacity := ref_capacity r;
             ref_fee := fee; upgrade_level := upgrade_level r;
             ref_utilization := ref_utilization r;
             barrels_processed := barrels_processed r |} in
        let? s := recompute (with_nodes s (<[nodeId := node]> (nodes s))) in
        Some (s, Success)
  end.

(** The mutation commands, as the callers issue them. *)
Inductive Command : Type :=
| BuildWell (playerId nodeId : nat)
| BuildPipeline (playerId edgeId : nat)
| BuildRefinery (playerId nodeId : nat)
| UpgradeRefinery (playerId nodeId : nat)
| BuildStorage (playerId nodeId : nat) (capacity : Q)
| SetPipelineFee (playerId edgeId : nat) (fee : Q)
| SetRefineryFee (playerId nodeId : nat) (fee : Q).

Definition execute (s : t) (c : Command) : option (t * Outcome) :=
  match c with
  | BuildWell p n => buildWell s p n
  | BuildPipeline p e => buildPipeline s p e
  | BuildRefinery p n => buildRefinery s p n
  | UpgradeRefinery p n => upgradeRefinery s p n
  | BuildStorage p n c => buildStorage s p n c
  | SetPipelineFee p e f => setPipelineFee s p e f
  | SetRefineryFee p n f => setRefineryFee s p n f
  end.

(** Save state for history *)
Definition saveState (s : t) : t :=
  {| settings := settings s; turn := turn s;
     global_oil_price := global_oil_price s;
     global_crude_price := global_crude_price s;
     global_refined_price := global_refined_price s;
     players := players s; nodes := nodes s; edges := edges s;
     pathfinder := pathfinder s;
     turnHistory := turnHistory s ++
       [ {| snap_turn := turn s;
            snap_globalPrice := global_oil_price s;
            snap_players := map (fun p =>
              {| snap_id := player_id p; snap_cash := cash p;
                 snap_profit := profit_this_turn p;
                 snap_cumulative_profit := cumulative_profit p |})
              (players s) |} ] |}.

End GameState.

(** ** Turn resolver ([turnResolver.js]) *)

Module TurnResolver.

Import GameState.

(** What one turn draws from the random source: the two values of
    [Math.random()] behind the price walks, and the value of
    [RandomUtils.normal(0, 0.01)] drawn for the node at each position. *)
Record Draws : Type := {
  crude_draw : Q;
  refined_draw : Q;
  jitter : nat -> Q
}.

(** An entry of the list [productionPhase] returns. *)
Record Production : Type := {
  prod_nodeId : nat;
  prod_owner : option nat;
  prod_capacity : Q;
  prod_operating_cost : option Q
}.

(** *** Field updates *)

Definition reset_player (p : Player) : Player :=
  {| player_id := player_id p; cash := cash p; assets := assets p;
     revenue_this_turn := Fin 0;
     costs_this_turn := Fin 0;
     profit_this_turn := Fin 0;
     profit_history := profit_history p;
     cumulative_profit := cumulative_profit p;
     barrels_sold := 0; market_share := market_share p |}.

Definition add_revenue (p : Player) (x : num) : Player :=
  {| player_id := player_id p; cash := cash p; assets := assets p;
     revenue_this_turn := add (revenue_this_turn p) x;
     costs_this_turn := costs_this_turn p;
     profit_this_turn := profit_this_turn p;
     profit_history := profit_history p;
     cumulative_profit := cumulative_profit p;
     barrels_sold := barrels_sold p; market_share := market_share p |}.

Definition add_costs (p : Player) (x : num) : Player :=
  {| player_id := player_id p; cash := cash p; assets := assets p;
     revenue_this_turn := revenue_this_turn p;
     costs_this_turn := add (costs_this_turn p) x;
     profit_this_turn := profit_this_turn p;
     profit_history := profit_history p;
     cumulative_profit := cumulative_profit p;
     barrels_sold := barrels_sold p; market_share := market_share p |}.

Definition add_barrels (p : Player) (b : Q) : Player :=
  {| player_id := player_id p; cash := cash p; assets := assets p;
     revenue_this_turn := revenue_this_turn p;
     costs_this_turn := costs_this_turn p;
     profit_this_turn := profit_this_turn p;
     profit_history := profit_history p;
     cumulative_profit := cumulative_profit p;
     barrels_sold := (barrels_sold p + b)%Q;
     market_share := market_share p |}.

Definition with_market_share (p : Player) (m : Q) : Player :=
  {| player_id := player_id p; cash := cash p; assets := assets p;
     revenue_this_turn := revenue_this_turn p;
     costs_this_turn := costs_this_turn p;
     profit_this_turn := profit_this_turn p;
     profit_history := profit_history p;
     cumulative_profit := cumulative_profit p;
     barrels_sold := barrels_sold p; market_share := m |}.

Definition reset_refinery (n : Node) : Node :=
  match buildings_refinery n with
  | Some r =>
      with_refinery n
        {| ref_owner := ref_owner r; ref_capacity := ref_capacity r;
           ref_fee := ref_fee r; upgrade_level := upgrade_level r;
           ref_utilization := 0; barrels_processed := 0 |}
  | None => n
  end.

Definition reset_edge (e : Edge) : Edge :=
  {| edge_id := edge_id e; node_a := node_a e; node_b := node_b e;
     truck_cost := truck_cost e; rail_available := rail_available e;
     rail_cost := rail_cost e;
     pipeline :=
       match pipe_owner (pipeline e) with
       | Some _ =>
           {| pipe_owner := pipe_owner (pipeline e);
              pipe_capacity := pipe_capacity (pipeline e);
              pipe_fee := pipe_fee (pipeline e);
              pipe_utilization := 0 |}
       | None => pipeline e
       end;
     flow_volume := 0 |}.

Definition with_demand (n : Node) (price : num) (demand : Q) : Node :=
  {| node_id := node_id n;
     production_capacity := production_capacity n;
     well_build_cost := well_build_cost n;
     operating_cost := operating_cost n;
     has_well := has_well n; well_owner := well_owner n;
     is_import_terminal := is_import_terminal n;
     demand_base := demand_base n;
     demand_growth_rate := demand_growth_rate n;
     current_demand := demand; local_price := price;
     supply_source := supply_source n;
     buildings_refinery := buildings_refinery n;
     buildings_storage := buildings_storage n |}.

Definition with_supply_source (n : Node) (sr : Supply) : Node :=
  {| node_id := node_id n;
     production_capacity := production_capacity n;
     well_build_cost := well_build_cost n;
     operating_cost := operating_cost n;
     has_well := has_well n; well_owner := well_owner n;
     is_import_terminal := is_import_terminal n;
     demand_base := demand_base n;
     demand_growth_rate := demand_growth_rate n;
     current_demand := current_demand n; local_price := local_price n;
     supply_source := Some sr;
     buildings_refinery := buildings_refinery n;
     buildings_storage := buildings_storage n |}.

Definition with_demand_base (n : Node) (d : Q) : Node :=
  {| node_id := node_id n;
     production_capacity := production_capacity n;
     well_build_cost := well_build_cost n;
     operating_cost := operating_cost n;
     has_well := has_well n; well_owner := well_owner n;
     is_import_terminal := is_import_terminal n;
     demand_base := d;
     demand_growth_rate := demand_growth_rate n;
     current_demand := current_demand n; local_price := local_price n;
     supply_source := supply_source n;
     buildings_refinery := buildings_refinery n;
     buildings_storage := buildings_storage n |}.

Definition with_prices (s : t) (crude refined : Q) : t :=
  {| settings := settings s; turn := turn s;
     global_oil_price := refined;
     global_crude_price := crude;
     global_refined_price := refined;
     players := players s; nodes := nodes s; edges := edges s;
     pathfinder := pathfinder s; turnHistory := turnHistory s |}.

Definition with_turn (s : t) (n : nat) : t :=
  {| settings := settings s; turn := n;
     global_oil_price := global_oil_price s;
     global_crude_price := global_crude_price s;
     global_refined_price := global_refined_price s;
     players := players s; nodes := nodes s; edges := edges s;
     pathfinder := pathfinder s; turnHistory := turnHistory s |}.

(** The three reset loops at the head of [processTurn]. *)
Definition resetTurn (s : t) : t :=
  with_edges
    (with_nodes (with_players s (map reset_player (players s)))
                (map reset_refinery (nodes s)))
    (map reset_edge (edges s)).

(** [RandomUtils.randomWalk], on the value [u] of [Math.random()]. *)
Definition randomWalk (u : Q) (current volatility : Q) : Q :=
  let change := ((u - (1 # 2)) * 2 * volatility)%Q in
  (current * (1 + change))%Q.

(** Update global oil prices with random walk, on prices that are
    numbers. *)
Definition updateGlobalPrice (d : Draws) (s : t) : t :=
  let crude := randomWalk (crude_draw d) (global_crude_price s)
                          (PRICE_VOLATILITY (settings s)) in
  let crude := Qmax2 30 (Qmin2 150 crude) in
  let refined := randomWalk (refined_draw d) (global_refined_price s)
                            (PRICE_VOLATILITY (settings s)) in
  let refined := Qmax2 50 (Qmin2 200 refined) in
  let refined := if Qltb refined crude then (crude + 10)%Q else refined in
  with_prices s crude refined.

(** One round of the loop of [productionPhase]; the state is the list
    built so far and the players. *)
Definition produce (acc : list Production * list Player) (node : Node)
  : option (list Production * list Player) :=
  let '(production, ps) := acc in
  if has_well node && negb (falsy (production_capacity node)) then
    let? capacity := production_capacity node in
    let production := production ++
      [ {| prod_nodeId := node_id node; prod_owner := well_owner node;
           prod_capacity := capacity;
           prod_operating_cost := operating_cost node |} ] in
    let? owner := well_owner node in
    let? player := ps !! owner in
    let? oc := operating_cost node in
    let operatingCost := (capacity * oc)%Q in
    Some (production,
          <[owner := add_costs player (Fin operatingCost)]> ps)
  else Some acc.

(** Production phase - wells produce crude oil *)
Definition productionPhase (s : t) : option (list Production * t) :=
  let? r := foldM produce (nodes s) ([], players s) in
  Some (fst r, with_players s (snd r)).

(** The first loop of [updateDemand]. *)
Definition totalBaseDemand (ns : list Node) : Q :=
  fold_left (fun total node =>
    if negb (Qeq_bool (demand_base node) 0)
    then (total + demand_base node)%Q else total) ns 0%Q.

(** One round of the second loop of [updateDemand], on the node at
    position [i]. *)
Definition demand_at (pf : Pathfinder.t) (refined terminalFee : Q)
  (totalMarketDemand total : Q) (ns : list Node) (i : nat)
  : option (list Node) :=
  let? node := ns !! i in
  if negb (Qeq_bool (demand_base node) 0) then
    let? localPrice :=
      Pathfinder.calculateLocalPrice pf (node_id node) refined terminalFee
                                     ns in
    let? proportion := Qdiv_js (demand_base node) total in
    Some (<[i := with_demand node localPrice
                             (totalMarketDemand * proportion)%Q]> ns)
  else Some ns.

(** Update demand with price-driven system; [pow] is [Math.pow]. *)
Definition updateDemand (pow : Q -> Q -> Q) (s : t) : option t :=
  let? priceRatio :=
    Qdiv_js (REFERENCE_PRICE (settings s)) (global_refined_price s) in
  let totalMarketDemand :=
    (BASE_TOTAL_DEMAND (settings s)
     * pow priceRatio (DEMAND_ELASTICITY (settings s)))%Q in
  let total := totalBaseDemand (nodes s) in
  let? ns := foldM (demand_at (pathfinder s) (global_refined_price s)
                              (TERMINAL_FEE (settings s))
                              totalMarketDemand total)
                   (seq 0 (length (nodes s))) (nodes s) in
  Some (with_nodes s ns).

(** One round of the loop of [trackRouteUsage]. *)
Definition track_edge (barrels : Q) (s : t) (edgeId : nat) : option t :=
  let? edge := edges s !! edgeId in
  let edge :=
    {| edge_id := edge_id edge; node_a := node_a edge;
       node_b := node_b edge; truck_cost := truck_cost edge;
       rail_available := rail_available edge;
       rail_cost := rail_cost edge; pipeline := pipeline edge;
       flow_volume := (flow_volume edge + barrels)%Q |} in
  match pipe_owner (pipeline edge) with
  | Some owner =>
      let edge := with_pipeline edge
        {| pipe_owner := pipe_owner (pipeline edge);
           pipe_capacity := pipe_capacity (pipeline edge);
           pipe_fee := pipe_fee (pipeline edge);
           pipe_utilization :=
             (pipe_utilization (pipeline edge) + barrels)%Q |} in
      let s := with_edges s (<[edgeId := edge]> (edges s)) in
      let? pipelineOwner := players s !! owner in
      let fee := (barrels * pipe_fee (pipeline edge))%Q in
      Some (with_players s
              (<[owner := add_revenue pipelineOwner (Fin fee)]> (players s)))
  | None => Some (with_edges s (<[edgeId := edge]> (edges s)))
  end.

(** Track usage on a specific route *)
Definition trackRouteUsage (route : Pathfinder.Route) (barrels : Q) (s : t)
  : option t :=
  foldM (track_edge barrels) (Pathfinder.route_edges route) s.

(** Track infrastructure usage and collect fees *)
Definition trackInfrastructureUsage (production refinery demand : nat)
  (barrels : Q) (s : t) : option t :=
  let? prodToRefRoute :=
    Pathfinder.getDetailedRoute (pathfinder s) (edges s)
                                production refinery in
  let? s := match prodToRefRoute with
            | Some route => trackRouteUsage route barrels s
            | None => Some s
            end in
  let? refToDemandRoute :=
    Pathfinder.getDetailedRoute (pathfinder s) (edges s)
                                refinery demand in
  match refToDemandRoute with
  | Some route => trackRouteUsage route barrels s
  | None => Some s
  end.

(** [Math.min(current_demand, production_capacity, capacity)] *)
Definition served (demand prodCapacity refCapacity : Q) : Q :=
  Qmin2 (Qmin2 demand prodCapacity) refCapacity.

(** One round of the loop of [routeAndSatisfyDemand], on the node at
    position [i]. *)
Definition route_at (s : t) (i : nat) : option t :=
  let? demandNode := nodes s !! i in
  if Qeq_bool (current_demand demandNode) 0 then Some s
  else
    let? supplyRoute :=
      Pathfinder.findCheapestSupply (pathfinder s) (node_id demandNode)
        (global_oil_price s) (TERMINAL_FEE (settings s)) (settings s)
        (nodes s) in
    let demandNode := with_supply_source demandNode supplyRoute in
    let s := with_nodes s (<[i := demandNode]> (nodes s)) in
    match supplyRoute with
    | Import _ _ => Some s
    | PlayerSupply production refinery demand _ =>
        let? prodNode := nodes s !! production in
        let? refNode := nodes s !! refinery in
        let? ref := buildings_refinery refNode in
        let? prodCapacity := production_capacity prodNode in
        let barrels :=
          served (current_demand demandNode) prodCapacity
                 (ref_capacity ref) in
        if Qleb barrels 0 then Some s
        else
          let salePrice := local_price demandNode in
          let? transportToRef :=
            Pathfinder.getCost (pathfinder s) production refinery in
          let? oc := operating_cost prodNode in
          let crudePrice := add (Fin oc) transportToRef in
          let refinedPrice := salePrice in
          let? transportToDemand :=
            Pathfinder.getCost (pathfinder s) refinery demand in
          let refineryCost :=
            add (add (Fin (REFINERY_OPERATING_COST (settings s)))
                     (Fin (ref_fee ref)))
                transportToDemand in
          let? wellOwnerId := well_owner prodNode in
          let? wellOwner := players s !! wellOwnerId in
          let? wellRevenue := scale barrels crudePrice in
          let wellOwner :=
            add_barrels (add_revenue wellOwner wellRevenue) barrels in
          let s :=
            with_players s (<[wellOwnerId := wellOwner]> (players s)) in
          let? refineryOwner := players s !! ref_owner ref in
          let? margin := sub refinedPrice crudePrice in
          let? refRevenue := scale barrels margin in
          let? refCosts := scale barrels refineryCost in
          let refineryOwner :=
            add_barrels
              (add_costs (add_revenue refineryOwner refRevenue) refCosts)
              barrels in
          let s :=
            with_players s
              (<[ref_owner ref := refineryOwner]> (players s)) in
          let? s :=
            trackInfrastructureUsage production refinery demand barrels s in
          let? refNode := nodes s !! refinery in
          let? ref := buildings_refinery refNode in
          let processed := (barrels_processed ref + barrels)%Q in
          let? utilization := Qdiv_js processed (ref_capacity ref) in
          let refNode := with_refinery refNode
            {| ref_owner := ref_owner ref;
               ref_capacity := ref_capacity ref;
               ref_fee := ref_fee ref;
               upgrade_level := upgrade_level ref;
               ref_utilization := utilization;
               barrels_processed := processed |} in
          Some (with_nodes s (<[refinery := refNode]> (nodes s)))
    end.

(** Route production to satisfy demand; the list [production] is not
    read. *)
Definition routeAndSatisfyDemand (production : list Production) (s : t)
  : option t :=
  foldM route_at (seq 0 (length (nodes s))) s.

(** Update demand growth with fluctuations and jitter *)
Definition updateDemandGrowth (d : Draws) (s : t) : t :=
  with_nodes s
    (imap (fun i node =>
       if negb (Qeq_bool (demand_base node) 0) then
         let baseGrowthRate := demand_growth_rate node in
         let actualGrowth := (baseGrowthRate + jitter d i)%Q in
         with_demand_base node (demand_base node * (1 + actualGrowth))%Q
       else node) (nodes s)).

(** The body of the loop of [calculatePlayerProfits]. *)
Definition settle (p : Player) : option Player :=
  let? profit := sub (revenue_this_turn p) (costs_this_turn p) in
  Some {| player_id := player_id p;
          cash := add (cash p) profit;
          assets := assets p;
          revenue_this_turn := revenue_this_turn p;
          costs_this_turn := costs_this_turn p;
          profit_this_turn := profit;
          profit_history := profit_history p ++ [profit];
          cumulative_profit := add (cumulative_profit p) profit;
          barrels_sold := barrels_sold p;
          market_share := market_share p |}.

(** Calculate player profits *)
Fixpoint calculatePlayerProfits (ps : list Player) : option (list Player) :=
  match ps with
  | [] => Some []
  | p :: ps =>
      let? p := settle p in
      let? ps := calculatePlayerProfits ps in
      Some (p :: ps)
  end.

(** [players.reduce((sum, p) => sum + p.barrels_sold, 0)] *)
Definition totalBarrels (ps : list Player) : Q :=
  fold_left (fun sum p => (sum + barrels_sold p)%Q) ps 0%Q.

(** Calculate market share *)
Definition calculateMarketShare (ps : list Player) : list Player :=
  let total := totalBarrels ps in
  if Qltb 0 total then
    map (fun p => with_market_share p (barrels_sold p / total * 100)%Q) ps
  else ps.

(** Get winner; [None] is the [undefined] an empty list of players
    gives. *)
Definition getWinner (ps : list Player) : option Player :=
  match ps with
  | [] => None
  | first :: _ =>
      Some (fold_left (fun winner player =>
              if gtb (cumulative_profit player) (cumulative_profit winner)
              then player else winner) ps first)
  end.

(** Check if game is over *)
Definition isGameOver (s : t) : bool :=
  Nat.leb (GAME_LENGTH_TURNS (settings s)) (turn s).

(** Process a complete turn *)
Definition processTurn (pow : Q -> Q -> Q) (d : Draws) (s : t) : option t :=
  let s := resetTurn s in
  let s := updateGlobalPrice d s in
  let? r := productionPhase s in
  let '(production, s) := r in
  let? s := updateDemand pow s in
  let? s := routeAndSatisfyDemand production s in
  let s := updateDemandGrowth d s in
  let? ps := calculatePlayerProfits (players s) in
  let s := with_players s ps in
  let s := with_players s (calculateMarketShare (players s)) in
  let s := saveState s in
  Some (with_turn s (turn s + 1)).

(** What happens to a game: a turn is advanced or a command is issued. *)
Inductive Event : Type :=
| Advance (d : Draws)
| Mutate (c : Command).

Definition step (pow : Q -> Q -> Q) (s : t) (e : Event) : option t :=
  match e with
  | Advance d => processTurn pow d s
  | Mutate c => let? r := execute s c in Some (fst r)
  end.

Definition run (pow : Q -> Q -> Q) (s : t) (es : list Event) : option t :=
  foldM (step pow) es s.

End TurnResolver.

(** ** Game controller ([game.js]) *)

Module Game.

Import GameState TurnResolver.

(** Process next turn.  The second component is what [showGameOver] is
    given when it is called: the winner.  The renderer and the interface
    read the game state and are left out. *)
Definition nextTurn (pow : Q -> Q -> Q) (d : Draws) (s : t)
  : option (t * option (option Player)) :=
  if isGameOver s then Some (s, Some (getWinner (players s)))
  else
    let? s := processTurn pow d s in
    if isGameOver s then Some (s, Some (getWinner (players s)))
    else Some (s, None).

End Game.

(** ** IEEE 754 doubles

    The binary64 format of the standard library's specification of
    floating-point arithmetic: 53 bits of mantissa, round to nearest, ties
    to even, one [NaN]. *)

Module Binary64.

Import SpecFloat.

Definition double : Type := spec_float.

Definition zero : double := S754_zero false.
Definition infinity : double := S754_infinity false.
Definition nan : double := S754_nan.

(** [x + y], [x - y], [x * y] and [x / y] *)
Definition add : double -> double -> double := SFadd 53 1024.
Definition sub : double -> double -> double := SFsub 53 1024.
Definition mul : double -> double -> double := SFmul 53 1024.
Definition div : double -> double -> double := SFdiv 53 1024.

(** [x < y] and [x <= y]; both are false when [x] or [y] is [NaN]. *)
Definition ltb : double -> double -> bool := SFltb.
Definition leb : double -> double -> bool := SFleb.

(** The double of an integer literal. *)
Definition of_Z (z : Z) : double := binary_normalize 53 1024 z 0 false.

(** The double of a decimal literal with the value [n / d]: the double
    nearest to that value, for [n] and [d] below [2 ^ 53]. *)
Definition decimal (n : Z) (d : positive) : double :=
  div (of_Z n) (of_Z (Zpos d)).

(** [Math.min(x, y)] and [Math.max(x, y)]: [NaN] when [x] or [y] is, and
    [-0] is below [+0]. *)
Definition min2 (x y : double) : double :=
  match SFcompare x y with
  | None => nan
  | Some Lt => x
  | Some Gt => y
  | Some Eq => match x with S754_zero true => x | _ => y end
  end.

Definition max2 (x y : double) : double :=
  match SFcompare x y with
  | None => nan
  | Some Lt => y
  | Some Gt => x
  | Some Eq => match x with S754_zero false => x | _ => y end
  end.

End Binary64.

(** ** The rebuild, the price walk and the market shares on doubles *)

Module Ieee.

Import Binary64.

(** What [computeAllPaths] and [getEdgeCost] read of an edge. *)
Record Edge : Type := {
  node_a : nat;
  node_b : nat;
  truck_cost : double;
  rail_available : bool;
  rail_cost : double;
  pipe_owner : option nat;
  pipe_fee : double
}.

(** Get minimum transportation cost for an edge *)
Definition getEdgeCost (e : Edge) : double :=
  let minCost := truck_cost e in
  let minCost :=
    if rail_available e then min2 minCost (rail_cost e) else minCost in
  let minCost :=
    match pipe_owner e with
    | Some _ => min2 minCost (pipe_fee e)
    | None => minCost
    end in
  minCost.

Record t : Type := {
  dist : list (list double);
  next : list (list (option nat))
}.

(** [dist[i][i] = 0; next[i][i] = i] *)
Definition init_self (pf : t) (i : nat) : t :=
  {| dist := Pathfinder.mset (dist pf) i i zero;
     next := Pathfinder.mset (next pf) i i (Some i) |}.

(** One round of the loop over the edges.  [dist[node_a]] may be missing
    (a [TypeError]); a missing [dist[node_a][node_b]] is [undefined] and
    the comparison with it is false, as is a comparison with a cost that is
    [NaN]. *)
Definition init_edge (pf : t) (e : Edge) : option t :=
  let cost := getEdgeCost e in
  match dist pf !! node_a e with
  | None => None
  | Some row =>
      match row !! node_b e with
      | None => Some pf
      | Some d =>
          if ltb cost d then
            Some {| dist := Pathfinder.mset
                              (Pathfinder.mset (dist pf) (node_a e) (node_b e)
                                               cost)
                              (node_b e) (node_a e) cost;
                    next := Pathfinder.mset
                              (Pathfinder.mset (next pf) (node_a e) (node_b e)
                                               (Some (node_b e)))
                              (node_b e) (node_a e) (Some (node_a e)) |}
          else Some pf
      end
  end.

(** The body of the triple loop. *)
Definition relax (k i j : nat) (pf : t) : t :=
  let through :=
    add (Pathfinder.cell infinity (dist pf) i k)
        (Pathfinder.cell infinity (dist pf) k j) in
  if ltb through (Pathfinder.cell infinity (dist pf) i j) then
    {| dist := Pathfinder.mset (dist pf) i j through;
       next := Pathfinder.mset (next pf) i j
                 (Pathfinder.cell None (next pf) i k) |}
  else pf.

Definition floydWarshall (n : nat) (pf : t) : t :=
  fold_left (fun pf k =>
    fold_left (fun pf i =>
      fold_left (fun pf j => relax k i j pf) (seq 0 n) pf)
      (seq 0 n) pf)
    (seq 0 n) pf.

(** Compute all-pairs shortest paths using Floyd-Warshall; of [nodes] the
    length alone is read. *)
Definition computeAllPaths {N : Type} (nodes : list N) (edges : list Edge)
  : option t :=
  let n := length nodes in
  let pf := {| dist := replicate n (replicate n infinity);
               next := replicate n (replicate n None) |} in
  let pf := fold_left init_self (seq 0 n) pf in
  let? pf := foldM init_edge edges pf in
  Some (floydWarshall n pf).

(** Get cost of shortest path: [dist[from][to]]. *)
Definition getCost (pf : t) (from to : nat) : option double :=
  dist pf !! from ≫= fun row => row !! to.

(** What a price field holds: nothing yet, or a number. *)
Inductive value : Type :=
| undefined
| number (x : double).

(** The number an arithmetic operation takes a value for. *)
Definition to_number (v : value) : double :=
  match v with
  | undefined => nan
  | number x => x
  end.

(** The three price fields of the game state. *)
Record Prices : Type := {
  global_crude_price : value;
  global_refined_price : value;
  global_oil_price : value
}.

(** The price fields after [new GameState(settings)]: the constructor
    writes [global_oil_price] alone, from [settings.INITIAL_OIL_PRICE], and
    [initialize] writes none of them. *)
Definition constructed (INITIAL_OIL_PRICE : value) : Prices :=
  {| global_crude_price := undefined;
     global_refined_price := undefined;
     global_oil_price := INITIAL_OIL_PRICE |}.

(** [RandomUtils.randomWalk], on the value [u] of [Math.random()]. *)
Definition randomWalk (u : double) (current : value) (volatility : double)
  : double :=
  let change := mul (mul (sub u (decimal 5 10)) (of_Z 2)) volatility in
  mul (to_number current) (add (of_Z 1) change).

(** Update global oil prices with random walk *)
Definition updateGlobalPrice (crude_draw refined_draw : double)
  (PRICE_VOLATILITY : double) (p : Prices) : Prices :=
  let crude := randomWalk crude_draw (global_crude_price p)
                          PRICE_VOLATILITY in
  let crude := max2 (of_Z 30) (min2 (of_Z 150) crude) in
  let refined := randomWalk refined_draw (global_refined_price p)
                            PRICE_VOLATILITY in
  let refined := max2 (of_Z 50) (min2 (of_Z 200) refined) in
  let refined := if ltb refined crude then add crude (of_Z 10) else refined in
  {| global_crude_price := number crude;
     global_refined_price := number refined;
     global_oil_price := number refined |}.

(** What [calculateMarketShare] reads and writes of a player. *)
Record Player : Type := {
  barrels_sold : double;
  market_share : double
}.

(** [players.reduce((sum, p) => sum + p.barrels_sold, 0)] *)
Definition totalBarrels (ps : list Player) : double :=
  fold_left (fun sum p => add sum (barrels_sold p)) ps zero.

(** Calculate market share *)
Definition calculateMarketShare (ps : list Player) : list Player :=
  let total := totalBarrels ps in
  if ltb zero total then
    map (fun p => {| barrels_sold := barrels_sold p;
                     market_share :=
                       mul (div (barrels_sold p) total) (of_Z 100) |}) ps
  else ps.

End Ieee.

(** ** A small world

    A production node (node 0), a plain node (node 1), two consumption nodes
    (2 and 3, 80 barrels each) and an import terminal (node 4), joined by
    truck-only edges 0-1, 1-2, 1-3, 2-4 and 3-4.  Player 0 builds the well
    at node 0 and player 1 a refinery at node 1; both are rated at 100
    barrels a turn. *)

Module Scenario.

Import GameState TurnResolver.

Definition plain (id : nat) : Node :=
  {| node_id := id;
     production_capacity := None; well_build_cost := None;
     operating_cost := None; has_well := false; well_owner := None;
     is_import_terminal := false;
     demand_base := 0; demand_growth_rate := 0; current_demand := 0;
     local_price := Fin 0; supply_source := None;
     buildings_refinery := None; buildings_storage := None |}.

Definition production_node : Node :=
  {| node_id := 0;
     production_capacity := Some 100%Q; well_build_cost := Some 5000000%Q;
     operating_cost := Some 10%Q; has_well := false; well_owner := None;
     is_import_terminal := false;
     demand_base := 0; demand_growth_rate := 0; current_demand := 0;
     local_price := Fin 0; supply_source := None;
     buildings_refinery := None; buildings_storage := None |}.

Definition city (id : nat) : Node :=
  with_demand (with_demand_base (plain id) 80) (Fin 0) 80.

Definition terminal_node : Node :=
  {| node_id := 4;
     production_capacity := None; well_build_cost := None;
     operating_cost := None; has_well := false; well_owner := None;
     is_import_terminal := true;
     demand_base := 0; demand_growth_rate := 0; current_demand := 0;
     local_price := Fin 0; supply_source := None;
     buildings_refinery := None; buildings_storage := None |}.

Definition road (id a b : nat) : Edge :=
  {| edge_id := id; node_a := a; node_b := b;
     truck_cost := 3; rail_available := false; rail_cost := 1;
     pipeline := {| pipe_owner := None; pipe_capacity := 0; pipe_fee := 0;
                    pipe_utilization := 0 |};
     flow_volume := 0 |}.

Definition fresh_player (id : nat) : Player :=
  {| player_id := id; cash := Fin 50000000;
     assets := {| wells := []; refineries := []; pipelines := [];
                  storage := [] |};
     revenue_this_turn := Fin 0; costs_this_turn := Fin 0;
     profit_this_turn := Fin 0; profit_history := [];
     cumulative_profit := Fin 0; barrels_sold := 0; market_share := 0 |}.

(** The settings of the game, with an elasticity of 0, a base demand of 160
    barrels and refineries of 100 barrels. *)
Definition world_settings : Settings :=
  {| GAME_LENGTH_TURNS := 150;
     WELL_BUILD_COST := 5000000;
     REFINERY_BUILD_COST := 10000000;
     REFINERY_UPGRADE_COST_MULTIPLIER := 6 # 10;
     PIPELINE_COST_PER_EDGE := 1000000;
     STORAGE_COST_PER_BARREL := 1000;
     REFINERY_OPERATING_COST := 10;
     PIPELINE_DEFAULT_FEE := 1 # 2;
     PRICE_VOLATILITY := 2 # 100;
     TERMINAL_FEE := 5;
     BASE_TOTAL_DEMAND := 160;
     REFERENCE_PRICE := 100;
     DEMAND_ELASTICITY := 0;
     REFINERY_BASE_CAPACITY := 100;
     PIPELINE_BASE_CAPACITY := 20000 |}.

Definition empty_pathfinder : Pathfinder.t :=
  {| Pathfinder.dist := []; Pathfinder.next := [] |}.

(** The game as it starts: nothing is built. *)
Definition bare_nodes : list Node :=
  [production_node; plain 1; city 2; city 3; terminal_node].

Definition bare_edges : list Edge :=
  [road 0 0 1; road 1 1 2; road 2 1 3; road 3 2 4; road 4 3 4].

Definition bare_world : GameState.t :=
  {| settings := world_settings; turn := 0;
     global_oil_price := 100; global_crude_price := 70;
     global_refined_price := 100;
     players := [fresh_player 0; fresh_player 1];
     nodes := bare_nodes; edges := bare_edges;
     pathfinder := default empty_pathfinder
                     (Pathfinder.computeAllPaths bare_nodes bare_edges);
     turnHistory := [] |}.

(** Player 0 builds the well and player 1 the refinery. *)
Definition world : GameState.t :=
  default bare_world
    (let? r := buildWell bare_world 0 0 in
     let? r := buildRefinery (fst r) 1 1 in
     Some (fst r)).

Definition world_nodes : list Node := nodes world.
Definition world_edges : list Edge := edges world.
Definition world_pathfinder : Pathfinder.t := pathfinder world.

(** [Math.pow] for an exponent that is an integer. *)
Definition pow_integral (x y : Q) : Q := Qpower x (Qfloor y).

(** A turn in which the random source leaves prices and growth rates
    alone. *)
Definition calm : Draws :=
  {| crude_draw := 1 # 2; refined_draw := 1 # 2; jitter := fun _ => 0%Q |}.

(** The world after one calm turn. *)
Definition after_one_turn : GameState.t :=
  default world (processTurn pow_integral calm world).

(** A turn, a pipeline built by player 0 on the edge 0-1, another turn. *)
Definition two_turns : list Event :=
  [Advance calm; Mutate (BuildPipeline 0 0); Advance calm].

Definition after_two_turns : GameState.t :=
  default world (run pow_integral world two_turns).

(** The world after player 0 has built a pipeline on the edge 0-1. *)
Definition after_pipeline : GameState.t :=
  default world (fst <$> buildPipeline world 0 0).

(** The first turn of the world up to the routing, the consumption node 2
    in it, and the routing of that node. *)
Definition before_routing : GameState.t :=
  default world
    (let? r := productionPhase (updateGlobalPrice calm (resetTurn world)) in
     updateDemand pow_integral (snd r)).

(** The first turn of the world up to the production phase. *)
Definition after_production : GameState.t :=
  default world
    (snd <$> productionPhase (updateGlobalPrice calm (resetTurn world))).

Definition priced_city : Node :=
  default (city 2) (nodes before_routing !! 2%nat).

Definition after_first_route : GameState.t :=
  default world (route_at before_routing 2).

(** A turn with sales, then the refinery owner raises its fee to 1000 and
    the next turn every consumption node imports. *)
Definition fee_rise : list Event :=
  [Advance calm; Mutate (SetRefineryFee 1 1 1000)].

Definition after_fee_rise : GameState.t :=
  default world (run pow_integral world fee_rise).

Definition after_quiet_turn : GameState.t :=
  default world (processTurn pow_integral calm after_fee_rise).

End Scenario.

(** ** A chain of pipelines

    Four nodes joined by the edges 0-2, 2-1 and 1-3, which a truck runs for
    3 a barrel; player 0 owns a pipeline on each of them, at the fees 0.1,
    0.1 and 1.3 a barrel.  And four players who sold 3, 1, 2 and 0
    barrels. *)

Module Chain.

Import Binary64 Ieee.

Definition piped (a b : nat) (fee : double) : Edge :=
  {| node_a := a; node_b := b; truck_cost := of_Z 3;
     rail_available := false; rail_cost := of_Z 1;
     pipe_owner := Some 0%nat; pipe_fee := fee |}.

Definition chain_nodes : list Node := map Scenario.plain (seq 0 4).

Definition chain_edges : list Edge :=
  [piped 0 2 (decimal 1 10); piped 2 1 (decimal 1 10);
   piped 1 3 (decimal 13 10)].

Definition seller (barrels : Z) : Player :=
  {| barrels_sold := of_Z barrels; market_share := zero |}.

Definition sellers : list Player := [seller 3; seller 1; seller 2; seller 0].

End Chain.

(** * Notions of the statements *)

Section Notions.

Import Pathfinder GameState TurnResolver.

(** ** Players *)

(** [w], found at position [i], leads the players seen so far, and strictly
    leads those before it. *)
Definition leads (seen : list Player) (i : nat) (w : Player) : Prop :=
  seen !! i = Some w
  /\ (forall p, p ∈ seen ->
        le (cumulative_profit p) (cumulative_profit w))
  /\ (forall j p, (j < i)%nat -> seen !! j = Some p ->
        lt (cumulative_profit p) (cumulative_profit w)).

(** What only the last two phases of a turn, the settlement of profits and
    the market shares, may change in a player. *)
Definition ledger (p : Player) : num * num * list num * Q :=
  (cash p, cumulative_profit p, profit_history p, market_share p).

(** What no command and no other phase of the turn changes. *)
Definition book (p : Player) : num * list num :=
  (cumulative_profit p, profit_history p).

(** The sum of the entries of a history, in the order they were added. *)
Definition total_profit (history : list num) : num :=
  fold_left add history (Fin 0).

(** How many turns a list of events advances. *)
Fixpoint advances (es : list Event) : nat :=
  match es with
  | [] => 0
  | Advance _ :: es => S (advances es)
  | Mutate _ :: es => advances es
  end.

(** [p'] is [p] after its profit was settled. *)
Definition settled_from (p p' : Player) : Prop :=
  sub (revenue_this_turn p') (costs_this_turn p') = Some (profit_this_turn p')
  /\ cash p' = add (cash p) (profit_this_turn p')
  /\ cumulative_profit p' = add (cumulative_profit p) (profit_this_turn p')
  /\ profit_history p' = profit_history p ++ [profit_this_turn p'].

(** Every player's cumulative profit is the sum of its history, which has
    [k] entries. *)
Definition balanced (k : nat) (ps : list Player) : Prop :=
  Forall (fun p => cumulative_profit p = total_profit (profit_history p)
                   /\ length (profit_history p) = k) ps.

(** ** Prices *)

(** The prices [updateGlobalPrice] computes before the comparison. *)
Definition walked_crude (d : Draws) (s : GameState.t) : Q :=
  Qmax2 30 (Qmin2 150 (randomWalk (crude_draw d) (global_crude_price s)
                                  (PRICE_VOLATILITY (settings s)))).

Definition walked_refined (d : Draws) (s : GameState.t) : Q :=
  Qmax2 50 (Qmin2 200 (randomWalk (refined_draw d) (global_refined_price s)
                                  (PRICE_VOLATILITY (settings s)))).

(** ** Supply routes *)

(** The landed cost [findCheapestSupply] computes for a well and a
    refinery. *)
Definition landed_cost (settings : Settings) (oc : Q) (transportToRef : num)
  (fee : Q) (transportToDemand : num) : num :=
  add (add (add (add (Fin oc) transportToRef)
                (Fin (REFINERY_OPERATING_COST settings)))
           (Fin fee))
      transportToDemand.

(** The node at [prodId] has a well, the node at [refId] has a refinery, and
    [cost] is the landed cost of supplying the demand node through them. *)
Definition player_route (pf : Pathfinder.t) (settings : Settings)
  (nodes : list Node) (demandNodeId : nat) (prodId refId : nat) (cost : num)
  : Prop :=
  exists prodNode refNode r oc tr td,
    nodes !! prodId = Some prodNode
    /\ has_well prodNode = true
    /\ nodes !! refId = Some refNode
    /\ buildings_refinery refNode = Some r
    /\ operating_cost prodNode = Some oc
    /\ getCost pf prodId refId = Some tr
    /\ getCost pf refId demandNodeId = Some td
    /\ cost = landed_cost settings oc tr (ref_fee r) td.

(** The state of the search: the cheapest cost so far is that of the route
    kept, and is [Infinity] while no route is kept. *)
Definition search_state (pf : Pathfinder.t) (settings : Settings)
  (nodes : list Node) (demandNodeId : nat) (acc : num * option Supply)
  : Prop :=
  match snd acc with
  | None => fst acc = Infinity
  | Some route =>
      exists prodId refId,
        route = PlayerSupply prodId refId demandNodeId (fst acc)
        /\ player_route pf settings nodes demandNodeId prodId refId (fst acc)
        /\ finite (fst acc)
  end.

(** ** Tables *)

(** A table of [n] rows of [n] cells. *)
Definition square {A : Type} (n : nat) (m : list (list A)) : Prop :=
  length m = n /\ Forall (fun row => length row = n) m.

(** The distance table alone: the next-hop table is never read to decide a
    distance. *)
Definition relax_dist (k i j : nat) (d : list (list num))
  : list (list num) :=
  let through := add (cell Infinity d i k) (cell Infinity d k j) in
  if ltb through (cell Infinity d i j) then mset d i j through else d.

Definition round_dist (n k : nat) (d : list (list num)) : list (list num) :=
  fold_left (fun d i =>
    fold_left (fun d j => relax_dist k i j d) (seq 0 n) d) (seq 0 n) d.

Definition floydWarshall_dist (n : nat) (d : list (list num))
  : list (list num) :=
  fold_left (fun d k => round_dist n k d) (seq 0 n) d.

(** [init_edge] on the distance table alone. *)
Definition init_edge_dist (d : list (list num)) (e : Edge)
  : option (list (list num)) :=
  let cost := Fin (getEdgeCost e) in
  match d !! node_a e with
  | None => None
  | Some row =>
      match row !! node_b e with
      | None => Some d
      | Some x =>
          if ltb cost x then
            Some (mset (mset d (node_a e) (node_b e) cost)
                       (node_b e) (node_a e) cost)
          else Some d
      end
  end.

(** The distance table [computeAllPaths] builds before the loop over the
    edges, alone. *)
Definition seed_self (n : nat) : list (list num) :=
  fold_left (fun d i => mset d i i (Fin 0)) (seq 0 n)
            (replicate n (replicate n Infinity)).

(** The cell [(i, j)] after the round through [k], from the table [D] the
    round starts with. *)
Definition relaxed (D : list (list num)) (k i j : nat) : num :=
  let through := add (cell Infinity D i k) (cell Infinity D k j) in
  if ltb through (cell Infinity D i j) then through
  else cell Infinity D i j.

(** The table in the middle of the round through [k] that started with [D]:
    the cells before [(i, m)] in the order of the two loops are relaxed, the
    others are those of [D]. *)
Definition midway (n k : nat) (D : list (list num)) (i m : nat)
  (d : list (list num)) : Prop :=
  square n d
  /\ forall a b, (a < n)%nat -> (b < n)%nat ->
       cell Infinity d a b
       = if decide ((a < i)%nat \/ (a = i /\ (b < m)%nat))
         then relaxed D k a b else cell Infinity D a b.

(** What holds of the distance table before the round through [K]: it is
    non-negative, zero on the diagonal, symmetric, and no distance is
    improved by going through a node below [K]. *)
Definition metric_upto (n K : nat) (d : list (list num)) : Prop :=
  square n d
  /\ (forall i j, (i < n)%nat -> (j < n)%nat -> nonneg (cell Infinity d i j))
  /\ (forall i, (i < n)%nat -> cell Infinity d i i = Fin 0)
  /\ (forall i j, (i < n)%nat -> (j < n)%nat ->
        cell Infinity d i j = cell Infinity d j i)
  /\ (forall i j m, (i < n)%nat -> (j < n)%nat -> (m < n)%nat ->
        (m < K)%nat ->
        le (cell Infinity d i j)
           (add (cell Infinity d i m) (cell Infinity d m j))).

(** Two tables of the same size, the first nowhere above the second. *)
Definition below (n : nat) (d' d : list (list num)) : Prop :=
  square n d' /\ square n d
  /\ forall i j, (i < n)%nat -> (j < n)%nat ->
       le (cell Infinity d' i j) (cell Infinity d i j).

Definition symmetric_table (n : nat) (d : list (list num)) : Prop :=
  forall i j, (i < n)%nat -> (j < n)%nat ->
    cell Infinity d i j = cell Infinity d j i.

(** The same edges, each at a cost that is at most what it was. *)
Definition cheaper (edges edges' : list Edge) : Prop :=
  Forall2 (fun e e' =>
             node_a e' = node_a e /\ node_b e' = node_b e
             /\ (getEdgeCost e' <= getEdgeCost e)%Q)
          edges edges'.

(** ** What is built, and who owns it *)

(** What a refinery is apart from the counters of the turn. *)
Definition refinery_structure (r : Refinery) : nat * Q * Q * nat :=
  (ref_owner r, ref_capacity r, ref_fee r, upgrade_level r).

(** A node apart from its demand, its price and the counters of the
    turn. *)
Definition node_structure (n : Node)
  : nat * option Q * option Q * option Q * bool * option nat * bool * Q
    * option (nat * Q * Q * nat) * option Storage :=
  (node_id n, production_capacity n, well_build_cost n, operating_cost n,
   has_well n, well_owner n, is_import_terminal n, demand_growth_rate n,
   refinery_structure <$> buildings_refinery n, buildings_storage n).

(** An edge apart from the counters of the turn. *)
Definition edge_structure (e : Edge)
  : nat * nat * nat * Q * bool * Q * option nat * Q * Q :=
  (edge_id e, node_a e, node_b e, truck_cost e, rail_available e,
   rail_cost e, pipe_owner (pipeline e), pipe_capacity (pipeline e),
   pipe_fee (pipeline e)).

Definition player_structure (p : Player) : nat * Assets :=
  (player_id p, assets p).

(** The game apart from its clock, its prices, its demand and the accounts
    of the players. *)
Definition structure (s : GameState.t) :=
  (settings s, pathfinder s, map node_structure (nodes s),
   map edge_structure (edges s), map player_structure (players s)).

(** The clock of the game and its prices. *)
Definition clock (s : GameState.t) :=
  (turn s, turnHistory s, global_oil_price s, global_crude_price s,
   global_refined_price s).

(** What the phases of a turn other than the price walk, the settlement
    and the saving of the state leave alone. *)
Definition frame (s : GameState.t) := (structure s, clock s).

(** What the pathfinder reads of an edge. *)
Definition edge_key (e : Edge) : nat * nat * Q :=
  (node_a e, node_b e, getEdgeCost e).

(** What no command and no turn changes in a node and in an edge. *)
Definition node_site (n : Node)
  : nat * option Q * option Q * option Q * bool * Q :=
  (node_id n, production_capacity n, well_build_cost n, operating_cost n,
   is_import_terminal n, demand_growth_rate n).

Definition edge_site (e : Edge) : nat * nat * nat * Q * bool * Q :=
  (edge_id e, node_a e, node_b e, truck_cost e, rail_available e,
   rail_cost e).

(** What is built on [node] is still there on [node'], with the owner it
    had. *)
Definition node_owners_kept (node node' : Node) : Prop :=
  (has_well node = true ->
   has_well node' = true /\ well_owner node' = well_owner node)
  /\ (forall r, buildings_refinery node = Some r ->
        exists r', buildings_refinery node' = Some r'
                   /\ ref_owner r' = ref_owner r)
  /\ (forall st, buildings_storage node = Some st ->
        exists st', buildings_storage node' = Some st'
                    /\ sto_owner st' = sto_owner st).

Definition pipeline_owner_kept (e e' : Edge) : Prop :=
  forall o, pipe_owner (pipeline e) = Some o ->
            pipe_owner (pipeline e') = Some o.

(** Every element of [l] has one at its position in [l'] that [R] relates
    it to. *)
Definition kept_along {A : Type} (R : A -> A -> Prop) (l l' : list A)
  : Prop :=
  forall i x, l !! i = Some x -> exists x', l' !! i = Some x' /\ R x x'.

(** Every well, refinery, storage and pipeline of [s] is still there in
    [s'], with the owner it had. *)
Definition owners_kept (s s' : GameState.t) : Prop :=
  kept_along node_owners_kept (nodes s) (nodes s')
  /\ kept_along pipeline_owner_kept (edges s) (edges s').

(** The pathfinder holds the tables of the nodes and edges of the game. *)
Definition synced (s : GameState.t) : Prop :=
  computeAllPaths (nodes s) (edges s) = Some (pathfinder s).

(** The player who issues a command. *)
Definition actor (c : Command) : nat :=
  match c with
  | BuildWell p _ | BuildPipeline p _ | BuildRefinery p _
  | UpgradeRefinery p _ | BuildStorage p _ _ | SetPipelineFee p _ _
  | SetRefineryFee p _ _ => p
  end.

(** The pipeline of the edge at [edgeId] belongs to [playerId] at the fee
    [fee], and the pathfinder carries a barrel between the two ends of the
    edge, in either direction, for at most that fee. *)
Definition pipeline_priced (s : GameState.t) (playerId edgeId : nat)
  (fee : Q) : Prop :=
  exists e,
    edges s !! edgeId = Some e
    /\ pipe_owner (pipeline e) = Some playerId
    /\ pipe_fee (pipeline e) = fee
    /\ ((node_b e < length (nodes s))%nat ->
        exists c1 c2,
          getCost (pathfinder s) (node_a e) (node_b e) = Some c1
          /\ getCost (pathfinder s) (node_b e) (node_a e) = Some c2
          /\ le c1 (Fin fee) /\ le c2 (Fin fee)).

(** ** Demand *)

(** What [updateDemand] makes of the node [n]: a node without base demand
    is left as it is; a consumption node gets its share of the market
    demand, in proportion to its base demand. *)
Definition demand_shared (totalMarketDemand total : Q) (n n' : Node)
  : Prop :=
  demand_base n' = demand_base n
  /\ if Qeq_bool (demand_base n) 0 then n' = n
     else current_demand n'
          = (totalMarketDemand * (demand_base n / total))%Q
          /\ ~ (total == 0)%Q.

(** The barrels sold, player by player, after [owner] has sold [barrels]
    more. *)
Definition credited (barrels : Q) (owner : nat) (sold : list Q) : list Q :=
  alter (fun b => (b + barrels)%Q) owner sold.

(** ** Production *)

(** The entry of the production list for a node: one for every node with a
    well and a capacity that is not zero. *)
Definition well_entry (node : Node) : option Production :=
  if has_well node && negb (falsy (production_capacity node)) then
    let? capacity := production_capacity node in
    Some {| prod_nodeId := node_id node; prod_owner := well_owner node;
            prod_capacity := capacity;
            prod_operating_cost := operating_cost node |}
  else None.

(** The costs of the player at position [i] after the well of [node] has
    been charged: the owner of the well pays its capacity times its
    operating cost. *)
Definition charged (i : nat) (costs : num) (node : Node) : num :=
  match well_entry node, well_owner node, operating_cost node with
  | Some entry, Some owner, Some oc =>
      if decide (owner = i) then add costs (Fin (prod_capacity entry * oc))
      else costs
  | _, _, _ => costs
  end.

(** A player apart from the costs of the turn. *)
Definition apart_from_costs (p : Player) :=
  (player_id p, cash p, assets p, revenue_this_turn p, profit_this_turn p,
   profit_history p, cumulative_profit p, barrels_sold p, market_share p).

(** ** Usage of the edges *)

(** The revenue of the player at position [i] after the toll of one
    passage over the edge at [edgeId]: the owner of its pipeline earns the
    fee on every barrel. *)
Definition tolled (edges : list Edge) (barrels : Q) (i : nat)
  (revenue : num) (edgeId : nat) : num :=
  match edges !! edgeId with
  | Some e =>
      match pipe_owner (pipeline e) with
      | Some owner =>
          if decide (owner = i)
          then add revenue (Fin (barrels * pipe_fee (pipeline e)))
          else revenue
      | None => revenue
      end
  | None => revenue
  end.

(** A player apart from the revenue of the turn. *)
Definition apart_from_revenue (p : Player) :=
  (player_id p, cash p, assets p, costs_this_turn p, profit_this_turn p,
   profit_history p, cumulative_profit p, barrels_sold p, market_share p).

(** The edge [e'] is the edge [e] after [k] passages of [barrels] barrels:
    its flow has grown by that much, and so has the utilization of its
    pipeline if it has one. *)
Definition metered (barrels : Q) (k : nat) (e e' : Edge) : Prop :=
  edge_structure e' = edge_structure e
  /\ (flow_volume e' == flow_volume e + barrels * inject_Z (Z.of_nat k))%Q
  /\ (pipe_utilization (pipeline e')
      == pipe_utilization (pipeline e)
         + match pipe_owner (pipeline e) with
           | Some _ => barrels * inject_Z (Z.of_nat k)
           | None => 0
           end)%Q.

(** The demand of a node. *)
Definition demand_part (n : Node) : Q * Q :=
  (demand_base n, current_demand n).

(** A node without base demand has the demand it had. *)
Definition idle_kept (n n' : Node) : Prop :=
  Qeq_bool (demand_base n) 0 = true -> demand_part n' = demand_part n.

(** The snapshot [saveState] takes of a player. *)
Definition snapshot_of (p : Player) : PlayerSnapshot :=
  {| snap_id := player_id p; snap_cash := cash p;
     snap_profit := profit_this_turn p;
     snap_cumulative_profit := cumulative_profit p |}.

(** ** Edges and routes *)

(** What carrying a barrel over [e] by [ty] costs, and whether [e] offers
    [ty]: a truck always runs, rail where it is available, a pipeline once
    someone owns it. *)
Definition mode_cost (e : Edge) (ty : TransportType) : Q :=
  match ty with
  | truck => truck_cost e
  | rail => rail_cost e
  | pipeline_t => pipe_fee (pipeline e)
  end.

Definition mode_open (e : Edge) (ty : TransportType) : Prop :=
  match ty with
  | truck => True
  | rail => rail_available e = true
  | pipeline_t => pipe_owner (pipeline e) <> None
  end.

(** [e] joins [a] and [b], in either direction. *)
Definition joins (e : Edge) (a b : nat) : Prop :=
  (node_a e = a /\ node_b e = b) \/ (node_a e = b /\ node_b e = a).



(** The two tables agree on which pairs of nodes are joined: a pair has no
    next hop exactly when its cost is [Infinity]. *)
Definition linked (n : nat) (pf : Pathfinder.t) : Prop :=
  square n (dist pf) /\ square n (next pf)
  /\ forall i j, (i < n)%nat -> (j < n)%nat ->
       cell None (next pf) i j = None
       <-> cell Infinity (dist pf) i j = Infinity.

(** One round of the triple loop, on both tables. *)
Definition round_tables (n k : nat) (pf : Pathfinder.t) : Pathfinder.t :=
  fold_left (fun pf i =>
    fold_left (fun pf j => relax k i j pf) (seq 0 n) pf) (seq 0 n) pf.

(** The next hop of the cell [(i, j)] after the round through [k], from the
    tables [P] the round starts with. *)
Definition relaxed_next (P : Pathfinder.t) (k i j : nat) : option nat :=
  let through :=
    add (cell Infinity (dist P) i k) (cell Infinity (dist P) k j) in
  if ltb through (cell Infinity (dist P) i j) then cell None (next P) i k
  else cell None (next P) i j.

(** The next-hop table in the middle of the round through [k] that started
    with [P]. *)
Definition midway_next (n k : nat) (P : Pathfinder.t) (i m : nat)
  (pf : Pathfinder.t) : Prop :=
  square n (next pf)
  /\ forall a b, (a < n)%nat -> (b < n)%nat ->
       cell None (next pf) a b
       = if decide ((a < i)%nat \/ (a = i /\ (b < m)%nat))
         then relaxed_next P k a b else cell None (next P) a b.

(** Before the rounds, the next hop of two distinct nodes is the second of
    them, over an edge whose cost the distance table holds. *)
Definition direct (n : nat) (edges : list Edge) (pf : Pathfinder.t) : Prop :=
  linked n pf
  /\ forall i j m, (i < n)%nat -> (j < n)%nat -> i <> j ->
       cell None (next pf) i j = Some m ->
       m = j
       /\ exists e, e ∈ edges /\ joins e i j
                    /\ cell Infinity (dist pf) i j = Fin (getEdgeCost e).

(** The next hop [m] from [i] towards [j] is over an edge of the graph, and
    the cost from [i] to [j] covers that edge and the cost from [m] to
    [j]. *)
Definition hops (n : nat) (edges : list Edge) (pf : Pathfinder.t) : Prop :=
  forall i j m, (i < n)%nat -> (j < n)%nat -> i <> j ->
    cell None (next pf) i j = Some m ->
    (m < n)%nat
    /\ exists e, e ∈ edges /\ joins e i m
                 /\ le (add (Fin (getEdgeCost e))
                            (cell Infinity (dist pf) m j))
                       (cell Infinity (dist pf) i j).

(** A node with a refinery of positive capacity. *)
Definition running_refinery (node : Node) : bool :=
  match buildings_refinery node with
  | Some r => Qltb 0 (ref_capacity r)
  | None => false
  end.

(** [t] is the nearest to [from] of the nodes [pick] accepts: it is one of
    them, at a finite cost, no other is nearer, and those before it in the
    list are strictly farther. *)
Definition nearest_of (pick : Node -> bool) (pf : Pathfinder.t) (from : nat)
  (nodes : list Node) (t : nat) : Prop :=
  exists node c,
    nodes !! t = Some node /\ pick node = true
    /\ getCost pf from t = Some c /\ finite c
    /\ forall i node', nodes !! i = Some node' -> pick node' = true ->
         exists c', getCost pf from i = Some c' /\ le c c'
                    /\ ((i < t)%nat -> lt c c').

(** None of the nodes [pick] accepts is at a finite cost of [from]. *)
Definition none_near (pick : Node -> bool) (pf : Pathfinder.t) (from : nat)
  (nodes : list Node) : Prop :=
  forall i node, nodes !! i = Some node -> pick node = true ->
    getCost pf from i = Some Infinity.

(** The state of the search for the nearest node after the nodes of [l]:
    the node kept is at the cost kept, which is [Infinity] while no node is
    kept; no node of [l] that [pick] accepts is nearer, and those before
    the node kept are strictly farther. *)
Definition searched (pick : Node -> bool) (pf : Pathfinder.t) (from : nat)
  (l : list Node) (acc : option nat * num) : Prop :=
  match fst acc with
  | Some t =>
      exists node, l !! t = Some node /\ pick node = true
                   /\ getCost pf from t = Some (snd acc)
                   /\ finite (snd acc)
  | None => snd acc = Infinity
  end
  /\ forall i node, l !! i = Some node -> pick node = true ->
       exists c, getCost pf from i = Some c /\ le (snd acc) c
                 /\ (forall t, fst acc = Some t -> (i < t)%nat ->
                       lt (snd acc) c).

End Notions.

(** ** Tables of doubles *)

Module IeeeTable.

Import Binary64 Ieee.
Import Pathfinder (mset, cell).

(** The distance table alone: the next-hop table is never read to decide a
    distance. *)
Definition relax_dist (k i j : nat) (d : list (list double))
  : list (list double) :=
  let through := add (cell infinity d i k) (cell infinity d k j) in
  if ltb through (cell infinity d i j) then mset d i j through else d.

Definition round_dist (n k : nat) (d : list (list double))
  : list (list double) :=
  fold_left (fun d i =>
    fold_left (fun d j => relax_dist k i j d) (seq 0 n) d) (seq 0 n) d.

Definition floydWarshall_dist (n : nat) (d : list (list double))
  : list (list double) :=
  fold_left (fun d k => round_dist n k d) (seq 0 n) d.

(** [init_edge] on the distance table alone. *)
Definition init_edge_dist (d : list (list double)) (e : Edge)
  : option (list (list double)) :=
  let cost := getEdgeCost e in
  match d !! node_a e with
  | None => None
  | Some row =>
      match row !! node_b e with
      | None => Some d
      | Some x =>
          if ltb cost x then
            Some (mset (mset d (node_a e) (node_b e) cost)
                       (node_b e) (node_a e) cost)
          else Some d
      end
  end.

(** The distance table [computeAllPaths] builds before the loop over the
    edges, alone. *)
Definition seed_self (n : nat) : list (list double) :=
  fold_left (fun d i => mset d i i zero) (seq 0 n)
            (replicate n (replicate n infinity)).

(** The cell [(i, j)] after the round through [k], from the table [D] the
    round starts with. *)
Definition relaxed (D : list (list double)) (k i j : nat) : double :=
  let through := add (cell infinity D i k) (cell infinity D k j) in
  if ltb through (cell infinity D i j) then through
  else cell infinity D i j.

(** The table in the middle of the round through [k] that started with [D]:
    the cells before [(i, m)] in the order of the two loops are relaxed, the
    others are those of [D]. *)
Definition midway (n k : nat) (D : list (list double)) (i m : nat)
  (d : list (list double)) : Prop :=
  square n d
  /\ forall a b, (a < n)%nat -> (b < n)%nat ->
       cell infinity d a b
       = if decide ((a < i)%nat \/ (a = i /\ (b < m)%nat))
         then relaxed D k a b else cell infinity D a b.

(** What holds of the distance table all along the rebuild: no cell is
    below zero, the diagonal is zero and the table is symmetric. *)
Definition mirrored (n : nat) (d : list (list double)) : Prop :=
  square n d
  /\ (forall i j, (i < n)%nat -> (j < n)%nat ->
        ltb (cell infinity d i j) zero = false)
  /\ (forall i, (i < n)%nat -> cell infinity d i i = zero)
  /\ (forall i j, (i < n)%nat -> (j < n)%nat ->
        cell infinity d i j = cell infinity d j i).

End IeeeTable.

(** * Properties *)

(** ** Numbers *)

Section NumFacts.

Local Open Scope Q_scope.

Lemma Qltb_lt (x y : Q) : Qltb x y = true <-> x < y.
Proof.
  unfold Qltb. rewrite negb_true_iff, <- not_true_iff_false, Qle_bool_iff.
  split; [apply Qnot_le_lt | apply Qlt_not_le].
Qed.

Lemma Qltb_ge (x y : Q) : Qltb x y = false <-> y <= x.
Proof.
  unfold Qltb. rewrite negb_false_iff. apply Qle_bool_iff.
Qed.

Lemma Qleb_le (x y : Q) : Qleb x y = true <-> x <= y.
Proof. apply Qle_bool_iff. Qed.

Lemma Qmin2_spec (x y : Q) :
  (y < x /\ Qmin2 x y = y) \/ (x <= y /\ Qmin2 x y = x).
Proof.
  unfold Qmin2. destruct (Qltb y x) eqn:E.
  - left. split; [by apply Qltb_lt | done].
  - right. split; [by apply Qltb_ge | done].
Qed.

Lemma Qmax2_spec (x y : Q) :
  (x < y /\ Qmax2 x y = y) \/ (y <= x /\ Qmax2 x y = x).
Proof.
  unfold Qmax2. destruct (Qltb x y) eqn:E.
  - left. split; [by apply Qltb_lt | done].
  - right. split; [by apply Qltb_ge | done].
Qed.

Lemma Qmin2_le_l (x y : Q) : Qmin2 x y <= x.
Proof. destruct (Qmin2_spec x y) as [[? ->]|[? ->]]; lra. Qed.

Lemma Qmin2_le_r (x y : Q) : Qmin2 x y <= y.
Proof. destruct (Qmin2_spec x y) as [[? ->]|[? ->]]; lra. Qed.

Lemma Qmin2_glb (x y z : Q) : z <= x -> z <= y -> z <= Qmin2 x y.
Proof. intros. destruct (Qmin2_spec x y) as [[? ->]|[? ->]]; lra. Qed.

Lemma ltb_lt (a b : num) : ltb a b = true <-> lt a b.
Proof.
  destruct a, b; simpl; try apply Qltb_lt; split; try done.
Qed.

Lemma ltb_ge (a b : num) : ltb a b = false <-> le b a.
Proof.
  destruct a, b; simpl; try apply Qltb_ge; split; try done.
Qed.

Lemma le_refl (a : num) : le a a.
Proof. destruct a; simpl; [lra | done]. Qed.

Lemma le_trans (a b c : num) : le a b -> le b c -> le a c.
Proof. destruct a, b, c; simpl; try done; lra. Qed.

Lemma lt_le (a b : num) : lt a b -> le a b.
Proof. destruct a, b; simpl; try done; lra. Qed.

Lemma lt_irrefl (a : num) : ~ lt a a.
Proof. destruct a; simpl; intros H; [lra | exact H]. Qed.

Lemma le_lt_trans (a b c : num) : le a b -> lt b c -> lt a c.
Proof. destruct a, b, c; simpl; try done; lra. Qed.

Lemma lt_le_trans (a b c : num) : lt a b -> le b c -> lt a c.
Proof. destruct a, b, c; simpl; try done; lra. Qed.

Lemma le_total (a b : num) : le a b \/ le b a.
Proof.
  destruct a, b; simpl; auto.
  destruct (Qlt_le_dec q q0); [left; lra | right; lra].
Qed.

Lemma le_Infinity (a : num) : le a Infinity.
Proof. by destruct a. Qed.

Lemma add_mono (a b c d : num) : le a c -> le b d -> le (add a b) (add c d).
Proof. destruct a, b, c, d; simpl; try done; lra. Qed.

Lemma add_nonneg (a b : num) : nonneg a -> nonneg b -> nonneg (add a b).
Proof. unfold nonneg. destruct a, b; simpl; try done; lra. Qed.

Lemma add_comm (a b : num) : add a b = add b a.
Proof.
  destruct a as [[x1 x2]|], b as [[y1 y2]|]; simpl; try done.
  unfold Qplus; simpl. f_equal. f_equal; [lia | apply Pos.mul_comm].
Qed.

End NumFacts.

(** ** The winner *)

Section Winner.

Import TurnResolver.

(** The body of the loop of [getWinner]. *)
Let pick (winner player : Player) : Player :=
  if gtb (cumulative_profit player) (cumulative_profit winner)
  then player else winner.

Lemma leads_step (seen : list Player) (i : nat) (w x : Player) :
  leads seen i w ->
  exists i', leads (seen ++ [x]) i' (pick w x).
Proof.
  intros (Hi & Hle & Hlt). unfold pick, gtb.
  destruct (ltb (cumulative_profit w) (cumulative_profit x)) eqn:E.
  - apply ltb_lt in E. exists (length seen). repeat split.
    + by rewrite lookup_app_r, Nat.sub_diag.
    + intros p [Hp | Hp]%elem_of_app.
      * apply lt_le. eapply le_lt_trans; [by apply Hle | done].
      * apply list_elem_of_singleton in Hp as ->. apply le_refl.
    + intros j p Hj Hp. rewrite lookup_app_l in Hp by done.
      eapply le_lt_trans; [| done]. apply Hle.
      by eapply list_elem_of_lookup_2.
  - apply ltb_ge in E. exists i. repeat split.
    + rewrite lookup_app_l; [done |]. by eapply lookup_lt_Some.
    + intros p [Hp | Hp]%elem_of_app; [by apply Hle |].
      by apply list_elem_of_singleton in Hp as ->.
    + intros j p Hj Hp. apply (Hlt j p Hj).
      rewrite lookup_app_l in Hp; [done |].
      apply lookup_lt_Some in Hi. lia.
Qed.

Lemma leads_loop (rest seen : list Player) (i : nat) (w : Player) :
  leads seen i w ->
  exists i', leads (seen ++ rest) i' (fold_left pick rest w).
Proof.
  revert seen i w. induction rest as [| x rest IH]; intros seen i w H.
  - rewrite app_nil_r. by exists i.
  - simpl. destruct (leads_step seen i w x H) as [i' H'].
    destruct (IH _ _ _ H') as [i'' H'']. exists i''.
    by rewrite <- app_assoc in H''.
Qed.

Lemma getWinner_leads (first : Player) (rest : list Player) :
  exists i w, getWinner (first :: rest) = Some w
              /\ leads (first :: rest) i w.
Proof.
  assert (H0 : leads [first] 0 first).
  { split; [done |]. split; [| intros; lia].
    intros p Hp. apply list_elem_of_singleton in Hp as ->. apply le_refl. }
  destruct (leads_loop rest [first] 0 first H0) as [i H].
  exists i, (fold_left pick rest first). split; [| done].
  assert (E : pick first first = first).
  { unfold pick. by destruct (gtb _ _). }
  unfold getWinner. f_equal.
  change (fold_left pick rest (pick first first) = fold_left pick rest first).
  by rewrite E.
Qed.

End Winner.

(** C10. For a non-empty list of players [getWinner] returns a player whose
    cumulative profit is maximal among all players, the one at the lowest
    position among those that reach the maximum: every player before it has a
    strictly smaller cumulative profit. *)
Theorem getWinner_maximal_lowest_index (ps : list Player) :
  ps <> [] ->
  exists (i : nat) (w : Player),
    TurnResolver.getWinner ps = Some w
    /\ ps !! i = Some w
    /\ (forall p, p ∈ ps -> le (cumulative_profit p) (cumulative_profit w))
    /\ (forall j p, (j < i)%nat -> ps !! j = Some p ->
          lt (cumulative_profit p) (cumulative_profit w)).
Proof.
  destruct ps as [| first rest]; [done |]. intros _.
  destruct (getWinner_leads first rest) as (i & w & Hw & H).
  by exists i, w.
Qed.


(** ** The price walk *)

Section PriceWalk.

Import GameState TurnResolver.
Local Open Scope Q_scope.

(** [Math.max(lo, Math.min(hi, x))] lies between [lo] and [hi]. *)
Lemma clamp_bounds (lo hi x : Q) :
  lo <= hi -> lo <= Qmax2 lo (Qmin2 hi x) <= hi.
Proof.
  intros H.
  destruct (Qmax2_spec lo (Qmin2 hi x)) as [[? ->] | [? ->]];
    [| lra].
  pose proof (Qmin2_le_l hi x). lra.
Qed.

End PriceWalk.

(** On prices that are numbers, whatever the random source gives: after
    [updateGlobalPrice] the crude price lies in [30, 150], the refined price
    lies in [50, 200] and is not below the crude price; when the walked
    refined price is below the walked crude price the refined price is the
    crude price plus 10, and otherwise it is the walked one. *)
Lemma updateGlobalPrice_bounds (d : TurnResolver.Draws) (s : GameState.t) :
  let s' := TurnResolver.updateGlobalPrice d s in
  (30 <= GameState.global_crude_price s' <= 150)%Q
  /\ (50 <= GameState.global_refined_price s' <= 200)%Q
  /\ (GameState.global_crude_price s' <= GameState.global_refined_price s')%Q
  /\ GameState.global_crude_price s' = walked_crude d s
  /\ ((walked_refined d s < walked_crude d s)%Q ->
      GameState.global_refined_price s'
      = (GameState.global_crude_price s' + 10)%Q)
  /\ ((walked_crude d s <= walked_refined d s)%Q ->
      GameState.global_refined_price s' = walked_refined d s)
  /\ GameState.global_oil_price s' = GameState.global_refined_price s'.
Proof.
  simpl. fold (walked_crude d s) (walked_refined d s).
  assert (Hc : (30 <= walked_crude d s <= 150)%Q)
    by (apply clamp_bounds; lra).
  assert (Hr : (50 <= walked_refined d s <= 200)%Q)
    by (apply clamp_bounds; lra).
  destruct (Qltb (walked_refined d s) (walked_crude d s)) eqn:E.
  - apply Qltb_lt in E. repeat split; try done; try lra.
  - apply Qltb_ge in E. repeat split; try done; try lra.
Qed.


(** ** Failing commands *)

Section Failures.

Import GameState.

(** Splits the tests of a command in the hypothesis [H] that gives its
    result; a path that ends in [Success] or in no result contradicts a
    [Failure]. *)
Ltac failed_path H :=
  repeat (simplify_eq; try done;
          match type of H with
          | context [match ?x with _ => _ end] => destruct x eqn:?
          end);
  simplify_eq; try done.

Lemma buildWell_failure s playerId nodeId s' msg :
  buildWell s playerId nodeId = Some (s', Failure msg) -> s' = s.
Proof. unfold buildWell. intros H. failed_path H. Qed.

Lemma buildPipeline_failure s playerId edgeId s' msg :
  buildPipeline s playerId edgeId = Some (s', Failure msg) -> s' = s.
Proof. unfold buildPipeline. intros H. failed_path H. Qed.

Lemma buildRefinery_failure s playerId nodeId s' msg :
  buildRefinery s playerId nodeId = Some (s', Failure msg) -> s' = s.
Proof. unfold buildRefinery. intros H. failed_path H. Qed.

Lemma upgradeRefinery_failure s playerId nodeId s' msg :
  upgradeRefinery s playerId nodeId = Some (s', Failure msg) -> s' = s.
Proof. unfold upgradeRefinery. intros H. failed_path H. Qed.

Lemma buildStorage_failure s playerId nodeId capacity s' msg :
  buildStorage s playerId nodeId capacity = Some (s', Failure msg) -> s' = s.
Proof. unfold buildStorage. intros H. failed_path H. Qed.

Lemma setPipelineFee_failure s playerId edgeId fee s' msg :
  setPipelineFee s playerId edgeId fee = Some (s', Failure msg) -> s' = s.
Proof. unfold setPipelineFee. intros H. failed_path H. Qed.

Lemma setRefineryFee_failure s playerId nodeId fee s' msg :
  setRefineryFee s playerId nodeId fee = Some (s', Failure msg) -> s' = s.
Proof. unfold setRefineryFee. intros H. failed_path H. Qed.

End Failures.

(** C9. A mutation command that returns a failure leaves the whole game
    state as it was: players, nodes, edges, pathfinder and history. *)
Theorem failure_leaves_state_unchanged
  (s s' : GameState.t) (c : GameState.Command) (msg : string) :
  GameState.execute s c = Some (s', GameState.Failure msg) -> s' = s.
Proof.
  destruct c; simpl.
  - apply buildWell_failure.
  - apply buildPipeline_failure.
  - apply buildRefinery_failure.
  - apply upgradeRefinery_failure.
  - apply buildStorage_failure.
  - apply setPipelineFee_failure.
  - apply setRefineryFee_failure.
Qed.


(** ** Profit settlement *)

Section Settlement.

Import GameState TurnResolver.

Lemma foldM_preserves {A B C : Type} (obs : B -> C) (f : B -> A -> option B)
  (l : list A) (b b' : B) :
  (forall b x b', f b x = Some b' -> obs b' = obs b) ->
  foldM f l b = Some b' -> obs b' = obs b.
Proof.
  intros Hf. revert b. induction l as [| x l IH]; simpl; intros b H.
  - by simplify_eq.
  - destruct (f b x) as [b1 |] eqn:E; [| done].
    rewrite (IH _ H). by eapply Hf.
Qed.

Lemma insert_same_obs {C : Type} (obs : Player -> C)
  (ps : list Player) (i : nat) (p p' : Player) :
  ps !! i = Some p -> obs p' = obs p ->
  map obs (<[i := p']> ps) = map obs ps.
Proof.
  intros Hi Hp. change (obs <$> <[i := p']> ps = obs <$> ps).
  rewrite list_fmap_insert, Hp. apply list_insert_id.
  by rewrite list_lookup_fmap, Hi.
Qed.

Lemma track_edge_ledger barrels s edgeId s' :
  track_edge barrels s edgeId = Some s' ->
  map ledger (players s') = map ledger (players s).
Proof.
  unfold track_edge. intros H.
  repeat (simplify_eq; try done;
          match type of H with
          | context [match ?x with _ => _ end] => destruct x eqn:?
          end); simplify_eq; simpl in *; try done.
  by eapply insert_same_obs.
Qed.

Lemma trackRouteUsage_ledger route barrels s s' :
  trackRouteUsage route barrels s = Some s' ->
  map ledger (players s') = map ledger (players s).
Proof.
  apply (foldM_preserves (fun s => map ledger (players s))).
  intros. by eapply track_edge_ledger.
Qed.

Lemma trackInfrastructureUsage_ledger production refinery demand barrels s s' :
  trackInfrastructureUsage production refinery demand barrels s = Some s' ->
  map ledger (players s') = map ledger (players s).
Proof.
  unfold trackInfrastructureUsage. intros H.
  destruct (Pathfinder.getDetailedRoute _ _ production refinery)
    as [r1 |]; [| done].
  assert (exists s1, match r1 with
                     | Some route => trackRouteUsage route barrels s
                     | None => Some s
                     end = Some s1
                     /\ map ledger (players s1) = map ledger (players s))
    as (s1 & E1 & H1).
  { destruct r1 as [route |].
    - destruct (trackRouteUsage route barrels s) as [s1 |] eqn:E; [| done].
      exists s1. split; [done |]. by eapply trackRouteUsage_ledger.
    - by exists s. }
  rewrite E1 in H.
  destruct (Pathfinder.getDetailedRoute _ _ refinery demand)
    as [r2 |]; [| done].
  rewrite <- H1. destruct r2 as [route |].
  - by eapply trackRouteUsage_ledger.
  - by simplify_eq.
Qed.

Lemma route_at_ledger s i s' :
  route_at s i = Some s' ->
  map ledger (players s') = map ledger (players s).
Proof.
  unfold route_at. intros H.
  repeat (simplify_eq; try done;
          match type of H with
          | context [trackInfrastructureUsage ?a ?b ?c ?d ?e] =>
              destruct (trackInfrastructureUsage a b c d e) as [s1 |] eqn:Ht;
              [apply trackInfrastructureUsage_ledger in Ht | done]
          | context [match ?x with _ => _ end] => destruct x eqn:?
          end); simplify_eq; simpl in *; try done.
  all: rewrite Ht.
  all: match goal with
       | Hr : <[_ := _]> (players _) !! ref_owner _ = Some ?p0 |- _ =>
           rewrite (insert_same_obs ledger _ _ p0) by done
       end.
  all: match goal with
       | Hw : players _ !! _ = Some ?p |- _ =>
           by apply (insert_same_obs ledger _ _ p)
       end.
Qed.

Lemma routeAndSatisfyDemand_ledger production s s' :
  routeAndSatisfyDemand production s = Some s' ->
  map ledger (players s') = map ledger (players s).
Proof.
  apply (foldM_preserves (fun s => map ledger (players s))).
  intros. by eapply route_at_ledger.
Qed.

Lemma produce_ledger acc node acc' :
  produce acc node = Some acc' ->
  map ledger (snd acc') = map ledger (snd acc).
Proof.
  unfold produce. destruct acc as [production ps]. intros H.
  repeat (simplify_eq; try done;
          match type of H with
          | context [match ?x with _ => _ end] => destruct x eqn:?
          end); simplify_eq; simpl in *; try done.
  by eapply insert_same_obs.
Qed.

Lemma productionPhase_ledger s production s' :
  productionPhase s = Some (production, s') ->
  map ledger (players s') = map ledger (players s).
Proof.
  unfold productionPhase. intros H.
  destruct (foldM produce (nodes s) ([], players s)) as [r |] eqn:E;
    [| done].
  simplify_eq. simpl.
  apply (foldM_preserves (fun acc => map ledger (snd acc))) in E; [done |].
  intros. by eapply produce_ledger.
Qed.

Lemma updateDemand_players pow s s' :
  updateDemand pow s = Some s' -> players s' = players s.
Proof.
  unfold updateDemand. intros H.
  repeat (simplify_eq; try done;
          match type of H with
          | context [match ?x with _ => _ end] => destruct x eqn:?
          end); by simplify_eq.
Qed.

Lemma resetTurn_ledger s :
  map ledger (players (resetTurn s)) = map ledger (players s).
Proof.
  simpl. change (ledger <$> (reset_player <$> players s)
                 = ledger <$> players s).
  by rewrite <- list_fmap_compose.
Qed.

Lemma settle_settled p p' : settle p = Some p' -> settled_from p p'.
Proof.
  unfold settle. intros H.
  destruct (sub (revenue_this_turn p) (costs_this_turn p)) eqn:E; [| done].
  by simplify_eq.
Qed.

Lemma calculatePlayerProfits_settled ps ps' :
  calculatePlayerProfits ps = Some ps' -> Forall2 settled_from ps ps'.
Proof.
  revert ps'. induction ps as [| p ps IH]; simpl; intros ps' H.
  - simplify_eq. constructor.
  - destruct (settle p) as [p' |] eqn:E; [| done].
    destruct (calculatePlayerProfits ps) as [ps1 |]; [| done].
    simplify_eq. constructor; [by apply settle_settled | by apply IH].
Qed.

(** [calculateMarketShare] changes the market share only. *)
Lemma calculateMarketShare_frame ps :
  Forall2 (fun p p' => exists m, p' = with_market_share p m)
          ps (calculateMarketShare ps).
Proof.
  unfold calculateMarketShare. destruct (Qltb 0 (totalBarrels ps)).
  - apply Forall2_fmap_r, Forall_Forall2_diag, Forall_forall.
    intros p _. by eexists.
  - apply Forall_Forall2_diag, Forall_forall. intros p _.
    exists (market_share p). by destruct p.
Qed.

(** The last two phases of a turn, and what the phases before them leave
    alone. *)
Lemma processTurn_phases pow d s s' :
  processTurn pow d s = Some s' ->
  exists routed settled,
    map ledger routed = map ledger (players s)
    /\ calculatePlayerProfits routed = Some settled
    /\ players s' = calculateMarketShare settled.
Proof.
  unfold processTurn. intros H.
  destruct (productionPhase _) as [[production s1] |] eqn:E1; [| done].
  destruct (updateDemand pow s1) as [s2 |] eqn:E2; [| done].
  destruct (routeAndSatisfyDemand production s2) as [s3 |] eqn:E3; [| done].
  simpl in H.
  destruct (calculatePlayerProfits (players s3)) as [ps |] eqn:E4; [| done].
  simplify_eq. simpl.
  apply productionPhase_ledger in E1.
  assert (E0 : map ledger (players (updateGlobalPrice d (resetTurn s)))
               = map ledger (players s)) by apply resetTurn_ledger.
  rewrite E0 in E1.
  apply updateDemand_players in E2.
  apply routeAndSatisfyDemand_ledger in E3.
  exists (players s3), ps. split; [| done]. by rewrite E3, E2, E1.
Qed.

Lemma processTurn_settled pow d s s' :
  processTurn pow d s = Some s' ->
  Forall2 settled_from (players s) (players s').
Proof.
  intros (routed & settled & E & E4 & ->)%processTurn_phases.
  apply calculatePlayerProfits_settled in E4.
  assert (Hl : Forall2 (fun p p3 => ledger p = ledger p3)
                       (players s) routed).
  { apply (Forall2_fmap ledger ledger eq), list_eq_Forall2. by symmetry. }
  assert (H03 : Forall2 settled_from (players s) settled).
  { eapply Forall2_trans; [| apply Hl | apply E4].
    intros p p3 p4 Hp (H1 & H2 & H3 & H4). unfold ledger in Hp.
    injection Hp as Hc Hu Hh _. unfold settled_from.
    by rewrite Hc, Hu, Hh. }
  eapply Forall2_trans; [| apply H03 | apply calculateMarketShare_frame].
  intros p p4 p5 H4 [m ->]. exact H4.
Qed.

(** No command touches the cumulative profit or the history. *)
Lemma execute_book s c s' o :
  execute s c = Some (s', o) ->
  map book (players s') = map book (players s).
Proof.
  destruct c; simpl;
    unfold buildWell, buildPipeline, buildRefinery, upgradeRefinery,
           buildStorage, setPipelineFee, setRefineryFee, recompute;
    intros H; repeat (simplify_eq; try done; case_match);
    simplify_eq; simpl in *; try done.
  all: by eapply insert_same_obs.
Qed.

Lemma balanced_settled k ps ps' :
  balanced k ps -> Forall2 settled_from ps ps' -> balanced (S k) ps'.
Proof.
  unfold balanced. intros Hb H. induction H as [| p p' ps ps' Hp H IH].
  - constructor.
  - apply Forall_cons in Hb as [[Hc Hl] Hb]. constructor; [| by apply IH].
    destruct Hp as (_ & _ & Hc' & Hh'). rewrite Hc', Hh', Hc. split.
    + unfold total_profit. by rewrite fold_left_app.
    + rewrite length_app. simpl. lia.
Qed.

Lemma balanced_book k ps ps' :
  map book ps' = map book ps -> balanced k ps -> balanced k ps'.
Proof.
  unfold balanced. intros Hm Hb.
  assert (H : Forall2 (fun p p' => book p = book p') ps ps').
  { apply (Forall2_fmap book book eq), list_eq_Forall2. by symmetry. }
  clear Hm. induction H as [| p p' ps ps' Hp H IH]; [constructor |].
  apply Forall_cons in Hb as [Hc Hb]. constructor; [| by apply IH].
  unfold book in Hp. injection Hp as Hu Hh. by rewrite <- Hu, <- Hh.
Qed.

Lemma run_balanced pow es s s' k :
  run pow s es = Some s' ->
  balanced k (players s) -> balanced (advances es + k) (players s').
Proof.
  unfold run. revert s k. induction es as [| e es IH]; simpl; intros s k H Hb.
  - by simplify_eq.
  - destruct (step pow s e) as [s1 |] eqn:E; [| done].
    destruct e as [d | c]; simpl in E.
    + replace (S (advances es) + k) with (advances es + S k) by lia.
      apply (IH s1); [done |].
      eapply balanced_settled; [done |]. by eapply processTurn_settled.
    + apply (IH s1); [done |].
      destruct (execute s c) as [[s2 o] |] eqn:Ec; [| done].
      simpl in E. simplify_eq.
      eapply balanced_book; [| done]. by eapply execute_book.
Qed.

End Settlement.

(** C2. A turn that completes settles every player: its profit of the turn
    is its revenue of the turn minus its costs of the turn, and cash,
    cumulative profit and history all take that profit.  In a game that
    starts with every cumulative profit at 0 and every history empty, after
    any sequence of turns and commands every player's history has one entry
    per turn played and its cumulative profit is the sum of these entries. *)
Theorem profit_settlement (pow : Q -> Q -> Q) :
  (forall d s s',
     TurnResolver.processTurn pow d s = Some s' ->
     Forall2 settled_from (GameState.players s) (GameState.players s'))
  /\ (forall s es s',
        Forall (fun p => cumulative_profit p = Fin 0 /\ profit_history p = [])
               (GameState.players s) ->
        TurnResolver.run pow s es = Some s' ->
        Forall (fun p =>
                  length (profit_history p) = advances es
                  /\ cumulative_profit p = total_profit (profit_history p))
               (GameState.players s')).
Proof.
  split.
  - intros d s s'. apply processTurn_settled.
  - intros s es s' Hfresh Hrun.
    assert (Hb : balanced 0 (GameState.players s)).
    { eapply Forall_impl; [apply Hfresh |]. intros p [-> ->]. done. }
    pose proof (run_balanced pow es s s' 0 Hrun Hb) as H.
    rewrite Nat.add_0_r in H.
    eapply Forall_impl; [apply H |]. intros p [? ?]. done.
Qed.

(** In the small world: one turn settles both players, and after two turns
    with a pipeline built in between both histories have two entries that
    add up to the cumulative profits. *)
Lemma profit_settlement_witness :
  Forall2 settled_from (GameState.players Scenario.world)
          (GameState.players Scenario.after_one_turn)
  /\ Forall (fun p =>
               length (profit_history p) = 2%nat
               /\ cumulative_profit p = total_profit (profit_history p))
            (GameState.players Scenario.after_two_turns).
Proof.
  split.
  - apply (proj1 (profit_settlement Scenario.pow_integral) Scenario.calm).
    vm_compute. reflexivity.
  - apply (proj2 (profit_settlement Scenario.pow_integral)
                 Scenario.world Scenario.two_turns).
    + repeat constructor.
    + vm_compute. reflexivity.
Defined.


(** ** Market shares *)

Section MarketShare.

Import GameState TurnResolver.
Local Open Scope Q_scope.

Lemma totalBarrels_map ps ps' :
  map barrels_sold ps' = map barrels_sold ps ->
  totalBarrels ps' = totalBarrels ps.
Proof.
  unfold totalBarrels. intros H.
  assert (G : forall l a, fold_left (fun sum p => sum + barrels_sold p) l a
                          = fold_left Qplus (map barrels_sold l) a).
  { induction l as [| x l IH]; intros a; simpl; [done | apply IH]. }
  by rewrite !G, H.
Qed.

Lemma calculatePlayerProfits_frame ps ps' :
  calculatePlayerProfits ps = Some ps' ->
  map market_share ps' = map market_share ps
  /\ map barrels_sold ps' = map barrels_sold ps.
Proof.
  revert ps'. induction ps as [| p ps IH]; simpl; intros ps' H.
  - by simplify_eq.
  - unfold settle in H.
    destruct (sub (revenue_this_turn p) (costs_this_turn p)); [| done].
    destruct (calculatePlayerProfits ps) as [ps1 |]; [| done].
    simplify_eq. destruct (IH ps1 eq_refl) as [E1 E2]. simpl.
    by rewrite E1, E2.
Qed.

Lemma calculateMarketShare_barrels ps :
  map barrels_sold (calculateMarketShare ps) = map barrels_sold ps.
Proof.
  unfold calculateMarketShare. destruct (Qltb 0 (totalBarrels ps)); [| done].
  rewrite map_map. done.
Qed.

(** What [calculateMarketShare] does, on the list it returns. *)
Lemma calculateMarketShare_spec ps :
  let ps' := calculateMarketShare ps in
  (0 < totalBarrels ps' ->
     Forall (fun p => market_share p
                      = barrels_sold p / totalBarrels ps' * 100) ps')
  /\ (totalBarrels ps' <= 0 -> ps' = ps).
Proof.
  simpl.
  rewrite (totalBarrels_map ps (calculateMarketShare ps))
    by apply calculateMarketShare_barrels.
  unfold calculateMarketShare.
  destruct (Qltb 0 (totalBarrels ps)) eqn:E.
  - apply Qltb_lt in E. split; [intros _ | intros; lra].
    apply Forall_forall. intros p' Hp.
    apply list_elem_of_In, in_map_iff in Hp as (p & <- & _). done.
  - apply Qltb_ge in E. split; [intros; lra | done].
Qed.

End MarketShare.

(** C7, as the code has it. After a turn in which the barrels sold add up to
    a positive total, the market share of every player is the player's
    barrels over that total, times 100, the total being added up in the
    order of the players; when no barrel was sold the shares are those the
    players had before the turn. *)
Theorem market_shares_after_turn (pow : Q -> Q -> Q)
  (d : TurnResolver.Draws) (s s' : GameState.t) :
  TurnResolver.processTurn pow d s = Some s' ->
  let total := TurnResolver.totalBarrels (GameState.players s') in
  ((0 < total)%Q ->
     Forall (fun p => market_share p = (barrels_sold p / total * 100)%Q)
            (GameState.players s'))
  /\ ((total <= 0)%Q ->
      map market_share (GameState.players s')
      = map market_share (GameState.players s)).
Proof.
  intros (routed & settled & E & E4 & ->)%processTurn_phases.
  destruct (calculateMarketShare_spec settled) as [Hpos Hzero].
  split; [exact Hpos |]. intros Ht. rewrite (Hzero Ht).
  apply calculatePlayerProfits_frame in E4 as [-> _].
  change (map market_share routed)
    with (map (fun p => snd (ledger p)) routed).
  change (map market_share (GameState.players s))
    with (map (fun p => snd (ledger p)) (GameState.players s)).
  by rewrite <- !(map_map ledger snd), E.
Qed.

(** In the small world the first turn sells 320 barrels, 160 for each of
    the two players. *)
Lemma market_shares_after_turn_witness :
  (0 < TurnResolver.totalBarrels
         (GameState.players Scenario.after_one_turn))%Q
  /\ Forall (fun p =>
               market_share p
               = (barrels_sold p
                  / TurnResolver.totalBarrels
                      (GameState.players Scenario.after_one_turn)
                  * 100)%Q)
            (GameState.players Scenario.after_one_turn).
Proof.
  split; [vm_compute; reflexivity |].
  assert (H : TurnResolver.processTurn Scenario.pow_integral Scenario.calm
                Scenario.world = Some Scenario.after_one_turn)
    by (vm_compute; reflexivity).
  destruct (market_shares_after_turn Scenario.pow_integral Scenario.calm
              Scenario.world Scenario.after_one_turn H) as [Hsold _].
  apply Hsold. vm_compute. reflexivity.
Defined.

(** C7 as stated fails: in the small world the second turn sells no barrel,
    and both players keep the share of 50 they had after the first turn. *)
Lemma market_share_kept_without_sales :
  TurnResolver.run Scenario.pow_integral Scenario.world Scenario.fee_rise
  = Some Scenario.after_fee_rise
  /\ TurnResolver.processTurn Scenario.pow_integral Scenario.calm
       Scenario.after_fee_rise
     = Some Scenario.after_quiet_turn
  /\ (TurnResolver.totalBarrels
        (GameState.players Scenario.after_quiet_turn) == 0)%Q
  /\ Forall (fun p => (market_share p == 50)%Q)
            (GameState.players Scenario.after_quiet_turn)
  /\ ~ Forall (fun p => (market_share p == 0)%Q)
              (GameState.players Scenario.after_quiet_turn).
Proof.
  split; [vm_compute; reflexivity |].
  split; [vm_compute; reflexivity |].
  split; [vm_compute; reflexivity |].
  split.
  - vm_compute. repeat constructor.
  - intros H. vm_compute in H. apply Forall_cons in H as [H _].
    discriminate.
Qed.

(** On doubles the shares of a turn with sales need not add up to 100: of
    four players who sold 3, 1, 2 and 0 barrels, the shares are 50, a sixth
    and two sixths of 100 as rounded, and 0, and added up in the order of
    the players they stay below 100. *)
Lemma market_shares_rounded_below_100 :
  let ps := Ieee.calculateMarketShare Chain.sellers in
  Binary64.ltb Binary64.zero (Ieee.totalBarrels Chain.sellers) = true
  /\ map Ieee.market_share ps
     = [Binary64.of_Z 50;
        Binary64.mul (Binary64.decimal 1 6) (Binary64.of_Z 100);
        Binary64.mul (Binary64.decimal 2 6) (Binary64.of_Z 100);
        Binary64.zero]
  /\ Binary64.ltb
       (fold_left (fun sum p => Binary64.add sum (Ieee.market_share p)) ps
                  Binary64.zero)
       (Binary64.of_Z 100) = true.
Proof. split; [| split]; vm_compute; reflexivity. Qed.


(** ** The cheapest supply *)

Section Supply.

Import Pathfinder.

Variables (pf : Pathfinder.t) (settings : Settings) (nodes : list Node)
          (demandNodeId : nat).

Local Abbreviation landed_cost := (landed_cost settings).
Local Abbreviation player_route := (player_route pf settings nodes demandNodeId).
Local Abbreviation search_state := (search_state pf settings nodes demandNodeId).

Lemma lt_finite (a b : num) : lt a b -> finite a.
Proof. by destruct a, b. Qed.

Lemma indexed_lookup {A : Type} (l : list A) (i : nat) (x : A) :
  (i, x) ∈ indexed l <-> l !! i = Some x.
Proof.
  unfold indexed. rewrite elem_of_lookup_imap. split.
  - intros (j & y & E & H). by simplify_eq.
  - intros H. by exists i, x.
Qed.

(** One refinery considered for the well at [prodId]. *)
Lemma consider_step prodId prodNode acc refId refNode acc' :
  nodes !! prodId = Some prodNode -> has_well prodNode = true ->
  nodes !! refId = Some refNode ->
  consider pf settings demandNodeId prodId prodNode acc (refId, refNode)
  = Some acc' ->
  search_state acc ->
  search_state acc'
  /\ le (fst acc') (fst acc)
  /\ (forall cost, player_route prodId refId cost -> le (fst acc') cost).
Proof.
  intros Hp Hw Hr H Hs. unfold consider in H.
  destruct (buildings_refinery refNode) as [r |] eqn:Er.
  2: { simplify_eq. split; [done |]. split; [apply le_refl |].
       intros cost (? & ? & ? & ? & ? & ? & ? & ? & ? & ? & ? & ? & ? & ?).
       simplify_eq. }
  destruct (getCost pf prodId refId) as [tr |] eqn:E1; [| done].
  destruct (getCost pf refId demandNodeId) as [td |] eqn:E2; [| done].
  destruct (operating_cost prodNode) as [oc |] eqn:Eo.
  2: { simplify_eq. split; [done |]. split; [apply le_refl |].
       intros cost (? & ? & ? & ? & ? & ? & ? & ? & ? & ? & ? & ? & ? & ?).
       simplify_eq. }
  fold (landed_cost oc tr (ref_fee r) td) in H.
  assert (Hroute : player_route prodId refId (landed_cost oc tr (ref_fee r) td)).
  { by exists prodNode, refNode, r, oc, tr, td. }
  assert (Hall : forall cost, player_route prodId refId cost ->
                              cost = landed_cost oc tr (ref_fee r) td).
  { intros cost (? & ? & ? & ? & ? & ? & ? & ? & ? & ? & ? & ? & ? & ->).
    by simplify_eq. }
  destruct (ltb _ (fst acc)) eqn:E; simplify_eq.
  - apply ltb_lt in E. split; [| split].
    + simpl. exists prodId, refId. split; [done |]. split; [done |].
      by eapply lt_finite.
    + by apply lt_le.
    + intros cost ->%Hall. apply le_refl.
  - apply ltb_ge in E. split; [done |]. split; [apply le_refl |].
    by intros cost ->%Hall.
Qed.

(** A loop of the search: each round keeps the state, does not raise the
    cheapest cost and brings it below the costs [covers] gives the item. *)
Lemma search_loop {A : Type}
  (f : num * option Supply -> A -> option (num * option Supply))
  (covers : A -> num -> Prop) (xs : list A) :
  (forall acc x acc',
     x ∈ xs -> f acc x = Some acc' -> search_state acc ->
     search_state acc' /\ le (fst acc') (fst acc)
     /\ (forall cost, covers x cost -> le (fst acc') cost)) ->
  forall acc acc',
    foldM f xs acc = Some acc' -> search_state acc ->
    search_state acc' /\ le (fst acc') (fst acc)
    /\ (forall x cost, x ∈ xs -> covers x cost -> le (fst acc') cost).
Proof.
  induction xs as [| x xs IH]; intros Hstep acc acc' H Hs; simpl in H.
  - simplify_eq. split; [done |]. split; [apply le_refl |].
    intros x cost Hx. by apply elem_of_nil in Hx.
  - destruct (f acc x) as [acc1 |] eqn:E; [| done].
    destruct (Hstep acc x acc1) as (Hs1 & Hle1 & Hc1);
      [apply list_elem_of_here | done | done |].
    destruct (IH (fun a y a' Hy => Hstep a y a' (list_elem_of_further _ _ _ Hy))
                 acc1 acc' H Hs1) as (Hs' & Hle' & Hc').
    split; [done |]. split; [by eapply le_trans |].
    intros y cost [-> | Hy]%elem_of_cons Hcov.
    + eapply le_trans; [done | by apply Hc1].
    + by eapply Hc'.
Qed.

Lemma consider_well_step acc prodId prodNode acc' :
  nodes !! prodId = Some prodNode ->
  consider_well pf settings demandNodeId nodes acc (prodId, prodNode)
  = Some acc' ->
  search_state acc ->
  search_state acc' /\ le (fst acc') (fst acc)
  /\ (forall cost, (exists refId, player_route prodId refId cost) ->
                   le (fst acc') cost).
Proof.
  intros Hp H Hs. unfold consider_well in H.
  destruct (has_well prodNode) eqn:Hw.
  - assert (Hstep : forall a x a',
              x ∈ indexed nodes ->
              consider pf settings demandNodeId prodId prodNode a x = Some a' ->
              search_state a ->
              search_state a' /\ le (fst a') (fst a)
              /\ (forall cost, player_route prodId (fst x) cost ->
                               le (fst a') cost)).
    { intros a [refId refNode] a' Hx%indexed_lookup Hf Ha.
      by eapply consider_step. }
    destruct (search_loop _ _ _ Hstep acc acc' H Hs) as (Hs' & Hle & Hc).
    split; [done |]. split; [done |]. intros cost [refId Hr].
    pose proof Hr as (? & refNode & ? & ? & ? & ? & ? & ? & Hn & ?).
    apply (Hc (refId, refNode) cost); [by apply indexed_lookup | done].
  - simplify_eq. split; [done |]. split; [apply le_refl |].
    intros cost (refId & pn & rn & r & oc & tr & td & H1 & H2 & _).
    congruence.
Qed.

(** The outcome of the two loops of [findCheapestSupply]. *)
Lemma cheapest_player_route r :
  foldM (consider_well pf settings demandNodeId nodes) (indexed nodes)
        (Infinity, None) = Some r ->
  search_state r
  /\ (forall prodId refId cost,
        player_route prodId refId cost -> le (fst r) cost).
Proof.
  intros H.
  assert (Hstep : forall a x a',
            x ∈ indexed nodes ->
            consider_well pf settings demandNodeId nodes a x = Some a' ->
            search_state a ->
            search_state a' /\ le (fst a') (fst a)
            /\ (forall cost,
                  (exists refId, player_route (fst x) refId cost) ->
                  le (fst a') cost)).
  { intros a [prodId prodNode] a' Hx%indexed_lookup Hf Ha.
    by eapply consider_well_step. }
  destruct (search_loop _ _ _ Hstep (Infinity, None) r H eq_refl)
    as (Hs & _ & Hc).
  split; [done |]. intros prodId refId cost Hr.
  pose proof Hr as (prodNode & ? & ? & ? & ? & ? & Hn & ?).
  apply (Hc (prodId, prodNode) cost); [by apply indexed_lookup |].
  by exists refId.
Qed.

End Supply.

(** The three ways [findCheapestSupply] ends, with the import price [ip] and
    the cheapest landed cost [cc] of a player route. *)
Lemma findCheapestSupply_cases pf demandNodeId globalPrice terminalFee
  settings nodes sr :
  Pathfinder.findCheapestSupply pf demandNodeId globalPrice terminalFee
    settings nodes = Some sr ->
  exists ip cc,
    Pathfinder.calculateLocalPrice pf demandNodeId globalPrice terminalFee
      nodes = Some ip
    /\ (forall prodId refId cost,
          player_route pf settings nodes demandNodeId prodId refId cost ->
          le cc cost)
    /\ ((lt ip cc
         /\ exists terminal,
              Pathfinder.findNearestTerminal pf demandNodeId nodes
              = Some terminal
              /\ sr = Import ip terminal)
        \/ (le cc ip /\ finite cc
            /\ exists prodId refId,
                 sr = PlayerSupply prodId refId demandNodeId cc
                 /\ player_route pf settings nodes demandNodeId
                                 prodId refId cc)
        \/ (cc = Infinity /\ ip = Infinity
            /\ exists terminal,
                 Pathfinder.findNearestTerminal pf demandNodeId nodes
                 = Some terminal
                 /\ sr = Import ip terminal)).
Proof.
  unfold Pathfinder.findCheapestSupply. intros H.
  destruct (Pathfinder.calculateLocalPrice _ _ _ _ _) as [ip |]; [| done].
  destruct (foldM _ _ _) as [[cc cr] |] eqn:E; [| done].
  apply cheapest_player_route in E as [Hs Hc]. simpl in Hc.
  exists ip, cc. split; [done |]. split; [done |].
  destruct (ltb ip cc) eqn:El.
  - apply ltb_lt in El. left. split; [done |].
    destruct (Pathfinder.findNearestTerminal _ _ _) as [t |]; [| done].
    exists t. by simplify_eq.
  - apply ltb_ge in El. unfold search_state in Hs. simpl in Hs.
    destruct cr as [route |].
    + destruct Hs as (prodId & refId & -> & Hr & Hf). simplify_eq.
      right; left. split; [done |]. split; [done |]. by exists prodId, refId.
    + subst cc. right; right. split; [done |].
      split; [by destruct ip |].
      destruct (Pathfinder.findNearestTerminal _ _ _) as [t |]; [| done].
      exists t. by simplify_eq.
Qed.

(** C5. The option [findCheapestSupply] returns never costs more than the
    import price of the demand node ([calculateLocalPrice]: global price plus
    terminal fee plus the transport cost from the nearest terminal).  An
    import is returned at that price; a player route is one from a well
    through a refinery, returned at its landed cost, which is at most the
    import price. *)
Theorem findCheapestSupply_at_most_import
  (pf : Pathfinder.t) (demandNodeId : nat) (globalPrice terminalFee : Q)
  (settings : Settings) (nodes : list Node) (sr : Supply) :
  Pathfinder.findCheapestSupply pf demandNodeId globalPrice terminalFee
    settings nodes = Some sr ->
  exists importPrice,
    Pathfinder.calculateLocalPrice pf demandNodeId globalPrice terminalFee
      nodes = Some importPrice
    /\ le (supply_cost sr) importPrice
    /\ match sr with
       | Import cost terminal =>
           cost = importPrice
           /\ Pathfinder.findNearestTerminal pf demandNodeId nodes
              = Some terminal
       | PlayerSupply prodId refId demand cost =>
           demand = demandNodeId
           /\ player_route pf settings nodes demandNodeId prodId refId cost
       end.
Proof.
  intros (ip & cc & Hip & Hc & H)%findCheapestSupply_cases.
  exists ip. split; [done |].
  destruct H as [(_ & t & Ht & ->) | [(Hle & _ & p & r & -> & Hr)
                                     | (_ & _ & t & Ht & ->)]]; simpl.
  - split; [apply le_refl | done].
  - done.
  - split; [apply le_refl | done].
Qed.

(** C6, as the code has it. [findCheapestSupply] returns a cheapest option:
    its cost is at most the import price and at most the landed cost of
    every player route.  When some player route has a finite landed cost
    that is at most the import price, a tie included, a player route is
    returned; an import is returned when the import price is strictly below
    every landed cost, or when no player route has a finite cost. *)
Theorem findCheapestSupply_cheapest_ties_to_player
  (pf : Pathfinder.t) (demandNodeId : nat) (globalPrice terminalFee : Q)
  (settings : Settings) (nodes : list Node) (sr : Supply)
  (importPrice : num) :
  Pathfinder.findCheapestSupply pf demandNodeId globalPrice terminalFee
    settings nodes = Some sr ->
  Pathfinder.calculateLocalPrice pf demandNodeId globalPrice terminalFee
    nodes = Some importPrice ->
  le (supply_cost sr) importPrice
  /\ (forall prodId refId cost,
        player_route pf settings nodes demandNodeId prodId refId cost ->
        le (supply_cost sr) cost)
  /\ ((exists prodId refId cost,
         player_route pf settings nodes demandNodeId prodId refId cost
         /\ finite cost /\ le cost importPrice) ->
      exists prodId refId cost,
        sr = PlayerSupply prodId refId demandNodeId cost
        /\ player_route pf settings nodes demandNodeId prodId refId cost)
  /\ ((forall prodId refId cost,
         player_route pf settings nodes demandNodeId prodId refId cost ->
         lt importPrice cost \/ cost = Infinity) ->
      exists terminal, sr = Import importPrice terminal).
Proof.
  intros (ip & cc & Hip & Hc & H)%findCheapestSupply_cases Hip'.
  rewrite Hip in Hip'. injection Hip' as ->.
  destruct H as [(Hlt & t & Ht & ->) | [(Hle & Hf & p & r & -> & Hr)
                                       | (-> & -> & t & Ht & ->)]]; simpl.
  - split; [apply le_refl |]. split; [| split].
    + intros p r c Hr. eapply le_trans; [by apply lt_le | by eapply Hc].
    + intros (p & r & c & Hr & _ & Hle). exfalso.
      apply (lt_irrefl importPrice). eapply lt_le_trans; [done |].
      eapply le_trans; [by eapply Hc | done].
    + intros _. by exists t.
  - split; [done |]. split; [done |]. split.
    + intros _. by exists p, r, cc.
    + intros Hall. exfalso. destruct (Hall p r cc Hr) as [Hlt | ->].
      * apply (lt_irrefl importPrice). by eapply lt_le_trans.
      * done.
  - split; [done |]. split; [| split].
    + intros p r c Hr. apply Hc in Hr. by destruct c.
    + intros (p & r & c & Hr & Hf & _). apply Hc in Hr. by destruct c.
    + intros _. by exists t.
Qed.

(** C6 as stated fails: with a global price of 23 the import price of node 2
    of the small world is 31, the landed cost of the player route through
    the well and the refinery is 31 as well, and the player route is
    returned. *)
Lemma findCheapestSupply_tie_returns_player_route :
  Pathfinder.calculateLocalPrice Scenario.world_pathfinder 2 23 5
    Scenario.world_nodes = Some (Fin 31)
  /\ Pathfinder.findCheapestSupply Scenario.world_pathfinder 2 23 5
       Scenario.world_settings Scenario.world_nodes
     = Some (PlayerSupply 0 1 2 (Fin 31)).
Proof. split; vm_compute; reflexivity. Qed.


(** ** The tables of the pathfinder *)

Section Tables.

Import Pathfinder.

Lemma square_replicate {A : Type} (n : nat) (x : A) :
  square n (replicate n (replicate n x)).
Proof.
  split; [apply length_replicate |].
  apply Forall_replicate, length_replicate.
Qed.

Lemma mset_square {A : Type} (n : nat) (m : list (list A)) i j v :
  square n m -> square n (mset m i j v).
Proof.
  intros [Hl Hr]. split; unfold mset.
  - by rewrite length_alter.
  - apply Forall_alter; [done |]. intros row _ H. by rewrite length_insert.
Qed.

Lemma square_row {A : Type} (n : nat) (m : list (list A)) i :
  square n m -> (i < n)%nat ->
  exists row, m !! i = Some row /\ length row = n.
Proof.
  intros [Hl Hr] Hi.
  destruct (lookup_lt_is_Some_2 m i) as [row Hrow]; [lia |].
  exists row. split; [done |].
  by apply (Forall_lookup_1 (fun row => length row = n) m i row).
Qed.

(** A cell of a square table exists. *)
Lemma square_cell {A : Type} (n : nat) (m : list (list A)) (d : A) i j :
  square n m -> (i < n)%nat -> (j < n)%nat ->
  (m !! i ≫= fun row => row !! j) = Some (cell d m i j).
Proof.
  intros Hm Hi Hj. unfold cell.
  destruct (square_row n m i Hm Hi) as (row & -> & Hlen). simpl.
  destruct (lookup_lt_is_Some_2 row j) as [x ->]; [lia | done].
Qed.

(** Reading a table after a write. *)
Lemma cell_mset {A : Type} (n : nat) (m : list (list A)) (d : A) i j v a b :
  square n m -> (i < n)%nat -> (j < n)%nat ->
  cell d (mset m i j v) a b
  = if decide (i = a /\ j = b) then v else cell d m a b.
Proof.
  intros Hm Hi Hj. unfold cell, mset. rewrite list_lookup_alter.
  destruct (square_row n m i Hm Hi) as (row & Hrow & Hlen).
  destruct (decide (i = a)) as [<- |].
  - rewrite Hrow. simpl. rewrite list_lookup_insert.
    destruct (decide (j = b)) as [<- |].
    + rewrite !decide_True by (split; [done | lia]). done.
    + rewrite !decide_False by (intros [? ?]; done). done.
  - rewrite decide_False by (intros [? ?]; done). done.
Qed.

Lemma cell_mset_eq {A : Type} (n : nat) (m : list (list A)) (d : A) i j v :
  square n m -> (i < n)%nat -> (j < n)%nat -> cell d (mset m i j v) i j = v.
Proof.
  intros. erewrite cell_mset by done. by rewrite decide_True.
Qed.

Lemma cell_mset_ne {A : Type} (n : nat) (m : list (list A)) (d : A)
  i j v a b :
  square n m -> (i < n)%nat -> (j < n)%nat -> (i, j) <> (a, b) ->
  cell d (mset m i j v) a b = cell d m a b.
Proof.
  intros ? ? ? Hne. erewrite cell_mset by done.
  rewrite decide_False; [done |]. intros [-> ->]. done.
Qed.

(** A loop over [0 .. n-1], with an invariant that follows the counter. *)
Lemma fold_seq_invariant {A : Type} (P : nat -> A -> Prop)
  (f : A -> nat -> A) (n : nat) (a : A) :
  P 0%nat a ->
  (forall m a, (m < n)%nat -> P m a -> P (S m) (f a m)) ->
  P n (fold_left f (seq 0 n) a).
Proof.
  intros H0 Hstep. induction n as [| n IH].
  - done.
  - rewrite seq_S, fold_left_app. simpl. apply Hstep; [lia |].
    apply IH. intros m b Hm. apply Hstep. lia.
Qed.

Lemma fold_left_project {A B C : Type} (proj : A -> B)
  (f : A -> C -> A) (g : B -> C -> B) (l : list C) (a : A) :
  (forall a x, proj (f a x) = g (proj a) x) ->
  proj (fold_left f l a) = fold_left g l (proj a).
Proof.
  intros H. revert a. induction l as [| x l IH]; intros a; simpl; [done |].
  by rewrite IH, H.
Qed.

Lemma dist_relax k i j pf : dist (relax k i j pf) = relax_dist k i j (dist pf).
Proof. unfold relax, relax_dist. by destruct (ltb _ _). Qed.

Lemma dist_floydWarshall n pf :
  dist (floydWarshall n pf) = floydWarshall_dist n (dist pf).
Proof.
  unfold floydWarshall, floydWarshall_dist, round_dist.
  apply fold_left_project. intros a k.
  apply fold_left_project. intros b i.
  apply fold_left_project. intros c j. apply dist_relax.
Qed.

End Tables.

(** ** One round of the triple loop *)

Section Round.

Import Pathfinder.

Variables (n k : nat) (D : list (list num)).
Hypothesis HD : square n D.
Hypothesis Hk : (k < n)%nat.
Hypothesis Hkk : cell Infinity D k k = Fin 0.

Local Abbreviation midway := (midway n k D).

Lemma ltb_add_zero_r (x : num) : ltb (add x (Fin 0)) x = false.
Proof. apply ltb_ge. destruct x; simpl; [lra | done]. Qed.

Lemma ltb_add_zero_l (x : num) : ltb (add (Fin 0) x) x = false.
Proof. apply ltb_ge. destruct x; simpl; [lra | done]. Qed.

(** The round leaves column [k] and row [k] as they are. *)
Lemma relaxed_column i : relaxed D k i k = cell Infinity D i k.
Proof. unfold relaxed. by rewrite Hkk, ltb_add_zero_r. Qed.

Lemma relaxed_row j : relaxed D k k j = cell Infinity D k j.
Proof. unfold relaxed. by rewrite Hkk, ltb_add_zero_l. Qed.

Lemma midway_column i m d a :
  midway i m d -> (a < n)%nat -> cell Infinity d a k = cell Infinity D a k.
Proof.
  intros [_ H] Ha. rewrite (H a k Ha Hk).
  destruct (decide _); [apply relaxed_column | done].
Qed.

Lemma midway_row i m d b :
  midway i m d -> (b < n)%nat -> cell Infinity d k b = cell Infinity D k b.
Proof.
  intros [_ H] Hb. rewrite (H k b Hk Hb).
  destruct (decide _); [apply relaxed_row | done].
Qed.

Lemma midway_step i m d :
  (i < n)%nat -> (m < n)%nat ->
  midway i m d -> midway i (S m) (relax_dist k i m d).
Proof.
  intros Hi Hm Hd. pose proof Hd as [Hsq Hcells].
  assert (Him : cell Infinity d i m = cell Infinity D i m).
  { rewrite (Hcells i m Hi Hm). rewrite decide_False; [done |].
    intros [? | [_ ?]]; lia. }
  assert (Hnew : cell Infinity (relax_dist k i m d) i m = relaxed D k i m).
  { unfold relax_dist, relaxed.
    rewrite (midway_column i m d i Hd Hi), (midway_row i m d m Hd Hm), Him.
    destruct (ltb _ _); [by erewrite cell_mset_eq | done]. }
  assert (Hold : forall a b, (i, m) <> (a, b) ->
            cell Infinity (relax_dist k i m d) a b = cell Infinity d a b).
  { intros a b Hne. unfold relax_dist.
    destruct (ltb _ _); [by erewrite cell_mset_ne | done]. }
  split.
  - unfold relax_dist. destruct (ltb _ _); [by apply mset_square | done].
  - intros a b Ha Hb. destruct (decide ((i, m) = (a, b))) as [E | Hne].
    + injection E as <- <-. rewrite Hnew, decide_True; [done |].
      right. split; [done | lia].
    + rewrite (Hold a b Hne), (Hcells a b Ha Hb).
      destruct (decide ((a < i)%nat \/ (a = i /\ (b < m)%nat)))
        as [Hc | Hc].
      * rewrite decide_True; [done |].
        destruct Hc as [? | [? ?]]; [by left | right; split; [done | lia]].
      * rewrite decide_False; [done |].
        intros [? | [-> ?]]; [apply Hc; by left |].
        destruct (decide (b = m)) as [-> | ?]; [done |].
        apply Hc. right. split; [done | lia].
Qed.

Lemma midway_next_row i d : midway i n d -> midway (S i) 0 d.
Proof.
  intros [Hsq H]. split; [done |]. intros a b Ha Hb. rewrite (H a b Ha Hb).
  destruct (decide ((a < i)%nat \/ (a = i /\ (b < n)%nat))) as [Hc | Hc].
  - rewrite decide_True; [done |]. left. destruct Hc as [? | [? ?]]; lia.
  - rewrite decide_False; [done |]. intros [? | [_ ?]]; [| lia].
    apply Hc. destruct (decide (a = i)); [right | left]; [done | lia].
Qed.

(** The round relaxes every cell against the table it starts with, although
    it updates that table in place. *)
Lemma round_dist_spec :
  square n (round_dist n k D)
  /\ forall i j, (i < n)%nat -> (j < n)%nat ->
       cell Infinity (round_dist n k D) i j = relaxed D k i j.
Proof.
  assert (H : midway n 0 (round_dist n k D)).
  { unfold round_dist.
    apply (fold_seq_invariant (fun i d => midway i 0 d)).
    - split; [done |]. intros a b _ _. rewrite decide_False; [done |].
      intros [? | [_ ?]]; lia.
    - intros i d Hi Hd. apply midway_next_row.
      apply (fold_seq_invariant (fun m d => midway i m d)); [done |].
      intros m d' Hm. by apply midway_step. }
  destruct H as [Hsq H]. split; [done |]. intros i j Hi Hj.
  rewrite (H i j Hi Hj), decide_True; [done | by left].
Qed.

End Round.

(** ** The distances after all rounds *)

Section Metric.

Import Pathfinder.

Ltac num_cases :=
  unfold nonneg in *;
  repeat match goal with x : num |- _ => destruct x end;
  simpl in *; try done; try lra.

Lemma relaxed_le_old D k i j : le (relaxed D k i j) (cell Infinity D i j).
Proof.
  unfold relaxed. destruct (ltb _ _) eqn:E; [| apply le_refl].
  by apply lt_le, ltb_lt.
Qed.

Lemma relaxed_le_through D k i j :
  le (relaxed D k i j) (add (cell Infinity D i k) (cell Infinity D k j)).
Proof.
  unfold relaxed. destruct (ltb _ _) eqn:E; [apply le_refl |].
  by apply ltb_ge.
Qed.

Lemma relaxed_cases D k i j :
  relaxed D k i j = cell Infinity D i j
  \/ relaxed D k i j = add (cell Infinity D i k) (cell Infinity D k j).
Proof. unfold relaxed. destruct (ltb _ _); auto. Qed.

(** The triangle through [m] after a round through [K], from the triangles
    through [m] before it. *)
Lemma triangle_through (xij xiK xKj xim xmj xKm xmK r rim rmj : num) :
  nonneg xKm -> nonneg xmK ->
  le r xij -> le r (add xiK xKj) ->
  rim = xim \/ rim = add xiK xKm ->
  rmj = xmj \/ rmj = add xmK xKj ->
  le xij (add xim xmj) ->
  le xiK (add xim xmK) ->
  le xKj (add xKm xmj) ->
  le r (add rim rmj).
Proof.
  intros H1 H2 H3 H4 [-> | ->] [-> | ->] H5 H6 H7; num_cases.
Qed.

Lemma metric_round n K D :
  (K < n)%nat -> metric_upto n K D -> metric_upto n (S K) (round_dist n K D).
Proof.
  intros HK (Hsq & Hpos & Hdiag & Hsym & Htri).
  destruct (round_dist_spec n K D Hsq HK (Hdiag K HK)) as [Hsq' Hcell].
  split; [done |]. split; [| split; [| split]].
  - intros i j Hi Hj. rewrite (Hcell i j Hi Hj).
    destruct (relaxed_cases D K i j) as [-> | ->]; [by apply Hpos |].
    apply add_nonneg; by apply Hpos.
  - intros i Hi. rewrite (Hcell i i Hi Hi). unfold relaxed.
    rewrite (Hdiag i Hi). destruct (ltb _ _) eqn:E; [| done].
    apply ltb_lt in E. exfalso.
    pose proof (add_nonneg _ _ (Hpos i K Hi HK) (Hpos K i HK Hi)) as Hn.
    revert E Hn. generalize (add (cell Infinity D i K) (cell Infinity D K i)).
    intros x. num_cases.
  - intros i j Hi Hj. rewrite (Hcell i j Hi Hj), (Hcell j i Hj Hi).
    unfold relaxed.
    rewrite (Hsym j i Hj Hi), (Hsym j K Hj HK), (Hsym K i HK Hi).
    by rewrite (add_comm (cell Infinity D K j)).
  - intros i j m Hi Hj Hm HmK.
    rewrite (Hcell i j Hi Hj), (Hcell i m Hi Hm), (Hcell m j Hm Hj).
    destruct (decide (m = K)) as [-> | Hne].
    + rewrite relaxed_column by (by apply Hdiag).
      rewrite relaxed_row by (by apply Hdiag).
      apply relaxed_le_through.
    + assert (Hlt : (m < K)%nat) by lia.
      eapply (triangle_through
                (cell Infinity D i j) (cell Infinity D i K)
                (cell Infinity D K j) (cell Infinity D i m)
                (cell Infinity D m j) (cell Infinity D K m)
                (cell Infinity D m K)).
      * by apply Hpos.
      * by apply Hpos.
      * apply relaxed_le_old.
      * apply relaxed_le_through.
      * apply relaxed_cases.
      * apply relaxed_cases.
      * by apply Htri.
      * by apply Htri.
      * by apply Htri.
Qed.

Lemma metric_floydWarshall n d :
  metric_upto n 0 d -> metric_upto n n (floydWarshall_dist n d).
Proof.
  intros H. unfold floydWarshall_dist.
  apply (fold_seq_invariant (fun K d => metric_upto n K d)); [done |].
  intros K d' HK. by apply metric_round.
Qed.

End Metric.

(** ** The table the rounds start with *)

Section Seed.

Import Pathfinder.

Lemma dist_init_edge pf e :
  dist <$> init_edge pf e = init_edge_dist (dist pf) e.
Proof.
  unfold init_edge, init_edge_dist.
  destruct (dist pf !! node_a e) as [row |]; [| done].
  destruct (row !! node_b e) as [x |]; [| done].
  by destruct (ltb _ x).
Qed.

Lemma foldM_project {A B C : Type} (proj : A -> B)
  (f : A -> C -> option A) (g : B -> C -> option B) (l : list C) (a : A) :
  (forall a x, proj <$> f a x = g (proj a) x) ->
  proj <$> foldM f l a = foldM g l (proj a).
Proof.
  intros H. revert a. induction l as [| x l IH]; intros a; simpl; [done |].
  rewrite <- H. destruct (f a x) as [a' |]; simpl; [apply IH | done].
Qed.

Lemma dist_computeAllPaths nodes edges :
  dist <$> computeAllPaths nodes edges
  = floydWarshall_dist (length nodes)
      <$> foldM init_edge_dist edges (seed_self (length nodes)).
Proof.
  unfold computeAllPaths. set (n := length nodes).
  set (pf1 := fold_left init_self (seq 0 n) _).
  assert (E : dist pf1 = seed_self n).
  { unfold seed_self, pf1.
    by rewrite (fold_left_project dist init_self
                  (fun d i => mset d i i (Fin 0))). }
  rewrite <- E.
  rewrite <- (foldM_project dist init_edge init_edge_dist edges pf1)
    by apply dist_init_edge.
  destruct (foldM init_edge edges pf1) as [pf |]; simpl; [| done].
  by rewrite dist_floydWarshall.
Qed.

Lemma seed_self_spec n :
  square n (seed_self n)
  /\ forall a b, (a < n)%nat -> (b < n)%nat ->
       cell Infinity (seed_self n) a b
       = if decide (a = b) then Fin 0 else Infinity.
Proof.
  set (P := fun (m : nat) (d : list (list num)) =>
              square n d
              /\ forall a b, (a < n)%nat -> (b < n)%nat ->
                   cell Infinity d a b
                   = if decide (a = b /\ (a < m)%nat) then Fin 0
                     else Infinity).
  assert (H : P n (seed_self n)).
  { unfold seed_self. apply fold_seq_invariant; unfold P.
    - split; [apply square_replicate |]. intros a b Ha Hb.
      rewrite decide_False by lia.
      unfold cell. rewrite lookup_replicate_2 by done. simpl.
      by rewrite lookup_replicate_2.
    - intros m d Hm [Hsq H]. split; [by apply mset_square |].
      intros a b Ha Hb. erewrite cell_mset by done. rewrite (H a b Ha Hb).
      destruct (decide (m = a /\ m = b)) as [[-> ->] | Hne].
      + rewrite decide_True; [done | lia].
      + destruct (decide (a = b /\ (a < m)%nat)) as [[-> ?] | Hc].
        * rewrite decide_True; [done | lia].
        * rewrite decide_False; [done |]. intros [-> ?]. apply Hc.
          split; [done |]. destruct (decide (b = m)) as [-> |]; [| lia].
          by destruct Hne. }
  destruct H as [Hsq H]. split; [done |]. intros a b Ha Hb.
  rewrite (H a b Ha Hb).
  destruct (decide (a = b)) as [-> |].
  - by rewrite decide_True.
  - rewrite decide_False; [done |]. by intros [? _].
Qed.

Lemma metric_seed_self n : metric_upto n 0 (seed_self n).
Proof.
  destruct (seed_self_spec n) as [Hsq H].
  split; [done |]. split; [| split; [| split]].
  - intros i j Hi Hj. rewrite (H i j Hi Hj). unfold nonneg.
    destruct (decide _); simpl; [lra | done].
  - intros i Hi. rewrite (H i i Hi Hi). by rewrite decide_True.
  - intros i j Hi Hj. rewrite (H i j Hi Hj), (H j i Hj Hi).
    destruct (decide (i = j)) as [-> |].
    + by rewrite decide_True.
    + by rewrite decide_False.
  - intros i j m _ _ _ Hm. lia.
Qed.

(** A cell read through the two lookups. *)
Lemma lookup_cell {A : Type} (m : list (list A)) (d : A) i j row x :
  m !! i = Some row -> row !! j = Some x -> cell d m i j = x.
Proof. intros Hi Hj. unfold cell. by rewrite Hi; simpl; rewrite Hj. Qed.

Lemma metric_init_edge n d e d' :
  (0 <= getEdgeCost e)%Q ->
  metric_upto n 0 d -> init_edge_dist d e = Some d' -> metric_upto n 0 d'.
Proof.
  intros Hcost Hd H. pose proof Hd as (Hsq & Hpos & Hdiag & Hsym & _).
  unfold init_edge_dist in H.
  destruct (d !! node_a e) as [row |] eqn:Ea; [| done].
  destruct (row !! node_b e) as [x |] eqn:Eb; [| by simplify_eq].
  destruct (ltb _ x) eqn:El; [| by simplify_eq]. simplify_eq.
  apply ltb_lt in El.
  assert (Ha : (node_a e < n)%nat).
  { destruct Hsq as [<- _]. by eapply lookup_lt_Some. }
  assert (Hb : (node_b e < n)%nat).
  { destruct Hsq as [_ Hrows].
    rewrite <- (Forall_lookup_1 (fun row => length row = n) d _ row Hrows Ea).
    by eapply lookup_lt_Some. }
  rewrite <- (lookup_cell d Infinity _ _ row x Ea Eb) in El.
  set (a := node_a e) in *. set (b := node_b e) in *.
  set (c := Fin (getEdgeCost e)) in *.
  assert (Hsq1 : square n (mset d a b c)) by by apply mset_square.
  assert (Hcell : forall i j, (i < n)%nat -> (j < n)%nat ->
            cell Infinity (mset (mset d a b c) b a c) i j
            = if decide ((a = i /\ b = j) \/ (b = i /\ a = j)) then c
              else cell Infinity d i j).
  { intros i j Hi Hj. erewrite !cell_mset by done.
    destruct (decide (b = i /\ a = j)) as [? | ?].
    - rewrite decide_True; [done | by right].
    - destruct (decide (a = i /\ b = j)) as [? | ?].
      + rewrite decide_True; [done | by left].
      + rewrite decide_False; [done |]. by intros [? | ?]. }
  split; [by apply mset_square |]. split; [| split; [| split]].
  - intros i j Hi Hj. rewrite (Hcell i j Hi Hj).
    destruct (decide _); [exact Hcost | by apply Hpos].
  - intros i Hi. rewrite (Hcell i i Hi Hi).
    destruct (decide _) as [Hc | _]; [| by apply Hdiag].
    assert (E : a = b) by (destruct Hc as [[-> ->] | [-> ->]]; done).
    rewrite <- E, (Hdiag a Ha) in El. simpl in El. lra.
  - intros i j Hi Hj. rewrite (Hcell i j Hi Hj), (Hcell j i Hj Hi).
    destruct (decide ((a = i /\ b = j) \/ (b = i /\ a = j))) as [Hc | Hc].
    + rewrite decide_True; [done |].
      destruct Hc as [[? ?] | [? ?]]; [right | left]; done.
    + rewrite decide_False; [by apply Hsym |].
      intros [[? ?] | [? ?]]; apply Hc; [right | left]; done.
  - intros i j m _ _ _ Hm. lia.
Qed.

Lemma metric_init_edges n edges d d' :
  Forall (fun e => (0 <= getEdgeCost e)%Q) edges ->
  metric_upto n 0 d -> foldM init_edge_dist edges d = Some d' ->
  metric_upto n 0 d'.
Proof.
  intros Hcost. revert d. induction Hcost as [| e edges He Hes IH];
    intros d Hd H; simpl in H.
  - by simplify_eq.
  - destruct (init_edge_dist d e) as [d1 |] eqn:E; [| done].
    apply (IH d1); [| done]. by eapply metric_init_edge.
Qed.

(** The distance table of the rebuilt pathfinder. *)
Lemma metric_computeAllPaths nodes edges pf :
  Forall (fun e => (0 <= getEdgeCost e)%Q) edges ->
  computeAllPaths nodes edges = Some pf ->
  metric_upto (length nodes) (length nodes) (dist pf).
Proof.
  intros Hcost H.
  pose proof (dist_computeAllPaths nodes edges) as E. rewrite H in E.
  simpl in E.
  destruct (foldM init_edge_dist edges _) as [d |] eqn:Ed; [| done].
  simpl in E. injection E as ->. apply metric_floydWarshall.
  eapply metric_init_edges; [done | apply metric_seed_self | done].
Qed.

End Seed.

Section Rebuild.

Import Pathfinder.

Lemma init_edge_dist_total n d e :
  square n d -> (node_a e < n)%nat ->
  exists d', init_edge_dist d e = Some d' /\ square n d'.
Proof.
  intros Hsq Ha. unfold init_edge_dist.
  destruct (square_row n d (node_a e) Hsq Ha) as (row & -> & _).
  destruct (row !! node_b e) as [x |]; [| by exists d].
  destruct (ltb _ x); [| by exists d].
  eexists. split; [done |]. by do 2 apply mset_square.
Qed.

Lemma init_edges_dist_total n edges d :
  square n d -> Forall (fun e => (node_a e < n)%nat) edges ->
  exists d', foldM init_edge_dist edges d = Some d' /\ square n d'.
Proof.
  intros Hsq Hin. revert d Hsq.
  induction Hin as [| e edges He Hes IH]; intros d Hsq; simpl.
  - by exists d.
  - destruct (init_edge_dist_total n d e Hsq He) as (d1 & -> & Hsq1).
    by apply IH.
Qed.

(** The rebuild ends without an error on a graph whose edges start at nodes
    of the graph. *)
Lemma computeAllPaths_total nodes edges :
  Forall (fun e => (node_a e < length nodes)%nat) edges ->
  is_Some (computeAllPaths nodes edges).
Proof.
  intros Hin.
  destruct (init_edges_dist_total (length nodes) edges
              (seed_self (length nodes)))
    as (d & Hd & _); [apply seed_self_spec | done |].
  pose proof (dist_computeAllPaths nodes edges) as E. rewrite Hd in E.
  destruct (computeAllPaths nodes edges) as [pf |]; [by eexists | done].
Qed.

(** An edge whose declared costs are not negative has a cost that is not
    negative. *)
Lemma getEdgeCost_nonneg e :
  (0 <= truck_cost e)%Q -> (0 <= rail_cost e)%Q ->
  (0 <= pipe_fee (pipeline e))%Q ->
  (0 <= getEdgeCost e)%Q.
Proof.
  intros Ht Hr Hp. unfold getEdgeCost.
  assert (H1 : (0 <= if rail_available e
                     then Qmin2 (truck_cost e) (rail_cost e)
                     else truck_cost e)%Q).
  { destruct (rail_available e); [by apply Qmin2_glb | done]. }
  destruct (pipe_owner (pipeline e)); [by apply Qmin2_glb | done].
Qed.

(** [getCost] on a square table. *)
Lemma getCost_cell n pf i j :
  square n (dist pf) -> (i < n)%nat -> (j < n)%nat ->
  getCost pf i j = Some (cell Infinity (dist pf) i j).
Proof. intros. unfold getCost. by eapply square_cell. Qed.

End Rebuild.

(** With sums that are exact, the distance table of the rebuilt pathfinder
    is a metric on a graph whose edge costs are not negative: for all nodes
    [i], [j] and [k] it has cost 0 from [i] to [i], the same cost from [i]
    to [j] as from [j] to [i], and a cost from [i] to [k] that is at most
    the cost from [i] to [j] plus the cost from [j] to [k], where
    [Infinity] stands for no path. *)
Lemma computeAllPaths_exact_metric (nodes : list Node) (edges : list Edge) :
  Forall (fun e => (0 <= Pathfinder.getEdgeCost e)%Q) edges ->
  (Forall (fun e => (node_a e < length nodes)%nat) edges ->
   is_Some (Pathfinder.computeAllPaths nodes edges))
  /\ forall pf,
       Pathfinder.computeAllPaths nodes edges = Some pf ->
       forall i j k,
         (i < length nodes)%nat -> (j < length nodes)%nat ->
         (k < length nodes)%nat ->
         exists cij cjk cik,
           Pathfinder.getCost pf i i = Some (Fin 0)
           /\ Pathfinder.getCost pf i j = Some cij
           /\ Pathfinder.getCost pf j i = Some cij
           /\ Pathfinder.getCost pf j k = Some cjk
           /\ Pathfinder.getCost pf i k = Some cik
           /\ le cik (add cij cjk).
Proof.
  intros Hcost. split; [apply computeAllPaths_total |].
  intros pf Hpf i j k Hi Hj Hk.
  destruct (metric_computeAllPaths nodes edges pf Hcost Hpf)
    as (Hsq & _ & Hdiag & Hsym & Htri).
  exists (Pathfinder.cell Infinity (Pathfinder.dist pf) i j),
         (Pathfinder.cell Infinity (Pathfinder.dist pf) j k),
         (Pathfinder.cell Infinity (Pathfinder.dist pf) i k).
  rewrite !(getCost_cell (length nodes)) by done.
  rewrite (Hdiag i Hi), (Hsym j i Hj Hi).
  repeat split. by apply Htri.
Qed.


(** ** Cheaper edges give cheaper paths *)

Section Monotone.

Import Pathfinder.

Lemma relax_dist_square n k i j d :
  square n d -> square n (relax_dist k i j d).
Proof.
  intros H. unfold relax_dist. destruct (ltb _ _); [by apply mset_square | done].
Qed.

Lemma relax_dist_cell n k i j d a b :
  square n d -> (i < n)%nat -> (j < n)%nat ->
  cell Infinity (relax_dist k i j d) a b
  = if decide (i = a /\ j = b) then relaxed d k i j
    else cell Infinity d a b.
Proof.
  intros Hsq Hi Hj. unfold relax_dist, relaxed.
  destruct (ltb _ _) eqn:E.
  - by erewrite cell_mset.
  - destruct (decide _) as [[<- <-] |]; done.
Qed.

Lemma relaxed_mono n d' d k i j :
  below n d' d -> (k < n)%nat -> (i < n)%nat -> (j < n)%nat ->
  le (relaxed d' k i j) (relaxed d k i j).
Proof.
  intros (_ & _ & H) Hk Hi Hj. unfold relaxed.
  pose proof (H i k Hi Hk) as H1. pose proof (H k j Hk Hj) as H2.
  pose proof (H i j Hi Hj) as H3.
  pose proof (add_mono _ _ _ _ H1 H2) as H4.
  revert H3 H4.
  generalize (add (cell Infinity d' i k) (cell Infinity d' k j)).
  generalize (add (cell Infinity d i k) (cell Infinity d k j)).
  generalize (cell Infinity d' i j). generalize (cell Infinity d i j).
  intros x x' t t' Hx Ht.
  destruct (ltb t' x') eqn:E'; destruct (ltb t x) eqn:E;
    try apply ltb_lt in E'; try apply ltb_ge in E';
    try apply ltb_lt in E; try apply ltb_ge in E.
  - done.
  - apply lt_le. by eapply lt_le_trans.
  - by eapply le_trans.
  - done.
Qed.

Lemma relax_dist_mono n k i j d' d :
  (k < n)%nat -> (i < n)%nat -> (j < n)%nat ->
  below n d' d -> below n (relax_dist k i j d') (relax_dist k i j d).
Proof.
  intros Hk Hi Hj Hb. pose proof Hb as (Hsq' & Hsq & H).
  split; [by apply relax_dist_square |].
  split; [by apply relax_dist_square |].
  intros a b Ha Hb'. rewrite !(relax_dist_cell n) by done.
  destruct (decide _); [by apply (relaxed_mono n) | by apply H].
Qed.

Lemma fold_seq_related {A : Type} (R : A -> A -> Prop) (f : A -> nat -> A)
  (n : nat) (a b : A) :
  (forall a b m, (m < n)%nat -> R a b -> R (f a m) (f b m)) ->
  R a b -> R (fold_left f (seq 0 n) a) (fold_left f (seq 0 n) b).
Proof.
  intros Hf Hab. induction n as [| n IH]; [done |].
  rewrite seq_S, !fold_left_app. simpl. apply Hf; [lia |].
  apply IH. intros a' b' m Hm. apply Hf. lia.
Qed.

Lemma floydWarshall_dist_mono n d' d :
  below n d' d -> below n (floydWarshall_dist n d') (floydWarshall_dist n d).
Proof.
  unfold floydWarshall_dist, round_dist.
  apply (fold_seq_related (below n)). intros a b k Hk.
  apply (fold_seq_related (below n)). intros a1 b1 i Hi.
  apply (fold_seq_related (below n)). intros a2 b2 j Hj.
  by apply relax_dist_mono.
Qed.

(** The two writes of [init_edge]. *)
Lemma cell_mset_both n d a b c i j :
  square n d -> (a < n)%nat -> (b < n)%nat ->
  cell Infinity (mset (mset d a b c) b a c) i j
  = if decide ((a = i /\ b = j) \/ (b = i /\ a = j)) then c
    else cell Infinity d i j.
Proof.
  intros Hsq Ha Hb.
  assert (Hsq1 : square n (mset d a b c)) by by apply mset_square.
  erewrite !cell_mset by done.
  destruct (decide (b = i /\ a = j)) as [? | ?].
  - rewrite decide_True; [done | by right].
  - destruct (decide (a = i /\ b = j)) as [? | ?].
    + rewrite decide_True; [done | by left].
    + rewrite decide_False; [done |]. by intros [? | ?].
Qed.

(** What [init_edge] does to the distance table, when it does not fail:
    both cells of the edge take its cost if that is below the cell
    [(node_a, node_b)]. *)
Lemma init_edge_dist_spec n d e d1 :
  square n d -> init_edge_dist d e = Some d1 ->
  square n d1
  /\ (node_a e < n)%nat
  /\ ((node_b e < n)%nat ->
      forall i j, (i < n)%nat -> (j < n)%nat ->
        cell Infinity d1 i j
        = if decide ((node_a e = i /\ node_b e = j)
                     \/ (node_b e = i /\ node_a e = j))
          then if ltb (Fin (getEdgeCost e))
                      (cell Infinity d (node_a e) (node_b e))
               then Fin (getEdgeCost e) else cell Infinity d i j
          else cell Infinity d i j)
  /\ ((n <= node_b e)%nat -> d1 = d).
Proof.
  intros Hsq H. unfold init_edge_dist in H.
  destruct (d !! node_a e) as [row |] eqn:Ea; [| done].
  assert (Ha : (node_a e < n)%nat).
  { destruct Hsq as [<- _]. by eapply lookup_lt_Some. }
  assert (Hrow : length row = n).
  { destruct Hsq as [_ Hrows].
    exact (Forall_lookup_1 (fun row => length row = n) d (node_a e) row
             Hrows Ea). }
  destruct (row !! node_b e) as [x |] eqn:Eb.
  - assert (Hb : (node_b e < n)%nat).
    { rewrite <- Hrow. by eapply lookup_lt_Some. }
    rewrite (lookup_cell d Infinity _ _ row x Ea Eb).
    destruct (ltb _ x) eqn:El; simplify_eq.
    + split; [by do 2 apply mset_square |]. split; [done |].
      split; [| lia]. intros _ i j Hi Hj.
      erewrite cell_mset_both by done. by destruct (decide _).
    + split; [done |]. split; [done |]. split; [| done].
      intros _ i j Hi Hj. by destruct (decide _).
  - simplify_eq. split; [done |]. split; [done |]. split; [| done].
    intros Hb. apply lookup_ge_None in Eb. lia.
Qed.

Lemma init_edge_dist_symmetric n d e d1 :
  square n d -> symmetric_table n d -> init_edge_dist d e = Some d1 ->
  symmetric_table n d1.
Proof.
  intros Hsq Hsym H.
  destruct (init_edge_dist_spec n d e d1 Hsq H) as (_ & Ha & Hin & Hout).
  destruct (decide (node_b e < n)%nat) as [Hb | Hb].
  - intros i j Hi Hj.
    rewrite (Hin Hb i j Hi Hj), (Hin Hb j i Hj Hi).
    rewrite (Hsym j i Hj Hi).
    destruct (decide ((node_a e = i /\ node_b e = j)
                      \/ (node_b e = i /\ node_a e = j))) as [Hc | Hc].
    + rewrite decide_True; [done |].
      destruct Hc as [[? ?] | [? ?]]; [right | left]; done.
    + rewrite decide_False; [done |].
      intros [[? ?] | [? ?]]; apply Hc; [right | left]; done.
  - rewrite Hout by lia. done.
Qed.

(** A cheaper edge, written into a table that is nowhere above, leaves the
    table nowhere above. *)
Lemma init_edge_dist_mono n d' d e' e d1 :
  below n d' d -> symmetric_table n d' -> symmetric_table n d ->
  node_a e' = node_a e -> node_b e' = node_b e ->
  (getEdgeCost e' <= getEdgeCost e)%Q ->
  init_edge_dist d e = Some d1 ->
  exists d1', init_edge_dist d' e' = Some d1' /\ below n d1' d1.
Proof.
  intros (Hsq' & Hsq & Hle) Hsym' Hsym Ea Eb Hcost H.
  destruct (init_edge_dist_spec n d e d1 Hsq H) as (Hsq1 & Ha & Hin & Hout).
  destruct (init_edge_dist_total n d' e' Hsq') as (d1' & H' & _);
    [by rewrite Ea |].
  exists d1'. split; [done |].
  destruct (init_edge_dist_spec n d' e' d1' Hsq' H')
    as (Hsq1' & _ & Hin' & Hout').
  split; [done |]. split; [done |].
  rewrite Ea, Eb in Hin'. rewrite Eb in Hout'.
  destruct (decide (node_b e < n)%nat) as [Hb | Hb].
  2: { rewrite Hout, Hout' by lia. done. }
  intros i j Hi Hj. rewrite (Hin Hb i j Hi Hj), (Hin' Hb i j Hi Hj).
  destruct (decide _) as [Hc | _]; [| by apply Hle].
  assert (Hx : cell Infinity d i j
               = cell Infinity d (node_a e) (node_b e)).
  { destruct Hc as [[<- <-] | [<- <-]]; [done | by apply Hsym]. }
  assert (Hx' : cell Infinity d' i j
                = cell Infinity d' (node_a e) (node_b e)).
  { destruct Hc as [[<- <-] | [<- <-]]; [done | by apply Hsym']. }
  rewrite Hx, Hx'. pose proof (Hle _ _ Ha Hb) as Hab.
  revert Hab. generalize (cell Infinity d' (node_a e) (node_b e)).
  generalize (cell Infinity d (node_a e) (node_b e)). intros x x' Hab.
  destruct (ltb _ x') eqn:E'; destruct (ltb _ x) eqn:E;
    try apply ltb_lt in E'; try apply ltb_ge in E';
    try apply ltb_lt in E; try apply ltb_ge in E.
  - done.
  - apply lt_le. by eapply lt_le_trans.
  - eapply le_trans; [exact E' | exact Hcost].
  - done.
Qed.

Lemma init_edges_dist_mono n edges edges' :
  cheaper edges edges' ->
  forall d' d d1,
    below n d' d -> symmetric_table n d' -> symmetric_table n d ->
    foldM init_edge_dist edges d = Some d1 ->
    exists d1', foldM init_edge_dist edges' d' = Some d1' /\ below n d1' d1.
Proof.
  induction 1 as [| e e' edges edges' (Ea & Eb & Hcost) _ IH];
    intros d' d d1 Hb Hsym' Hsym H; simpl in *.
  - simplify_eq. by exists d'.
  - destruct (init_edge_dist d e) as [d2 |] eqn:E; [| done].
    destruct (init_edge_dist_mono n d' d e' e d2 Hb Hsym' Hsym Ea Eb Hcost E)
      as (d2' & E' & Hb2).
    rewrite E'. destruct Hb as (Hsq' & Hsq & _).
    apply (IH d2' d2 d1); [done | | | done].
    + exact (init_edge_dist_symmetric n d' e' d2' Hsq' Hsym' E').
    + exact (init_edge_dist_symmetric n d e d2 Hsq Hsym E).
Qed.

Lemma seed_self_symmetric n : symmetric_table n (seed_self n).
Proof. by destruct (metric_seed_self n) as (_ & _ & _ & H & _). Qed.

(** Rebuilt on cheaper edges, the pathfinder gives every pair of nodes a
    cost that is at most what it was. *)
Lemma computeAllPaths_mono nodes edges edges' pf :
  cheaper edges edges' ->
  computeAllPaths nodes edges = Some pf ->
  exists pf',
    computeAllPaths nodes edges' = Some pf'
    /\ below (length nodes) (dist pf') (dist pf).
Proof.
  intros Hch H. set (n := length nodes).
  pose proof (dist_computeAllPaths nodes edges) as E. rewrite H in E.
  simpl in E. fold n in E.
  destruct (foldM init_edge_dist edges (seed_self n)) as [d1 |] eqn:Ed;
    [| done].
  simpl in E. injection E as E.
  destruct (init_edges_dist_mono n edges edges' Hch
              (seed_self n) (seed_self n) d1) as (d1' & Ed' & Hb).
  { destruct (seed_self_spec n) as [Hsq _]. split; [done |].
    split; [done |]. intros. apply le_refl. }
  { apply seed_self_symmetric. }
  { apply seed_self_symmetric. }
  { done. }
  pose proof (dist_computeAllPaths nodes edges') as E'. fold n in E'.
  rewrite Ed' in E'. simpl in E'.
  destruct (computeAllPaths nodes edges') as [pf' |]; [| done].
  simpl in E'. injection E' as E'. exists pf'. split; [done |].
  rewrite E, E'. by apply floydWarshall_dist_mono.
Qed.

End Monotone.

Section Relaxation.

Import Pathfinder GameState.

Lemma Qmin2_mono_r (x y y' : Q) : (y' <= y)%Q -> (Qmin2 x y' <= Qmin2 x y)%Q.
Proof.
  intros H. apply Qmin2_glb.
  - apply Qmin2_le_l.
  - pose proof (Qmin2_le_r x y'). lra.
Qed.

(** A pipeline added to an edge that has none. *)
Lemma getEdgeCost_new_pipeline e owner capacity fee utilization :
  pipe_owner (pipeline e) = None ->
  (getEdgeCost (with_pipeline e
     {| pipe_owner := Some owner; pipe_capacity := capacity;
        pipe_fee := fee; pipe_utilization := utilization |})
   <= getEdgeCost e)%Q.
Proof.
  intros H. unfold getEdgeCost. simpl. rewrite H. apply Qmin2_le_l.
Qed.

(** The fee of the pipeline of an edge lowered. *)
Lemma getEdgeCost_lower_fee e fee :
  (fee <= pipe_fee (pipeline e))%Q ->
  (getEdgeCost (with_pipeline e
     {| pipe_owner := pipe_owner (pipeline e);
        pipe_capacity := pipe_capacity (pipeline e);
        pipe_fee := fee;
        pipe_utilization := pipe_utilization (pipeline e) |})
   <= getEdgeCost e)%Q.
Proof.
  intros H. unfold getEdgeCost. simpl.
  destruct (pipe_owner (pipeline e)); [by apply Qmin2_mono_r | lra].
Qed.

Lemma cheaper_insert edges i e e' :
  edges !! i = Some e ->
  node_a e' = node_a e -> node_b e' = node_b e ->
  (getEdgeCost e' <= getEdgeCost e)%Q ->
  cheaper edges (<[i := e']> edges).
Proof.
  intros Hi Ha Hb Hc. unfold cheaper.
  rewrite <- (list_insert_id edges i e Hi) at 1.
  apply Forall2_insert; [| done].
  apply Forall_Forall2_diag, Forall_forall. intros x _.
  split; [done |]. split; [done |]. lra.
Qed.

(** What a successful [buildPipeline] leaves. *)
Lemma buildPipeline_success s playerId edgeId s' :
  buildPipeline s playerId edgeId = Some (s', Success) ->
  exists edge edges',
    edges s !! edgeId = Some edge
    /\ cheaper (edges s) edges'
    /\ nodes s' = nodes s
    /\ computeAllPaths (nodes s) edges' = Some (pathfinder s').
Proof.
  unfold buildPipeline, recompute. intros H.
  repeat (simplify_eq; try done; case_match); simplify_eq; simpl in *.
  eexists _, _. split; [done |]. split; [| done].
  eapply cheaper_insert; [done | done | done |].
  by apply getEdgeCost_new_pipeline.
Qed.

(** What a successful [setPipelineFee] leaves, when the fee is not
    raised. *)
Lemma setPipelineFee_success s playerId edgeId fee edge s' :
  edges s !! edgeId = Some edge ->
  (fee <= pipe_fee (pipeline edge))%Q ->
  setPipelineFee s playerId edgeId fee = Some (s', Success) ->
  exists edges',
    cheaper (edges s) edges'
    /\ nodes s' = nodes s
    /\ computeAllPaths (nodes s) edges' = Some (pathfinder s').
Proof.
  unfold setPipelineFee, recompute. intros He Hfee H. rewrite He in H.
  repeat (simplify_eq; try done; case_match); simplify_eq; simpl in *.
  eexists. split; [| done].
  eapply cheaper_insert; [done | done | done |].
  by apply getEdgeCost_lower_fee.
Qed.

Lemma rebuilt_below s s' edges' :
  computeAllPaths (nodes s) (edges s) = Some (pathfinder s) ->
  cheaper (edges s) edges' ->
  computeAllPaths (nodes s) edges' = Some (pathfinder s') ->
  forall i j,
    (i < length (nodes s))%nat -> (j < length (nodes s))%nat ->
    exists c c',
      getCost (pathfinder s) i j = Some c
      /\ getCost (pathfinder s') i j = Some c'
      /\ le c' c.
Proof.
  intros Hsync Hch Hnew i j Hi Hj.
  destruct (computeAllPaths_mono _ _ _ _ Hch Hsync)
    as (pf' & Hpf' & Hsq' & Hsq & Hle).
  rewrite Hnew in Hpf'. injection Hpf' as <-.
  exists (cell Infinity (dist (pathfinder s)) i j),
         (cell Infinity (dist (pathfinder s')) i j).
  rewrite !(getCost_cell (length (nodes s))) by done.
  split; [done |]. split; [done |]. by apply Hle.
Qed.

End Relaxation.

(** C4. When the pathfinder is up to date, building a pipeline on an edge,
    or setting the fee of a pipeline to at most what it was, rebuilds the
    pathfinder with, for every pair of nodes, a cost that is at most the
    cost before. *)
Theorem relaxing_an_edge_never_raises_a_cost
  (s s' : GameState.t) (playerId edgeId : nat) :
  Pathfinder.computeAllPaths (GameState.nodes s) (GameState.edges s)
  = Some (GameState.pathfinder s) ->
  GameState.buildPipeline s playerId edgeId = Some (s', GameState.Success)
  \/ (exists fee edge,
        GameState.edges s !! edgeId = Some edge
        /\ (fee <= pipe_fee (pipeline edge))%Q
        /\ GameState.setPipelineFee s playerId edgeId fee
           = Some (s', GameState.Success)) ->
  forall i j,
    (i < length (GameState.nodes s))%nat ->
    (j < length (GameState.nodes s))%nat ->
    exists c c',
      Pathfinder.getCost (GameState.pathfinder s) i j = Some c
      /\ Pathfinder.getCost (GameState.pathfinder s') i j = Some c'
      /\ le c' c.
Proof.
  intros Hsync [H | (fee & edge & He & Hfee & H)].
  - apply buildPipeline_success in H as (edge & edges' & _ & Hch & _ & Hnew).
    by eapply rebuilt_below.
  - eapply setPipelineFee_success in H as (edges' & Hch & _ & Hnew);
      [| done | done].
    by eapply rebuilt_below.
Qed.

(** In the small world a pipeline on the edge 0-1 does not raise the cost
    from node 0 to node 4. *)
Lemma relaxing_an_edge_witness :
  exists c c',
    Pathfinder.getCost (GameState.pathfinder Scenario.world) 0 4 = Some c
    /\ Pathfinder.getCost (GameState.pathfinder Scenario.after_pipeline) 0 4
       = Some c'
    /\ le c' c.
Proof.
  apply (relaxing_an_edge_never_raises_a_cost
           Scenario.world Scenario.after_pipeline 0 0).
  - vm_compute. reflexivity.
  - left. vm_compute. reflexivity.
  - simpl. lia.
  - simpl. lia.
Defined.


(** ** Witnesses in the small world *)

(** The winner among the players of the small world after one turn. *)
Lemma getWinner_witness :
  exists (i : nat) (w : Player),
    TurnResolver.getWinner (GameState.players Scenario.after_one_turn)
    = Some w
    /\ GameState.players Scenario.after_one_turn !! i = Some w
    /\ (forall p, p ∈ GameState.players Scenario.after_one_turn ->
          le (cumulative_profit p) (cumulative_profit w))
    /\ (forall j p, (j < i)%nat ->
          GameState.players Scenario.after_one_turn !! j = Some p ->
          lt (cumulative_profit p) (cumulative_profit w)).
Proof.
  apply (getWinner_maximal_lowest_index
           (GameState.players Scenario.after_one_turn)).
  vm_compute. discriminate.
Defined.

(** Player 0 does not own the refinery at node 1 and cannot upgrade it. *)
Lemma failure_leaves_state_unchanged_witness :
  GameState.execute Scenario.world (GameState.UpgradeRefinery 0 1)
  = Some (Scenario.world, GameState.Failure "Not your refinery")
  /\ Scenario.world = Scenario.world.
Proof.
  assert (H : GameState.execute Scenario.world (GameState.UpgradeRefinery 0 1)
              = Some (Scenario.world, GameState.Failure "Not your refinery"))
    by (vm_compute; reflexivity).
  split; [exact H |].
  exact (failure_leaves_state_unchanged Scenario.world Scenario.world
           (GameState.UpgradeRefinery 0 1) "Not your refinery" H).
Defined.

(** Node 2 of the small world at a global price of 100: the player route
    at 31 is returned, below the import price. *)
Lemma findCheapestSupply_at_most_import_witness :
  exists importPrice,
    Pathfinder.calculateLocalPrice Scenario.world_pathfinder 2 100 5
      Scenario.world_nodes = Some importPrice
    /\ le (Fin 31) importPrice
    /\ 2%nat = 2%nat
    /\ player_route Scenario.world_pathfinder Scenario.world_settings
                    Scenario.world_nodes 2 0 1 (Fin 31).
Proof.
  apply (findCheapestSupply_at_most_import Scenario.world_pathfinder 2 100 5
           Scenario.world_settings Scenario.world_nodes
           (PlayerSupply 0 1 2 (Fin 31))).
  vm_compute. reflexivity.
Defined.

(** Node 2 of the small world at a global price of 23, where the import
    price and the landed cost of the player route are both 31. *)
Lemma findCheapestSupply_cheapest_witness :
  le (Fin 31) (Fin 31)
  /\ (forall prodId refId cost,
        player_route Scenario.world_pathfinder Scenario.world_settings
                     Scenario.world_nodes 2 prodId refId cost ->
        le (Fin 31) cost)
  /\ ((exists prodId refId cost,
         player_route Scenario.world_pathfinder Scenario.world_settings
                      Scenario.world_nodes 2 prodId refId cost
         /\ finite cost /\ le cost (Fin 31)) ->
      exists prodId refId cost,
        PlayerSupply 0 1 2 (Fin 31) = PlayerSupply prodId refId 2 cost
        /\ player_route Scenario.world_pathfinder Scenario.world_settings
                        Scenario.world_nodes 2 prodId refId cost)
  /\ ((forall prodId refId cost,
         player_route Scenario.world_pathfinder Scenario.world_settings
                      Scenario.world_nodes 2 prodId refId cost ->
         lt (Fin 31) cost \/ cost = Infinity) ->
      exists terminal, PlayerSupply 0 1 2 (Fin 31) = Import (Fin 31) terminal).
Proof.
  apply (findCheapestSupply_cheapest_ties_to_player
           Scenario.world_pathfinder 2 23 5 Scenario.world_settings
           Scenario.world_nodes (PlayerSupply 0 1 2 (Fin 31)) (Fin 31)).
  - vm_compute. reflexivity.
  - vm_compute. reflexivity.
Defined.

(** ** Rated capacities *)

(** The volume served to a consumption node is the least of its demand, the
    rated capacity of the well and the rated capacity of the refinery. *)
Lemma served_clip (demand prodCapacity refCapacity : Q) :
  (TurnResolver.served demand prodCapacity refCapacity <= demand)%Q
  /\ (TurnResolver.served demand prodCapacity refCapacity <= prodCapacity)%Q
  /\ (TurnResolver.served demand prodCapacity refCapacity <= refCapacity)%Q
  /\ (TurnResolver.served demand prodCapacity refCapacity = demand
      \/ TurnResolver.served demand prodCapacity refCapacity = prodCapacity
      \/ TurnResolver.served demand prodCapacity refCapacity = refCapacity).
Proof.
  unfold TurnResolver.served.
  pose proof (Qmin2_le_l (Qmin2 demand prodCapacity) refCapacity).
  pose proof (Qmin2_le_r (Qmin2 demand prodCapacity) refCapacity).
  pose proof (Qmin2_le_l demand prodCapacity).
  pose proof (Qmin2_le_r demand prodCapacity).
  repeat split; try lra.
  destruct (Qmin2_spec (Qmin2 demand prodCapacity) refCapacity)
    as [[_ ->] | [_ ->]]; [auto |].
  destruct (Qmin2_spec demand prodCapacity) as [[_ ->] | [_ ->]]; auto.
Qed.

(** C1 as stated fails. In one turn of the small world the two
    consumption nodes are each served 80 barrels from the well at node 0
    through the refinery at node 1, both rated at 100 barrels: the refinery
    has processed 160 barrels, at a utilization of 8/5, the edge from the
    well carries 160 barrels, and 160 barrels are sold for the well's
    owner. *)
Lemma routing_exceeds_rated_capacity :
  TurnResolver.processTurn Scenario.pow_integral Scenario.calm Scenario.world
  = Some Scenario.after_one_turn
  /\ (production_capacity <$> GameState.nodes Scenario.after_one_turn !! 0%nat)
     = Some (Some 100%Q)
  /\ (supply_source <$> GameState.nodes Scenario.after_one_turn !! 2%nat)
     = Some (Some (PlayerSupply 0 1 2 (Fin 31)))
  /\ (supply_source <$> GameState.nodes Scenario.after_one_turn !! 3%nat)
     = Some (Some (PlayerSupply 0 1 3 (Fin 31)))
  /\ exists node r edge p,
       GameState.nodes Scenario.after_one_turn !! 1%nat = Some node
       /\ buildings_refinery node = Some r
       /\ (ref_capacity r == 100)%Q
       /\ (barrels_processed r == 160)%Q
       /\ (ref_utilization r == 8 # 5)%Q
       /\ GameState.edges Scenario.after_one_turn !! 0%nat = Some edge
       /\ (flow_volume edge == 160)%Q
       /\ GameState.players Scenario.after_one_turn !! 0%nat = Some p
       /\ (barrels_sold p == 160)%Q.
Proof.
  split; [vm_compute; reflexivity |].
  split; [vm_compute; reflexivity |].
  split; [vm_compute; reflexivity |].
  split; [vm_compute; reflexivity |].
  vm_compute. do 4 eexists. repeat split.
Qed.

Section Served.

Import GameState TurnResolver.

Lemma lookup_insert_same_obs {A C : Type} (obs : A -> C)
  (l : list A) (i j : nat) (x x' : A) :
  l !! i = Some x -> obs x' = obs x ->
  obs <$> (<[i := x']> l !! j) = obs <$> (l !! j).
Proof.
  intros Hi Hobs. destruct (decide (i = j)) as [<- | Hne].
  - rewrite list_lookup_insert_eq by (by eapply lookup_lt_Some).
    rewrite Hi. simpl. by rewrite Hobs.
  - by rewrite list_lookup_insert_ne.
Qed.

Lemma track_edge_nodes barrels s edgeId s' :
  track_edge barrels s edgeId = Some s' -> nodes s' = nodes s.
Proof.
  unfold track_edge. intros H.
  repeat (simplify_eq; try done; case_match); by simplify_eq.
Qed.

Lemma trackRouteUsage_nodes route barrels s s' :
  trackRouteUsage route barrels s = Some s' -> nodes s' = nodes s.
Proof.
  apply (foldM_preserves nodes). intros. by eapply track_edge_nodes.
Qed.

Lemma trackInfrastructureUsage_nodes production refinery demand barrels s s' :
  trackInfrastructureUsage production refinery demand barrels s = Some s' ->
  nodes s' = nodes s.
Proof.
  unfold trackInfrastructureUsage. intros H.
  destruct (Pathfinder.getDetailedRoute _ _ production refinery)
    as [r1 |]; [| done].
  assert (exists s1, match r1 with
                     | Some route => trackRouteUsage route barrels s
                     | None => Some s
                     end = Some s1
                     /\ nodes s1 = nodes s) as (s1 & E1 & H1).
  { destruct r1 as [route |].
    - destruct (trackRouteUsage route barrels s) as [s1 |] eqn:E; [| done].
      exists s1. split; [done |]. by eapply trackRouteUsage_nodes.
    - by exists s. }
  rewrite E1 in H.
  destruct (Pathfinder.getDetailedRoute _ _ refinery demand)
    as [r2 |]; [| done].
  rewrite <- H1. destruct r2 as [route |].
  - by eapply trackRouteUsage_nodes.
  - by simplify_eq.
Qed.

End Served.

(** C1, as the code has it. The volume served to a consumption node that a
    player route supplies is the least of the node's current demand, the
    rated capacity of the well and the rated capacity of the refinery, so a
    single served volume exceeds none of the three; when it is positive the
    round adds it to the barrels the refinery has processed, and otherwise
    leaves these as they were.  The rated capacity of the refinery is not
    changed. *)
Theorem served_volume_is_rated_minimum
  (s s' : GameState.t) (i : nat) (demandNode : Node)
  (production refinery demand : nat) (cost : num) :
  GameState.nodes s !! i = Some demandNode ->
  Qeq_bool (current_demand demandNode) 0 = false ->
  Pathfinder.findCheapestSupply (GameState.pathfinder s)
    (node_id demandNode) (GameState.global_oil_price s)
    (TERMINAL_FEE (GameState.settings s)) (GameState.settings s)
    (GameState.nodes s)
  = Some (PlayerSupply production refinery demand cost) ->
  TurnResolver.route_at s i = Some s' ->
  exists q r r',
    (production_capacity <$> GameState.nodes s !! production) = Some (Some q)
    /\ (buildings_refinery <$> GameState.nodes s !! refinery)
       = Some (Some r)
    /\ (buildings_refinery <$> GameState.nodes s' !! refinery)
       = Some (Some r')
    /\ ref_capacity r' = ref_capacity r
    /\ let barrels :=
         TurnResolver.served (current_demand demandNode) q (ref_capacity r) in
       (barrels <= current_demand demandNode)%Q
       /\ (barrels <= q)%Q
       /\ (barrels <= ref_capacity r)%Q
       /\ (barrels = current_demand demandNode \/ barrels = q
           \/ barrels = ref_capacity r)
       /\ barrels_processed r'
          = if Qleb barrels 0 then barrels_processed r
            else (barrels_processed r + barrels)%Q.
Proof.
  intros Hi Hd Hsr H. unfold TurnResolver.route_at in H.
  rewrite Hi, Hd, Hsr in H. simpl in H.
  set (sr := PlayerSupply production refinery demand cost) in *.
  set (ns := <[i := TurnResolver.with_supply_source demandNode sr]>
               (GameState.nodes s)) in *.
  assert (Hobs : forall {C : Type} (obs : Node -> C) j,
             (forall n, obs (TurnResolver.with_supply_source n sr) = obs n) ->
             obs <$> (ns !! j) = obs <$> (GameState.nodes s !! j)).
  { intros C obs j Ho. unfold ns.
    by apply (lookup_insert_same_obs obs _ i j demandNode). }
  destruct (ns !! production) as [prodNode |] eqn:Ep; [| done].
  destruct (ns !! refinery) as [refNode |] eqn:Er; [| done].
  destruct (buildings_refinery refNode) as [r |] eqn:Eb; [| done].
  destruct (production_capacity prodNode) as [q |] eqn:Eq; [| done].
  assert (Hq : production_capacity <$> GameState.nodes s !! production
               = Some (Some q)).
  { rewrite <- (Hobs _ production_capacity production) by done.
    rewrite Ep. simpl. by rewrite Eq. }
  assert (Hr : buildings_refinery <$> GameState.nodes s !! refinery
               = Some (Some r)).
  { rewrite <- (Hobs _ buildings_refinery refinery) by done.
    rewrite Er. simpl. by rewrite Eb. }
  destruct (served_clip (current_demand demandNode) q (ref_capacity r))
    as (Hc1 & Hc2 & Hc3 & Hc4).
  set (barrels := TurnResolver.served (current_demand demandNode) q
                    (ref_capacity r)) in *.
  destruct (Qleb barrels 0) eqn:El.
  - simplify_eq. exists q, r, r.
    split; [done |]. split; [done |]. split.
    { change (buildings_refinery <$> ns !! refinery = Some (Some r)).
      rewrite Er. simpl. by rewrite Eb. }
    split; [done |]. cbv zeta. fold barrels. by rewrite El.
  - repeat match type of H with
           | context [TurnResolver.trackInfrastructureUsage ?a ?b ?c ?d ?e] =>
               destruct (TurnResolver.trackInfrastructureUsage a b c d e)
                 as [s1 |] eqn:Ht; [| done]
           | (let? _ := ?x in _) = _ => destruct x eqn:?; [| done]
           end.
    apply trackInfrastructureUsage_nodes in Ht.
    assert (Hn : GameState.nodes s1 = ns) by exact Ht. clear Ht.
    match goal with
    | Hx : GameState.nodes s1 !! refinery = Some _ |- _ =>
        rewrite Hn, Er in Hx
    end.
    simplify_eq. eexists q, r, _.
    split; [done |]. split; [done |]. split.
    { simpl. rewrite Hn.
      rewrite list_lookup_insert_eq by (by eapply lookup_lt_Some). done. }
    split; [done |]. cbv zeta. fold barrels. by rewrite El.
Qed.

(** Node 2 of the small world, served from the well at node 0 through the
    refinery at node 1. *)
Lemma served_volume_witness :
  exists q r r',
    (production_capacity <$> GameState.nodes Scenario.before_routing !! 0%nat)
    = Some (Some q)
    /\ (buildings_refinery
          <$> GameState.nodes Scenario.before_routing !! 1%nat)
       = Some (Some r)
    /\ (buildings_refinery
          <$> GameState.nodes Scenario.after_first_route !! 1%nat)
       = Some (Some r')
    /\ ref_capacity r' = ref_capacity r
    /\ let barrels :=
         TurnResolver.served (current_demand Scenario.priced_city) q
                             (ref_capacity r) in
       (barrels <= current_demand Scenario.priced_city)%Q
       /\ (barrels <= q)%Q
       /\ (barrels <= ref_capacity r)%Q
       /\ (barrels = current_demand Scenario.priced_city \/ barrels = q
           \/ barrels = ref_capacity r)
       /\ barrels_processed r'
          = if Qleb barrels 0 then barrels_processed r
            else (barrels_processed r + barrels)%Q.
Proof.
  apply (served_volume_is_rated_minimum Scenario.before_routing
           Scenario.after_first_route 2 Scenario.priced_city 0 1 2 (Fin 31)).
  - vm_compute. reflexivity.
  - vm_compute. reflexivity.
  - vm_compute. reflexivity.
  - vm_compute. reflexivity.
Defined.

(** ** Edges, paths and routes *)

Section Edges.

Import Pathfinder.

Local Open Scope Q_scope.

Lemma getEdgeTransportation_cost e :
  snd (getEdgeTransportation e) = getEdgeCost e.
Proof.
  unfold getEdgeTransportation, getEdgeCost, Qmin2.
  destruct (rail_available e), (pipe_owner (pipeline e)); simpl;
    repeat case_match; simpl in *; congruence.
Qed.

Lemma findEdge_joins_iff e a b :
  (Nat.eqb (node_a e) a && Nat.eqb (node_b e) b
   || Nat.eqb (node_a e) b && Nat.eqb (node_b e) a) = true
  <-> joins e a b.
Proof.
  unfold joins.
  rewrite orb_true_iff, !andb_true_iff, !Nat.eqb_eq. tauto.
Qed.

Lemma joins_sym e a b : joins e a b -> joins e b a.
Proof. unfold joins. tauto. Qed.

Lemma findEdge_first edges a b :
  match findEdge edges a b with
  | Some e =>
      exists i, edges !! i = Some e /\ joins e a b
                /\ forall j e', (j < i)%nat -> edges !! j = Some e' ->
                                ~ joins e' a b
  | None => forall e, e ∈ edges -> ~ joins e a b
  end.
Proof.
  unfold findEdge. induction edges as [| e edges IH]; simpl.
  - intros e He. by apply elem_of_nil in He.
  - destruct (Nat.eqb (node_a e) a && Nat.eqb (node_b e) b
              || Nat.eqb (node_a e) b && Nat.eqb (node_b e) a) eqn:E.
    + exists 0%nat. split; [done |]. split; [by apply findEdge_joins_iff |].
      intros j e' Hj. lia.
    + assert (~ joins e a b) as Hn.
      { intros Hj. apply findEdge_joins_iff in Hj. congruence. }
      destruct (find _ edges) as [e0 |].
      * destruct IH as (i & Hi & Hj & Hfirst).
        exists (S i). split; [done |]. split; [done |].
        intros [| j] e' Hlt He'; simpl in He'.
        -- by simplify_eq.
        -- apply (Hfirst j); [lia | done].
      * intros e' He'. apply elem_of_cons in He' as [-> | He']; [done |].
        by apply IH.
Qed.

End Edges.

(** X1. The transport [getEdgeTransportation] picks for an edge costs what
    [getEdgeCost] charges for the edge in the distance table; the mode is
    one the edge offers, no offered mode is cheaper, and on equal costs a
    truck is kept before rail and rail before a pipeline. *)
Theorem getEdgeTransportation_cheapest_mode (e : Edge) :
  let ty := fst (Pathfinder.getEdgeTransportation e) in
  let c := snd (Pathfinder.getEdgeTransportation e) in
  c = Pathfinder.getEdgeCost e
  /\ mode_open e ty
  /\ c = mode_cost e ty
  /\ (forall ty', mode_open e ty' -> (c <= mode_cost e ty')%Q)
  /\ (forall ty', mode_open e ty' -> (mode_cost e ty' == c)%Q ->
        match ty, ty' with
        | Pathfinder.rail, Pathfinder.truck => False
        | Pathfinder.pipeline_t, Pathfinder.truck => False
        | Pathfinder.pipeline_t, Pathfinder.rail => False
        | _, _ => True
        end).
Proof.
  cbv zeta. split; [apply getEdgeTransportation_cost |].
  unfold Pathfinder.getEdgeTransportation, mode_open, mode_cost.
  destruct (rail_available e) eqn:Er,
           (pipe_owner (pipeline e)) as [o |] eqn:Eo; simpl;
    repeat (case_match; simpl in * );
    repeat match goal with
           | H : Qltb _ _ = true |- _ => apply Qltb_lt in H
           | H : Qltb _ _ = false |- _ => apply Qltb_ge in H
           end;
    (split; [done |]); (split; [done |]);
    (split; intros [] Ho; simpl in *; try done; try lra; intros; lra).
Qed.

(** X2. [findEdge] does not depend on the order in which the two nodes are
    given.  It returns the first edge of the list that joins them, in
    either direction, and [null] exactly when no edge joins them. *)
Theorem findEdge_first_joining (edges : list Edge) (a b : nat) :
  Pathfinder.findEdge edges a b = Pathfinder.findEdge edges b a
  /\ match Pathfinder.findEdge edges a b with
     | Some e =>
         exists i, edges !! i = Some e /\ joins e a b
                   /\ forall j e', (j < i)%nat -> edges !! j = Some e' ->
                                   ~ joins e' a b
     | None => forall e, e ∈ edges -> ~ joins e a b
     end.
Proof.
  split; [| apply findEdge_first].
  unfold Pathfinder.findEdge. induction edges as [| e edges IH]; [done |].
  simpl. rewrite IH.
  by rewrite (orb_comm (Nat.eqb (node_a e) a && Nat.eqb (node_b e) b)).
Qed.

Section Paths.

Import Pathfinder.

Lemma walk_spec (nx : list (list (option nat))) (to : nat) (fuel : nat) :
  forall current rest,
    walk fuel nx current to = Some rest ->
    last (current :: rest) = Some to
    /\ (length rest <= fuel)%nat
    /\ forall k a b,
         (current :: rest) !! k = Some a ->
         (current :: rest) !! S k = Some b ->
         a <> to /\ cell None nx a to = Some b.
Proof.
  induction fuel as [| fuel IH]; intros current rest H; simpl in H.
  - destruct (decide (current = to)) as [-> |]; [| done].
    simplify_eq. split; [done |]. split; [done |].
    intros [| k] a b Ha Hb; done.
  - destruct (decide (current = to)) as [-> | Hne].
    { simplify_eq. split; [done |]. split; [simpl; lia |].
      intros [| k] a b Ha Hb; done. }
    destruct (nx !! current) as [row |] eqn:Er; [| done].
    destruct (row !! to) as [hop |] eqn:Eh; [| done].
    destruct hop as [c |]; [| done].
    destruct (walk fuel nx c to) as [rest' |] eqn:Ew; [| done].
    simplify_eq. destruct (IH _ _ Ew) as (Hlast & Hlen & Hchain).
    split; [exact Hlast |]. split; [simpl; lia |].
    intros [| k] a b Ha Hb.
    + simpl in Ha, Hb. simplify_eq. split; [done |].
      by apply (lookup_cell _ _ _ _ row).
    + by apply (Hchain k).
Qed.

Lemma route_legs_spec (edges : list Edge) (path : list nat) :
  forall r,
    let r' := route_legs edges path r in
    route_nodes r' = route_nodes r
    /\ exists ids,
         route_edges r' = route_edges r ++ ids
         /\ (length ids <= length path - 1)%nat
         /\ Forall (fun id => exists e, e ∈ edges /\ edge_id e = id) ids
         /\ ((forall k a b, path !! k = Some a -> path !! S k = Some b ->
                is_Some (findEdge edges a b)) ->
             length ids = (length path - 1)%nat).
Proof.
  induction path as [| nodeA rest IH]; intros r; cbv zeta.
  { simpl. split; [done |]. exists []. by rewrite app_nil_r. }
  destruct rest as [| nodeB rest'].
  { simpl. split; [done |]. exists []. by rewrite app_nil_r. }
  change (route_legs edges (nodeA :: nodeB :: rest') r)
    with (match findEdge edges nodeA nodeB with
          | None => route_legs edges (nodeB :: rest') r
          | Some e =>
              let '(ty, c) := getEdgeTransportation e in
              route_legs edges (nodeB :: rest')
                {| route_nodes := route_nodes r;
                   route_edges := route_edges r ++ [edge_id e];
                   totalCost := totalCost r + c;
                   breakdown := add_breakdown (breakdown r) ty c |}
          end).
  pose proof (findEdge_first edges nodeA nodeB) as Hfind.
  destruct (findEdge edges nodeA nodeB) as [e |] eqn:Ef.
  - destruct (getEdgeTransportation e) as [ty c].
    match goal with
    | |- context [route_legs edges (nodeB :: rest') ?r0] =>
        destruct (IH r0) as (Hn & ids & Hids & Hlen & Hall & Hfull);
        set (r1 := route_legs edges (nodeB :: rest') r0) in *
    end.
    cbn [route_nodes route_edges] in Hn, Hids.
    split; [exact Hn |].
    exists (edge_id e :: ids). split.
    { rewrite Hids. by rewrite <- app_assoc. }
    split; [simpl in *; lia |]. split.
    { constructor; [| done].
      destruct Hfind as (i & Hi & _). exists e. split; [| done].
      by eapply list_elem_of_lookup_2. }
    intros Hedges. simpl. rewrite Hfull; [simpl; lia |].
    intros k a b Ha Hb. by apply (Hedges (S k)).
  - destruct (IH r) as (Hn & ids & Hids & Hlen & Hall & Hfull).
    split; [exact Hn |].
    exists ids. split; [done |]. split; [simpl in *; lia |].
    split; [done |].
    intros Hedges. destruct (Hedges 0%nat nodeA nodeB) as [e He]; [done.. |].
    congruence.
Qed.

Lemma getPath_nonempty pf from to path :
  getPath pf from to = Some (Some path) -> (0 < length path)%nat.
Proof.
  unfold getPath. intros H. repeat (simplify_eq; try done; case_match).
  simplify_eq. simpl. lia.
Qed.

End Paths.

(** X3. A path [getPath] returns starts at [from] and ends at [to], each of its
    nodes but the last is followed by the next hop the table holds for it
    towards [to], [to] is met at the end only, and the path has at most one
    node more than the table has rows. *)
Theorem getPath_follows_next_hops
  (pf : Pathfinder.t) (from to : nat) (path : list nat) :
  Pathfinder.getPath pf from to = Some (Some path) ->
  head path = Some from
  /\ last path = Some to
  /\ (length path <= S (length (Pathfinder.next pf)))%nat
  /\ forall k a b,
       path !! k = Some a -> path !! S k = Some b ->
       a <> to
       /\ Pathfinder.cell None (Pathfinder.next pf) a to = Some b.
Proof.
  unfold Pathfinder.getPath. intros H.
  destruct (Pathfinder.next pf !! from) as [row |]; [| done].
  destruct (row !! to) as [hop |]; [| done].
  destruct hop as [c |]; [| done].
  destruct (Pathfinder.walk _ _ from to) as [rest |] eqn:Ew; [| done].
  simplify_eq. destruct (walk_spec _ _ _ _ _ Ew) as (Hlast & Hlen & Hchain).
  split; [done |]. split; [exact Hlast |]. split; [simpl; lia |].
  exact Hchain.
Qed.

(** The path from the well at node 0 to the consumption node 2 of the small
    world. *)
Lemma getPath_follows_next_hops_witness :
  Pathfinder.getPath Scenario.world_pathfinder 0 2 = Some (Some [0; 1; 2]%nat)
  /\ head [0; 1; 2]%nat = Some 0%nat
  /\ last [0; 1; 2]%nat = Some 2%nat
  /\ (length [0; 1; 2]%nat
      <= S (length (Pathfinder.next Scenario.world_pathfinder)))%nat
  /\ forall k a b,
       [0; 1; 2]%nat !! k = Some a -> [0; 1; 2]%nat !! S k = Some b ->
       a <> 2%nat
       /\ Pathfinder.cell None (Pathfinder.next Scenario.world_pathfinder)
            a 2 = Some b.
Proof.
  split; [vm_compute; reflexivity |].
  apply (getPath_follows_next_hops Scenario.world_pathfinder 0 2).
  vm_compute. reflexivity.
Defined.

(** X4. The route [getDetailedRoute] returns lists the nodes of the path of
    [getPath]; every edge id it lists is the id of an edge of the graph; it
    lists fewer edges than nodes, and exactly one fewer when every two
    consecutive nodes of the path are joined by an edge. *)
Theorem getDetailedRoute_lists_path_edges
  (pf : Pathfinder.t) (edges : list Edge) (from to : nat)
  (r : Pathfinder.Route) :
  Pathfinder.getDetailedRoute pf edges from to = Some (Some r) ->
  Pathfinder.getPath pf from to = Some (Some (Pathfinder.route_nodes r))
  /\ Forall (fun id => exists e, e ∈ edges /\ edge_id e = id)
            (Pathfinder.route_edges r)
  /\ (length (Pathfinder.route_edges r)
      < length (Pathfinder.route_nodes r))%nat
  /\ ((forall k a b,
         Pathfinder.route_nodes r !! k = Some a ->
         Pathfinder.route_nodes r !! S k = Some b ->
         is_Some (Pathfinder.findEdge edges a b)) ->
      S (length (Pathfinder.route_edges r))
      = length (Pathfinder.route_nodes r)).
Proof.
  unfold Pathfinder.getDetailedRoute. intros H.
  destruct (Pathfinder.getPath pf from to) as [[path |] |] eqn:Ep;
    [| done | done].
  simplify_eq.
  pose proof (getPath_nonempty pf from to path Ep) as Hpos.
  match goal with
  | |- context [Pathfinder.route_legs edges path ?r0] =>
      destruct (route_legs_spec edges path r0)
        as (Hn & ids & Hids & Hlen & Hall & Hfull)
  end.
  cbn [Pathfinder.route_nodes Pathfinder.route_edges] in Hn, Hids.
  rewrite Hn, Hids.
  split; [done |]. split; [done |]. split; [simpl; lia |].
  intros Hedges. simpl. rewrite Hfull; [lia | done].
Qed.

(** The route from the well at node 0 to the consumption node 2 of the
    small world: the roads 0 and 1. *)
Lemma getDetailedRoute_lists_path_edges_witness :
  exists r,
    Pathfinder.getDetailedRoute Scenario.world_pathfinder
      Scenario.world_edges 0 2 = Some (Some r)
    /\ Pathfinder.route_edges r = [0; 1]%nat
    /\ Pathfinder.getPath Scenario.world_pathfinder 0 2
       = Some (Some (Pathfinder.route_nodes r))
    /\ Forall (fun id => exists e, e ∈ Scenario.world_edges /\ edge_id e = id)
              (Pathfinder.route_edges r)
    /\ (length (Pathfinder.route_edges r)
        < length (Pathfinder.route_nodes r))%nat
    /\ ((forall k a b,
           Pathfinder.route_nodes r !! k = Some a ->
           Pathfinder.route_nodes r !! S k = Some b ->
           is_Some (Pathfinder.findEdge Scenario.world_edges a b)) ->
        S (length (Pathfinder.route_edges r))
        = length (Pathfinder.route_nodes r)).
Proof.
  eexists. split; [vm_compute; reflexivity |].
  split; [reflexivity |].
  apply (getDetailedRoute_lists_path_edges Scenario.world_pathfinder
           Scenario.world_edges 0 2).
  vm_compute. reflexivity.
Defined.

(** ** The table holds the costs of the cheapest routes *)

Section Cheapest.

Import Pathfinder.

Lemma foldM_invariant {A B : Type} (P : B -> Prop) (f : B -> A -> option B)
  (l : list A) :
  (forall b x b', x ∈ l -> f b x = Some b' -> P b -> P b') ->
  forall b b', foldM f l b = Some b' -> P b -> P b'.
Proof.
  induction l as [| x l IH]; intros Hf b b' H Hb; simpl in H.
  - by simplify_eq.
  - destruct (f b x) as [b1 |] eqn:E; [| done].
    apply (IH (fun b0 y b0' Hy =>
                 Hf b0 y b0' (proj2 (elem_of_cons l y x) (or_intror Hy)))
              b1 b' H).
    apply (Hf b x b1); [| done | done].
    apply elem_of_cons. by left.
Qed.

Lemma below_refl n d : square n d -> below n d d.
Proof. intros H. split; [done |]. split; [done |]. intros. apply le_refl. Qed.

Lemma below_trans n a b c : below n a b -> below n b c -> below n a c.
Proof.
  intros (Ha & _ & Hab) (_ & Hc & Hbc). split; [done |]. split; [done |].
  intros i j Hi Hj. eapply le_trans; [by apply Hab | by apply Hbc].
Qed.

Lemma relax_dist_lowers n k i j d :
  square n d -> (i < n)%nat -> (j < n)%nat -> below n (relax_dist k i j d) d.
Proof.
  intros Hsq Hi Hj. split; [by apply relax_dist_square |]. split; [done |].
  intros a b Ha Hb. rewrite (relax_dist_cell n) by done.
  destruct (decide _) as [[<- <-] |]; [apply relaxed_le_old | apply le_refl].
Qed.

Lemma floydWarshall_dist_lowers n d :
  square n d -> below n (floydWarshall_dist n d) d.
Proof.
  intros Hsq. unfold floydWarshall_dist, round_dist.
  apply (fold_seq_invariant (fun _ x => below n x d)); [by apply below_refl |].
  intros k d1 Hk H1.
  apply (fold_seq_invariant (fun _ x => below n x d)); [done |].
  intros i d2 Hi H2.
  apply (fold_seq_invariant (fun _ x => below n x d)); [done |].
  intros j d3 Hj H3.
  eapply below_trans; [| exact H3].
  apply relax_dist_lowers; [by destruct H3 | done | done].
Qed.

Lemma init_edge_dist_lowers n d e d1 :
  square n d -> symmetric_table n d -> init_edge_dist d e = Some d1 ->
  below n d1 d
  /\ ((node_b e < n)%nat ->
      le (cell Infinity d1 (node_a e) (node_b e)) (Fin (getEdgeCost e))
      /\ le (cell Infinity d1 (node_b e) (node_a e)) (Fin (getEdgeCost e))).
Proof.
  intros Hsq Hsym H.
  destruct (init_edge_dist_spec n d e d1 Hsq H) as (Hsq1 & Ha & Hin & Hout).
  destruct (decide (node_b e < n)%nat) as [Hb | Hb].
  - specialize (Hin Hb).
    assert (Hcell : forall i j, (i < n)%nat -> (j < n)%nat ->
              (node_a e = i /\ node_b e = j) \/ (node_b e = i /\ node_a e = j)
              -> cell Infinity d i j
                 = cell Infinity d (node_a e) (node_b e)).
    { intros i j Hi Hj [[<- <-] | [<- <-]]; [done |]. by apply Hsym. }
    split.
    + split; [done |]. split; [done |]. intros i j Hi Hj.
      rewrite (Hin i j Hi Hj). destruct (decide _) as [Hm |]; [| apply le_refl].
      destruct (ltb _ _) eqn:E; [| apply le_refl].
      rewrite (Hcell i j Hi Hj Hm). by apply lt_le, ltb_lt.
    + intros _. split.
      * rewrite (Hin _ _ Ha Hb). rewrite decide_True by tauto.
        destruct (ltb _ _) eqn:E; [apply le_refl | by apply ltb_ge].
      * rewrite (Hin _ _ Hb Ha). rewrite decide_True by tauto.
        destruct (ltb _ _) eqn:E; [apply le_refl |].
        rewrite (Hcell _ _ Hb Ha) by tauto. by apply ltb_ge.
  - rewrite (Hout ltac:(lia)). split; [by apply below_refl | lia].
Qed.

Lemma init_edges_dist_lowers n edges :
  forall d d1,
    square n d -> symmetric_table n d ->
    foldM init_edge_dist edges d = Some d1 ->
    below n d1 d
    /\ symmetric_table n d1
    /\ forall e, e ∈ edges ->
         (node_a e < n)%nat
         /\ ((node_b e < n)%nat ->
             le (cell Infinity d1 (node_a e) (node_b e))
                (Fin (getEdgeCost e))
             /\ le (cell Infinity d1 (node_b e) (node_a e))
                   (Fin (getEdgeCost e))).
Proof.
  induction edges as [| e edges IH]; intros d d1 Hsq Hsym H; simpl in H.
  - simplify_eq. split; [by apply below_refl |]. split; [done |].
    intros e He. by apply elem_of_nil in He.
  - destruct (init_edge_dist d e) as [d' |] eqn:E; [| done].
    destruct (init_edge_dist_lowers n d e d' Hsq Hsym E) as [Hb He].
    destruct (init_edge_dist_spec n d e d' Hsq E) as (Hsq' & Ha & _).
    pose proof (init_edge_dist_symmetric n d e d' Hsq Hsym E) as Hsym'.
    destruct (IH d' d1 Hsq' Hsym' H) as (Hb1 & Hsym1 & Hrest).
    split; [by eapply below_trans |]. split; [done |].
    intros e0 He0. apply elem_of_cons in He0 as [-> | He0]; [| by apply Hrest].
    split; [done |]. intros Hlt. destruct (He Hlt) as [H1 H2].
    destruct Hb1 as (_ & _ & Hle).
    split; (eapply le_trans; [by apply Hle | done]).
Qed.

(** After a rebuild, the cell of an edge is at most the cost of the edge. *)
Lemma computeAllPaths_edge nodes edges pf e :
  computeAllPaths nodes edges = Some pf -> e ∈ edges ->
  (node_a e < length nodes)%nat
  /\ ((node_b e < length nodes)%nat ->
      le (cell Infinity (dist pf) (node_a e) (node_b e))
         (Fin (getEdgeCost e))
      /\ le (cell Infinity (dist pf) (node_b e) (node_a e))
            (Fin (getEdgeCost e))).
Proof.
  intros H He. set (n := length nodes).
  pose proof (dist_computeAllPaths nodes edges) as E. rewrite H in E.
  simpl in E. fold n in E.
  destruct (foldM init_edge_dist edges (seed_self n)) as [d1 |] eqn:Ed;
    [| done].
  simpl in E. injection E as E.
  destruct (seed_self_spec n) as [Hsq _].
  destruct (init_edges_dist_lowers n edges _ _ Hsq (seed_self_symmetric n) Ed)
    as (Hb & _ & Hedges).
  destruct (Hedges e He) as [Ha Hcells]. split; [done |].
  intros Hlt. destruct (Hcells Hlt) as [H1 H2].
  destruct Hb as (Hsq1 & _ & _).
  destruct (floydWarshall_dist_lowers n d1 Hsq1) as (_ & _ & Hle).
  rewrite E. split; (eapply le_trans; [by apply Hle | done]).
Qed.

Lemma square_computeAllPaths nodes edges pf :
  computeAllPaths nodes edges = Some pf -> square (length nodes) (dist pf).
Proof.
  intros H. set (n := length nodes).
  pose proof (dist_computeAllPaths nodes edges) as E. rewrite H in E.
  simpl in E. fold n in E.
  destruct (foldM init_edge_dist edges (seed_self n)) as [d1 |] eqn:Ed;
    [| done].
  simpl in E. injection E as E.
  destruct (seed_self_spec n) as [Hsq _].
  destruct (init_edges_dist_lowers n edges _ _ Hsq (seed_self_symmetric n) Ed)
    as ((Hsq1 & _ & _) & _ & _).
  rewrite E. by destruct (floydWarshall_dist_lowers n d1 Hsq1).
Qed.

(** *** Every finite cell is the cost of a route *)

Local Open Scope Q_scope.






(** *** No route is cheaper than the cell *)


End Cheapest.



(** ** The two tables agree *)

Section Linked.

Import Pathfinder.

Lemma linked_set n pf i j x w :
  (i < n)%nat -> (j < n)%nat -> linked n pf ->
  linked n {| dist := mset (dist pf) i j (Fin x);
              next := mset (next pf) i j (Some w) |}.
Proof.
  intros Hi Hj (Hd & Hn & H). split; [by apply mset_square |].
  split; [by apply mset_square |]. intros a b Ha Hb. simpl.
  rewrite !(cell_mset n) by done.
  destruct (decide (i = a /\ j = b)); [done | by apply H].
Qed.

Lemma linked_start n :
  linked n {| dist := replicate n (replicate n Infinity);
              next := replicate n (replicate n None) |}.
Proof.
  split; [apply square_replicate |]. split; [apply square_replicate |].
  intros i j Hi Hj. simpl. unfold cell.
  rewrite !lookup_replicate_2 by done. simpl.
  by rewrite !lookup_replicate_2 by done.
Qed.

Lemma linked_init_edge n pf e pf' :
  linked n pf -> init_edge pf e = Some pf' -> linked n pf'.
Proof.
  intros Hl H. unfold init_edge in H.
  destruct (dist pf !! node_a e) as [row |] eqn:Er; [| done].
  destruct (row !! node_b e) as [x |] eqn:Ex; [| by simplify_eq].
  destruct (ltb _ x); [| by simplify_eq]. simplify_eq.
  pose proof Hl as ((Hlen & Hrows) & _ & _).
  assert (Ha : (node_a e < n)%nat).
  { rewrite <- Hlen. by eapply lookup_lt_Some. }
  assert (Hb : (node_b e < n)%nat).
  { rewrite <- (Forall_lookup_1 (fun row => length row = n) _ _ _ Hrows Er).
    by eapply lookup_lt_Some. }
  apply (linked_set n
           {| dist := mset (dist pf) (node_a e) (node_b e)
                           (Fin (getEdgeCost e));
              next := mset (next pf) (node_a e) (node_b e)
                           (Some (node_b e)) |}); [done | done |].
  by apply linked_set.
Qed.

Lemma linked_relax n k i j pf :
  (k < n)%nat -> (i < n)%nat -> (j < n)%nat ->
  linked n pf -> linked n (relax k i j pf).
Proof.
  intros Hk Hi Hj Hl. unfold relax.
  destruct (ltb _ _) eqn:E; [| done].
  apply ltb_lt, lt_finite in E.
  destruct (cell Infinity (dist pf) i k) as [x1 |] eqn:E1; [| done].
  destruct (cell Infinity (dist pf) k j) as [x2 |] eqn:E2; [| done].
  destruct (cell None (next pf) i k) as [w |] eqn:Ew.
  - simpl. by apply linked_set.
  - destruct Hl as (_ & _ & H). apply (H i k Hi Hk) in Ew. congruence.
Qed.

Lemma linked_floydWarshall n pf : linked n pf -> linked n (floydWarshall n pf).
Proof.
  intros H. unfold floydWarshall.
  apply (fold_seq_invariant (fun _ x => linked n x)); [done |].
  intros k pf1 Hk H1.
  apply (fold_seq_invariant (fun _ x => linked n x)); [done |].
  intros i pf2 Hi H2.
  apply (fold_seq_invariant (fun _ x => linked n x)); [done |].
  intros j pf3 Hj H3. by apply linked_relax.
Qed.

Lemma linked_seeded n :
  linked n (fold_left init_self (seq 0 n)
              {| dist := replicate n (replicate n Infinity);
                 next := replicate n (replicate n None) |}).
Proof.
  apply (fold_seq_invariant (fun _ x => linked n x)); [apply linked_start |].
  intros i pf Hi H. by apply linked_set.
Qed.

Lemma linked_computeAllPaths nodes edges pf :
  computeAllPaths nodes edges = Some pf -> linked (length nodes) pf.
Proof.
  unfold computeAllPaths. intros H.
  destruct (foldM init_edge edges _) as [pf1 |] eqn:E; [| done].
  simplify_eq. apply linked_floydWarshall.
  apply (foldM_invariant (linked (length nodes)) init_edge edges) in E;
    [done | | apply linked_seeded].
  intros b e b' _ Hb Hl. by apply (linked_init_edge _ b e).
Qed.

End Linked.

(** X6. After a rebuild, [getPath] answers [null] for two nodes of the graph
    exactly when [getCost] answers [Infinity] for them. *)
Theorem getPath_null_iff_no_cost
  (nodes : list Node) (edges : list Edge) (pf : Pathfinder.t) (i j : nat) :
  Pathfinder.computeAllPaths nodes edges = Some pf ->
  (i < length nodes)%nat -> (j < length nodes)%nat ->
  Pathfinder.getPath pf i j = Some None
  <-> Pathfinder.getCost pf i j = Some Infinity.
Proof.
  intros H Hi Hj.
  destruct (linked_computeAllPaths nodes edges pf H) as (Hd & Hn & Hl).
  rewrite (getCost_cell (length nodes)) by done.
  pose proof (square_cell (length nodes) (Pathfinder.next pf) None i j
                Hn Hi Hj) as Hc.
  unfold Pathfinder.getPath.
  destruct (Pathfinder.next pf !! i) as [row |]; [| done]. simpl in Hc.
  rewrite Hc.
  destruct (Pathfinder.cell None (Pathfinder.next pf) i j) as [w |] eqn:Ew.
  - split.
    + destruct (Pathfinder.walk _ _ i j); done.
    + intros [= Hinf]. apply Hl in Hinf; [congruence | done | done].
  - split; [| done]. intros _. f_equal. by apply Hl.
Qed.

(** In the small world the import terminal at node 4 is reached from the
    well at node 0, at a cost of 9. *)
Lemma getPath_null_iff_no_cost_witness :
  (Pathfinder.getPath Scenario.world_pathfinder 0 4 = Some None
   <-> Pathfinder.getCost Scenario.world_pathfinder 0 4 = Some Infinity)
  /\ Pathfinder.getCost Scenario.world_pathfinder 0 4 = Some (Fin 9).
Proof.
  split; [| vm_compute; reflexivity].
  apply (getPath_null_iff_no_cost Scenario.world_nodes Scenario.world_edges).
  - vm_compute. reflexivity.
  - vm_compute. lia.
  - vm_compute. lia.
Defined.

(** ** The next hops lead along a cheapest route *)

Section Sweep.

(** The cells of a table in the order of the two inner loops. *)
Lemma sweep_step {A : Type} (n i m : nat) (new old f f' : nat -> nat -> A) :
  (forall a b, (a < n)%nat -> (b < n)%nat ->
     f a b = if decide ((a < i)%nat \/ (a = i /\ (b < m)%nat))
             then new a b else old a b) ->
  (forall a b, (a < n)%nat -> (b < n)%nat ->
     f' a b = if decide (i = a /\ m = b) then new i m else f a b) ->
  forall a b, (a < n)%nat -> (b < n)%nat ->
    f' a b = if decide ((a < i)%nat \/ (a = i /\ (b < S m)%nat))
             then new a b else old a b.
Proof.
  intros H1 H2 a b Ha Hb. rewrite (H2 a b Ha Hb).
  destruct (decide (i = a /\ m = b)) as [[<- <-] | Hne].
  - rewrite decide_True; [done | right; lia].
  - rewrite (H1 a b Ha Hb). apply decide_ext. lia.
Qed.

Lemma sweep_row {A : Type} (n i : nat) (new old f : nat -> nat -> A) :
  (forall a b, (a < n)%nat -> (b < n)%nat ->
     f a b = if decide ((a < i)%nat \/ (a = i /\ (b < n)%nat))
             then new a b else old a b) ->
  forall a b, (a < n)%nat -> (b < n)%nat ->
    f a b = if decide ((a < S i)%nat \/ (a = S i /\ (b < 0)%nat))
            then new a b else old a b.
Proof.
  intros H a b Ha Hb. rewrite (H a b Ha Hb). apply decide_ext. lia.
Qed.

End Sweep.

Section RoundNext.

Import Pathfinder.

Variables (n k : nat) (P : Pathfinder.t).
Hypothesis HD : square n (dist P).
Hypothesis HN : square n (next P).
Hypothesis Hk : (k < n)%nat.
Hypothesis Hkk : cell Infinity (dist P) k k = Fin 0.

Lemma relaxed_next_column i : relaxed_next P k i k = cell None (next P) i k.
Proof. unfold relaxed_next. by rewrite Hkk, ltb_add_zero_r. Qed.

Lemma midway_next_step i m pf :
  (i < n)%nat -> (m < n)%nat ->
  midway n k (dist P) i m (dist pf) -> midway_next n k P i m pf ->
  midway_next n k P i (S m) (relax k i m pf).
Proof.
  intros Hi Hm Hd [Hsq Hcells].
  assert (Hik : cell Infinity (dist pf) i k = cell Infinity (dist P) i k)
    by (by apply (midway_column n k (dist P) Hk Hkk i m)).
  assert (Hkm : cell Infinity (dist pf) k m = cell Infinity (dist P) k m)
    by (by apply (midway_row n k (dist P) Hk Hkk i m)).
  assert (Him : cell Infinity (dist pf) i m = cell Infinity (dist P) i m).
  { destruct Hd as [_ Hd]. rewrite (Hd i m Hi Hm).
    rewrite decide_False; [done | lia]. }
  assert (Hnk : cell None (next pf) i k = cell None (next P) i k).
  { rewrite (Hcells i k Hi Hk).
    destruct (decide _); [apply relaxed_next_column | done]. }
  assert (Hnm : cell None (next pf) i m = cell None (next P) i m).
  { rewrite (Hcells i m Hi Hm). rewrite decide_False; [done | lia]. }
  unfold relax. rewrite Hik, Hkm, Him, Hnk.
  destruct (ltb _ _) eqn:E; simpl.
  - split; [by apply mset_square |].
    apply (sweep_step n i m (relaxed_next P k)
             (cell None (next P)) (cell None (next pf))); [done |].
    intros a b Ha Hb. cbn [next]. rewrite (cell_mset n) by done.
    unfold relaxed_next. by rewrite E.
  - split; [done |].
    apply (sweep_step n i m (relaxed_next P k)
             (cell None (next P)) (cell None (next pf))); [done |].
    intros a b Ha Hb.
    destruct (decide (i = a /\ m = b)) as [[<- <-] |]; [| done].
    unfold relaxed_next. by rewrite E.
Qed.

Lemma round_tables_dist pf :
  dist (round_tables n k pf) = round_dist n k (dist pf).
Proof.
  unfold round_tables, round_dist.
  apply fold_left_project. intros b i.
  apply fold_left_project. intros c j. apply dist_relax.
Qed.

(** The round sets every next hop against the tables it starts with. *)
Lemma round_tables_next :
  square n (next (round_tables n k P))
  /\ forall i j, (i < n)%nat -> (j < n)%nat ->
       cell None (next (round_tables n k P)) i j = relaxed_next P k i j.
Proof.
  set (Q := fun i m pf => midway n k (dist P) i m (dist pf)
                          /\ midway_next n k P i m pf).
  assert (H : Q n 0%nat (round_tables n k P)).
  { unfold round_tables.
    apply (fold_seq_invariant (fun i pf => Q i 0%nat pf)); unfold Q.
    - split; (split; [done |]); intros a b _ _;
        (rewrite decide_False; [done | lia]).
    - intros i pf Hi [Hd Hn].
      assert (Q i n (fold_left (fun pf j => relax k i j pf) (seq 0 n) pf))
        as [Hd' Hn'].
      { apply (fold_seq_invariant (fun m pf => Q i m pf)); unfold Q;
          [done |].
        intros m pf' Hm [Hd' Hn']. split.
        - rewrite dist_relax. by apply midway_step.
        - by apply midway_next_step. }
      split; [by apply midway_next_row |].
      destruct Hn' as [Hsq Hcells]. split; [done |].
      by apply (sweep_row n i (relaxed_next P k) (cell None (next P))). }
  destruct H as [_ [Hsq H]]. split; [done |]. intros i j Hi Hj.
  rewrite (H i j Hi Hj). rewrite decide_True; [done | lia].
Qed.

End RoundNext.

Section Hops.

Import Pathfinder.

Local Open Scope Q_scope.

Lemma le_add_assoc (a b c : num) : le (add a (add b c)) (add (add a b) c).
Proof. destruct a, b, c; simpl; try done. lra. Qed.

Lemma cell_mset_pair {A : Type} (n : nat) (t : list (list A)) (d : A)
  a b v w i j :
  square n t -> (a < n)%nat -> (b < n)%nat ->
  cell d (mset (mset t a b v) b a w) i j
  = if decide (b = i /\ a = j) then w
    else if decide (a = i /\ b = j) then v else cell d t i j.
Proof.
  intros Hsq Ha Hb. rewrite (cell_mset n); [| by apply mset_square | done..].
  destruct (decide (b = i /\ a = j)); [done |]. by rewrite (cell_mset n).
Qed.

Lemma direct_seeded n edges :
  direct n edges
    (fold_left init_self (seq 0 n)
       {| dist := replicate n (replicate n Infinity);
          next := replicate n (replicate n None) |}).
Proof.
  set (Q := fun (_ : nat) pf =>
              linked n pf
              /\ forall i j, (i < n)%nat -> (j < n)%nat -> i <> j ->
                   cell None (next pf) i j = None).
  assert (H : Q n (fold_left init_self (seq 0 n)
                     {| dist := replicate n (replicate n Infinity);
                        next := replicate n (replicate n None) |})).
  { apply fold_seq_invariant; unfold Q.
    - split; [apply linked_start |]. intros i j Hi Hj _. simpl. unfold cell.
      rewrite lookup_replicate_2 by done. simpl.
      by rewrite lookup_replicate_2.
    - intros m pf Hm [Hl Hnone]. split; [by apply linked_set |].
      intros i j Hi Hj Hne. unfold init_self. cbn [next].
      destruct Hl as (_ & Hsq & _). rewrite (cell_mset n) by done.
      rewrite decide_False; [by apply Hnone | lia]. }
  destruct H as [Hl Hnone]. split; [done |].
  intros i j m Hi Hj Hne Hm. rewrite Hnone in Hm; done.
Qed.

Lemma direct_init_edge n edges pf e pf' :
  e ∈ edges -> direct n edges pf -> init_edge pf e = Some pf' ->
  direct n edges pf'.
Proof.
  intros He [Hl Hd] H. split; [by eapply linked_init_edge |].
  unfold init_edge in H.
  destruct (dist pf !! node_a e) as [row |] eqn:Er; [| done].
  destruct (row !! node_b e) as [x |] eqn:Ex; [| by simplify_eq].
  destruct (ltb _ x); [| by simplify_eq]. simplify_eq.
  pose proof Hl as ((Hlen & Hrows) & Hsqn & _).
  assert (Ha : (node_a e < n)%nat).
  { rewrite <- Hlen. by eapply lookup_lt_Some. }
  assert (Hb : (node_b e < n)%nat).
  { rewrite <- (Forall_lookup_1 (fun row => length row = n) _ _ _ Hrows Er).
    by eapply lookup_lt_Some. }
  intros i j m Hi Hj Hne. cbn [dist next].
  rewrite !(cell_mset_pair n) by (done || by split).
  destruct (decide (node_b e = i /\ node_a e = j)) as [[<- <-] |].
  { intros [= <-]. split; [done |]. exists e. split; [done |].
    split; [| done]. unfold joins. tauto. }
  destruct (decide (node_a e = i /\ node_b e = j)) as [[<- <-] |].
  { intros [= <-]. split; [done |]. exists e. split; [done |].
    split; [| done]. unfold joins. tauto. }
  by apply Hd.
Qed.

Lemma hops_direct n edges pf :
  direct n edges pf ->
  (forall j, (j < n)%nat -> cell Infinity (dist pf) j j = Fin 0) ->
  hops n edges pf.
Proof.
  intros [Hl Hd] Hdiag i j m Hi Hj Hne Hm.
  destruct (Hd i j m Hi Hj Hne Hm) as (-> & e & He & Hjoin & Hc).
  split; [done |]. exists e. split; [done |]. split; [done |].
  rewrite Hc, Hdiag by done. simpl. lra.
Qed.

Lemma linked_round n k pf :
  (k < n)%nat -> linked n pf -> linked n (round_tables n k pf).
Proof.
  intros Hk H. unfold round_tables.
  apply (fold_seq_invariant (fun _ x => linked n x)); [done |].
  intros i pf2 Hi H2.
  apply (fold_seq_invariant (fun _ x => linked n x)); [done |].
  intros j pf3 Hj H3. by apply linked_relax.
Qed.

Lemma hops_round n edges K P :
  (K < n)%nat -> metric_upto n K (dist P) -> linked n P ->
  hops n edges P -> hops n edges (round_tables n K P).
Proof.
  intros HK (Hsq & _ & Hdiag & _) (_ & Hsqn & Hl) Hh.
  pose proof (Hdiag K HK) as HKK.
  destruct (round_tables_next n K P Hsq Hsqn HK HKK) as [_ Hnext].
  destruct (round_dist_spec n K (dist P) Hsq HK HKK) as [_ Hdist].
  intros i j m Hi Hj Hne. rewrite (Hnext i j Hi Hj).
  rewrite round_tables_dist. unfold relaxed_next.
  destruct (ltb _ _) eqn:E; intros Hm.
  - assert (HiK : i <> K).
    { intros ->. rewrite HKK, ltb_add_zero_l in E. done. }
    destruct (Hh i K m Hi HK HiK Hm) as (Hmn & e & He & Hjoin & Hle).
    split; [done |]. exists e. split; [done |]. split; [done |].
    rewrite !Hdist by done.
    assert (Hij : relaxed (dist P) K i j
                  = add (cell Infinity (dist P) i K)
                        (cell Infinity (dist P) K j)).
    { unfold relaxed. by rewrite E. }
    rewrite Hij.
    eapply le_trans;
      [apply add_mono; [apply le_refl | apply relaxed_le_through] |].
    eapply le_trans; [apply le_add_assoc |].
    apply add_mono; [done | apply le_refl].
  - destruct (Hh i j m Hi Hj Hne Hm) as (Hmn & e & He & Hjoin & Hle).
    split; [done |]. exists e. split; [done |]. split; [done |].
    rewrite !Hdist by done.
    assert (Hij : relaxed (dist P) K i j = cell Infinity (dist P) i j).
    { unfold relaxed. by rewrite E. }
    rewrite Hij.
    eapply le_trans;
      [apply add_mono; [apply le_refl | apply relaxed_le_old] | done].
Qed.

Lemma hops_floydWarshall n edges pf :
  metric_upto n 0 (dist pf) -> linked n pf -> hops n edges pf ->
  metric_upto n n (dist (floydWarshall n pf))
  /\ linked n (floydWarshall n pf)
  /\ hops n edges (floydWarshall n pf).
Proof.
  intros Hm Hl Hh.
  change (floydWarshall n pf)
    with (fold_left (fun pf k => round_tables n k pf) (seq 0 n) pf).
  apply (fold_seq_invariant
           (fun K pf => metric_upto n K (dist pf) /\ linked n pf
                        /\ hops n edges pf)); [done |].
  intros K pf' HK (Hm' & Hl' & Hh'). split.
  { rewrite round_tables_dist. by apply metric_round. }
  split; [by apply linked_round | by apply hops_round].
Qed.

Lemma dist_init_edges n edges pf1 :
  foldM init_edge edges
    (fold_left init_self (seq 0 n)
       {| dist := replicate n (replicate n Infinity);
          next := replicate n (replicate n None) |}) = Some pf1 ->
  foldM init_edge_dist edges (seed_self n) = Some (dist pf1).
Proof.
  intros H.
  set (pf0 := fold_left init_self (seq 0 n) _) in *.
  assert (E : dist pf0 = seed_self n).
  { unfold seed_self, pf0.
    by rewrite (fold_left_project dist init_self
                  (fun d i => mset d i i (Fin 0))). }
  rewrite <- E.
  rewrite <- (foldM_project dist init_edge init_edge_dist edges pf0)
    by apply dist_init_edge.
  by rewrite H.
Qed.

Lemma hops_computeAllPaths nodes edges pf :
  Forall (fun e => 0 <= getEdgeCost e) edges ->
  computeAllPaths nodes edges = Some pf ->
  metric_upto (length nodes) (length nodes) (dist pf)
  /\ linked (length nodes) pf
  /\ hops (length nodes) edges pf.
Proof.
  intros Hcost H. unfold computeAllPaths in H. set (n := length nodes) in *.
  destruct (foldM init_edge edges _) as [pf1 |] eqn:E; [| done].
  simplify_eq.
  assert (Hd : direct n edges pf1).
  { apply (foldM_invariant (direct n edges) init_edge edges) in E;
      [done | | apply direct_seeded].
    intros b e b' He Hb Hdir. by apply (direct_init_edge n edges b e). }
  assert (Hm : metric_upto n 0 (dist pf1)).
  { apply dist_init_edges in E.
    eapply metric_init_edges; [done | apply metric_seed_self | done]. }
  apply hops_floydWarshall; [done | by destruct Hd |].
  apply hops_direct; [done |]. by destruct Hm as (_ & _ & Hdiag & _).
Qed.

End Hops.

(** ** Paths run along the edges *)

Section Along.

Import Pathfinder.
Local Open Scope Q_scope.

Lemma walk_along n edges pf to :
  hops n edges pf -> (to < n)%nat ->
  forall fuel current rest,
    (current < n)%nat ->
    walk fuel (next pf) current to = Some rest ->
    forall k a b,
      (current :: rest) !! k = Some a ->
      (current :: rest) !! S k = Some b ->
      exists e, e ∈ edges /\ joins e a b.
Proof.
  intros Hh Hto. induction fuel as [| fuel IH]; intros current rest Hc H;
    simpl in H.
  - destruct (decide (current = to)) as [-> |]; [| done].
    simplify_eq. intros [| k] a b Ha Hb; done.
  - destruct (decide (current = to)) as [-> | Hne].
    { simplify_eq. intros [| k] a b Ha Hb; done. }
    destruct (next pf !! current) as [row |] eqn:Er; [| done].
    destruct (row !! to) as [hop |] eqn:Eh; [| done].
    destruct hop as [c |]; [| done].
    destruct (walk fuel (next pf) c to) as [rest' |] eqn:Ew; [| done].
    simplify_eq.
    destruct (Hh current to c Hc Hto Hne) as (Hcn & e & He & Hj & _).
    { by apply (lookup_cell _ _ _ _ row). }
    intros [| k] a b Ha Hb.
    + simpl in Ha, Hb. simplify_eq. by exists e.
    + by apply (IH c rest' Hcn Ew k).
Qed.

Lemma getPath_along nodes edges pf i j path :
  Forall (fun e => 0 <= getEdgeCost e) edges ->
  computeAllPaths nodes edges = Some pf ->
  (i < length nodes)%nat -> (j < length nodes)%nat ->
  getPath pf i j = Some (Some path) ->
  head path = Some i /\ last path = Some j
  /\ forall k a b, path !! k = Some a -> path !! S k = Some b ->
       exists e, e ∈ edges /\ joins e a b.
Proof.
  intros Hcost H Hi Hj Hp.
  destruct (hops_computeAllPaths nodes edges pf Hcost H) as (_ & _ & Hh).
  unfold getPath in Hp.
  destruct (next pf !! i) as [row |]; [| done].
  destruct (row !! j) as [[m |] |]; [| done | done].
  destruct (walk _ _ i j) as [rest |] eqn:Ew; [| done].
  simplify_eq. destruct (walk_spec _ _ _ _ _ Ew) as (Hlast & _).
  split; [done |]. split; [done |].
  by apply (walk_along (length nodes) edges pf j Hh Hj _ i rest Hi Ew).
Qed.

Lemma joined_found edges a b :
  (exists e, e ∈ edges /\ joins e a b) -> is_Some (findEdge edges a b).
Proof.
  intros (e & He & Hj). pose proof (findEdge_first edges a b) as Hfind.
  destruct (findEdge edges a b) as [e0 |]; [by eexists |].
  by destruct (Hfind e He).
Qed.

(** The edges [route_legs] lists for a path whose steps are all joined by
    an edge: one for each step, the first edge that joins its two nodes. *)
Lemma route_legs_steps (edges : list Edge) (path : list nat) :
  (forall k a b, path !! k = Some a -> path !! S k = Some b ->
     is_Some (findEdge edges a b)) ->
  forall r, exists ids,
    route_edges (route_legs edges path r) = route_edges r ++ ids
    /\ forall k a b, path !! k = Some a -> path !! S k = Some b ->
         exists e, findEdge edges a b = Some e
                   /\ ids !! k = Some (edge_id e).
Proof.
  induction path as [| nodeA rest IH]; intros Hsteps r.
  { exists []. split; [by rewrite app_nil_r |]. intros k a b Ha; done. }
  destruct rest as [| nodeB rest'].
  { exists []. split; [by rewrite app_nil_r |].
    intros [| k] a b Ha Hb; done. }
  change (route_legs edges (nodeA :: nodeB :: rest') r)
    with (match findEdge edges nodeA nodeB with
          | None => route_legs edges (nodeB :: rest') r
          | Some e =>
              let '(ty, c) := getEdgeTransportation e in
              route_legs edges (nodeB :: rest')
                {| route_nodes := route_nodes r;
                   route_edges := route_edges r ++ [edge_id e];
                   totalCost := totalCost r + c;
                   breakdown := add_breakdown (breakdown r) ty c |}
          end).
  destruct (Hsteps 0%nat nodeA nodeB eq_refl eq_refl) as [e Ef].
  rewrite Ef. destruct (getEdgeTransportation e) as [ty c].
  match goal with
  | |- context [route_legs edges (nodeB :: rest') ?r0] =>
      destruct (IH (fun k a b => Hsteps (S k) a b) r0) as (ids & Hids & Hk)
  end.
  cbn [route_edges] in Hids.
  exists (edge_id e :: ids). split.
  { rewrite Hids. by rewrite <- app_assoc. }
  intros [| k] a b Ha Hb.
  - simpl in Ha, Hb. simplify_eq. by exists e.
  - by apply (Hk k).
Qed.

End Along.

(** X7. After a rebuild over edges of non-negative cost, a path [getPath]
    returns for two nodes of the graph starts at the first, ends at the
    second, and every two consecutive nodes of it are joined by an edge of
    the graph. *)
Theorem getPath_runs_along_edges
  (nodes : list Node) (edges : list Edge) (pf : Pathfinder.t)
  (i j : nat) (path : list nat) :
  Forall (fun e => (0 <= Pathfinder.getEdgeCost e)%Q) edges ->
  Pathfinder.computeAllPaths nodes edges = Some pf ->
  (i < length nodes)%nat -> (j < length nodes)%nat ->
  Pathfinder.getPath pf i j = Some (Some path) ->
  head path = Some i /\ last path = Some j
  /\ forall k a b, path !! k = Some a -> path !! S k = Some b ->
       exists e, e ∈ edges /\ joins e a b.
Proof. apply getPath_along. Qed.

(** The path from the well at node 0 to the import terminal at node 4 of
    the small world. *)
Lemma getPath_runs_along_edges_witness :
  exists path,
    Pathfinder.getPath Scenario.world_pathfinder 0 4 = Some (Some path)
    /\ head path = Some 0%nat /\ last path = Some 4%nat
    /\ forall k a b, path !! k = Some a -> path !! S k = Some b ->
         exists e, e ∈ Scenario.world_edges /\ joins e a b.
Proof.
  eexists. split; [vm_compute; reflexivity |].
  apply (getPath_runs_along_edges Scenario.world_nodes Scenario.world_edges
           Scenario.world_pathfinder 0 4).
  - vm_compute. repeat constructor; discriminate.
  - vm_compute. reflexivity.
  - vm_compute. lia.
  - vm_compute. lia.
  - vm_compute. reflexivity.
Defined.

(** X8. After a rebuild over edges of non-negative cost, the detailed route
    of two nodes of the graph lists one edge for every step of its path:
    the first edge of the graph that joins the two nodes of the step. *)
Theorem getDetailedRoute_one_edge_per_step
  (nodes : list Node) (edges : list Edge) (pf : Pathfinder.t)
  (i j : nat) (r : Pathfinder.Route) :
  Forall (fun e => (0 <= Pathfinder.getEdgeCost e)%Q) edges ->
  Pathfinder.computeAllPaths nodes edges = Some pf ->
  (i < length nodes)%nat -> (j < length nodes)%nat ->
  Pathfinder.getDetailedRoute pf edges i j = Some (Some r) ->
  S (length (Pathfinder.route_edges r)) = length (Pathfinder.route_nodes r)
  /\ forall k a b,
       Pathfinder.route_nodes r !! k = Some a ->
       Pathfinder.route_nodes r !! S k = Some b ->
       exists e, Pathfinder.findEdge edges a b = Some e
                 /\ joins e a b
                 /\ Pathfinder.route_edges r !! k = Some (edge_id e).
Proof.
  intros Hcost H Hi Hj Hr. unfold Pathfinder.getDetailedRoute in Hr.
  destruct (Pathfinder.getPath pf i j) as [[path |] |] eqn:Ep;
    [| done | done].
  simplify_eq.
  destruct (getPath_along nodes edges pf i j path Hcost H Hi Hj Ep)
    as (_ & _ & Halong).
  assert (Hsteps : forall k a b, path !! k = Some a -> path !! S k = Some b ->
            is_Some (Pathfinder.findEdge edges a b)).
  { intros k a b Ha Hb. apply joined_found. by apply (Halong k). }
  pose proof (getPath_nonempty pf i j path Ep) as Hpos.
  match goal with
  | |- context [Pathfinder.route_legs edges path ?r0] =>
      destruct (route_legs_steps edges path Hsteps r0) as (ids & Hids & Hk);
      destruct (route_legs_spec edges path r0)
        as (Hn & ids' & Hids' & _ & _ & Hfull);
      set (r1 := Pathfinder.route_legs edges path r0) in *
  end.
  cbn [Pathfinder.route_nodes Pathfinder.route_edges] in Hn, Hids, Hids'.
  rewrite Hn. split.
  - rewrite Hids'. simpl. rewrite (Hfull Hsteps). lia.
  - intros k a b Ha Hb. destruct (Hk k a b Ha Hb) as (e & Ef & Hid).
    exists e. split; [done |]. split.
    + pose proof (findEdge_first edges a b) as Hfind. rewrite Ef in Hfind.
      by destruct Hfind as (_ & _ & Hjoin & _).
    + by rewrite Hids.
Qed.

(** The route from the well at node 0 to the import terminal at node 4 of
    the small world: three roads. *)
Lemma getDetailedRoute_one_edge_per_step_witness :
  exists r,
    Pathfinder.getDetailedRoute Scenario.world_pathfinder
      Scenario.world_edges 0 4 = Some (Some r)
    /\ Pathfinder.route_edges r = [0; 1; 3]%nat
    /\ S (length (Pathfinder.route_edges r))
       = length (Pathfinder.route_nodes r)
    /\ forall k a b,
         Pathfinder.route_nodes r !! k = Some a ->
         Pathfinder.route_nodes r !! S k = Some b ->
         exists e, Pathfinder.findEdge Scenario.world_edges a b = Some e
                   /\ joins e a b
                   /\ Pathfinder.route_edges r !! k = Some (edge_id e).
Proof.
  eexists. split; [vm_compute; reflexivity |].
  split; [reflexivity |].
  apply (getDetailedRoute_one_edge_per_step Scenario.world_nodes
           Scenario.world_edges Scenario.world_pathfinder 0 4).
  - vm_compute. repeat constructor; discriminate.
  - vm_compute. reflexivity.
  - vm_compute. lia.
  - vm_compute. lia.
  - vm_compute. reflexivity.
Defined.

(** ** The nearest terminal and the nearest refinery *)

Section Nearest.

Import Pathfinder.

Variables (pick : Node -> bool) (pf : Pathfinder.t) (from : nat).
Variable step : option nat * num -> nat * Node -> option (option nat * num).
Hypothesis step_eq : forall acc i node,
  step acc (i, node)
  = if pick node then
      let? cost := getCost pf from i in
      if ltb cost (snd acc) then Some (Some i, cost) else Some acc
    else Some acc.

Lemma foldM_app {A B : Type} (f : B -> A -> option B) (l1 l2 : list A)
  (b : B) :
  foldM f (l1 ++ l2) b = let? b1 := foldM f l1 b in foldM f l2 b1.
Proof.
  revert b. induction l1 as [| x l1 IH]; intros b; simpl; [done |].
  destruct (f b x); [apply IH | done].
Qed.

Lemma indexed_snoc {A : Type} (l : list A) (x : A) :
  indexed (l ++ [x]) = indexed l ++ [(length l, x)].
Proof.
  unfold indexed. rewrite imap_app. simpl. by rewrite Nat.add_0_r.
Qed.

Local Abbreviation searched := (searched pick pf from).

Lemma nearest_loop (nodes : list Node) :
  forall acc,
    foldM step (indexed nodes) (None, Infinity) = Some acc ->
    searched nodes acc.
Proof.
  induction nodes as [| x l IH] using rev_ind; intros acc H.
  - simpl in H. simplify_eq. split; [done |]. intros i node Hi. done.
  - rewrite indexed_snoc, foldM_app in H.
    destruct (foldM step (indexed l) (None, Infinity)) as [acc1 |] eqn:E1;
      [| done].
    destruct (IH acc1 eq_refl) as [Hch Hall]. simpl in H.
    destruct (step acc1 (length l, x)) as [acc2 |] eqn:E2; [| done].
    simplify_eq. rewrite step_eq in E2.
    assert (Hkeep : searched l acc1 ->
              (pick x = true ->
               exists c, getCost pf from (length l) = Some c
                         /\ le (snd acc1) c) ->
              searched (l ++ [x]) acc1).
    { intros _ Hx. split.
      - destruct (fst acc1) as [t |]; [| done].
        destruct Hch as (node & Ht & Hrest). exists node.
        split; [| done]. by apply lookup_app_l_Some.
      - intros i node Hi Hp. apply lookup_app_Some in Hi as [Hi | [Hlen Hi]].
        + by apply (Hall i node).
        + destruct (i - length l)%nat as [| k] eqn:Ek; [| done].
          simpl in Hi. simplify_eq.
          assert (i = length l) as -> by lia.
          destruct (Hx Hp) as (c & Hc & Hle). exists c.
          split; [done |]. split; [done |].
          intros t Et Hlt. rewrite Et in Hch.
          destruct Hch as (node0 & Ht & _).
          apply lookup_lt_Some in Ht. lia. }
    destruct (pick x) eqn:Ep.
    2:{ simplify_eq. apply Hkeep; [by split | done]. }
    destruct (getCost pf from (length l)) as [cost |] eqn:Ec; [| done].
    destruct (ltb cost (snd acc1)) eqn:El.
    2:{ simplify_eq. apply Hkeep; [by split |]. intros _.
        exists cost. split; [done |]. by apply ltb_ge. }
    simplify_eq. apply ltb_lt in El. split.
    + simpl. exists x. split; [apply list_lookup_middle; done |].
      split; [done |]. split; [done |]. by eapply lt_finite.
    + intros i node Hi Hp. simpl.
      apply lookup_app_Some in Hi as [Hi | [Hlen Hi]].
      * destruct (Hall i node Hi Hp) as (c & Hc & Hle & _).
        exists c. split; [done |].
        assert (lt cost c) by (by eapply lt_le_trans).
        split; [by apply lt_le | done].
      * destruct (i - length l)%nat as [| k] eqn:Ek; [| done].
        simpl in Hi. simplify_eq.
        assert (i = length l) as -> by lia.
        exists cost. split; [done |]. split; [apply le_refl |].
        intros t [= <-] Hlt. lia.
Qed.

Lemma nearest_spec (nodes : list Node) (acc : option nat * num) :
  foldM step (indexed nodes) (None, Infinity) = Some acc ->
  match fst acc with
  | Some t => nearest_of pick pf from nodes t
  | None => none_near pick pf from nodes
  end.
Proof.
  intros H. destruct (nearest_loop nodes acc H) as [Hch Hall].
  destruct (fst acc) as [t |] eqn:Et.
  - destruct Hch as (node & Ht & Hp & Hc & Hfin).
    exists node, (snd acc). split; [done |]. split; [done |].
    split; [done |]. split; [done |].
    intros i node' Hi Hp'.
    destruct (Hall i node' Hi Hp') as (c' & Hc' & Hle & Hlt).
    exists c'. split; [done |]. split; [done |]. intros Hit.
    by apply (Hlt t).
  - intros i node Hi Hp. destruct (Hall i node Hi Hp) as (c & Hc & Hle & _).
    rewrite Hch in Hle. destruct c; [done | done].
Qed.

End Nearest.

Lemma findNearestTerminal_spec pf nodeId nodes r :
  Pathfinder.findNearestTerminal pf nodeId nodes = Some r ->
  match r with
  | Some t => nearest_of is_import_terminal pf nodeId nodes t
  | None => none_near is_import_terminal pf nodeId nodes
  end.
Proof.
  unfold Pathfinder.findNearestTerminal. intros H.
  destruct (foldM _ _ _) as [acc |] eqn:E; [| done]. simplify_eq.
  by apply (nearest_spec is_import_terminal pf nodeId
              (Pathfinder.nearer_terminal pf nodeId)).
Qed.

(** X9. [findNearestTerminal] returns the import terminal at the least cost
    from the node, the first of them in the list of nodes when several are
    at that cost; it returns [null] exactly when every import terminal is
    at the cost [Infinity] (and so when there is none). *)
Theorem findNearestTerminal_nearest
  (pf : Pathfinder.t) (nodeId : nat) (nodes : list Node) (r : option nat) :
  Pathfinder.findNearestTerminal pf nodeId nodes = Some r ->
  match r with
  | Some t => nearest_of is_import_terminal pf nodeId nodes t
  | None => none_near is_import_terminal pf nodeId nodes
  end.
Proof. apply findNearestTerminal_spec. Qed.

(** The import terminal nearest to the consumption node 2 of the small
    world is node 4. *)
Lemma findNearestTerminal_nearest_witness :
  Pathfinder.findNearestTerminal Scenario.world_pathfinder 2
    Scenario.world_nodes = Some (Some 4%nat)
  /\ nearest_of is_import_terminal Scenario.world_pathfinder 2
       Scenario.world_nodes 4.
Proof.
  split; [vm_compute; reflexivity |].
  apply (findNearestTerminal_nearest Scenario.world_pathfinder 2
           Scenario.world_nodes (Some 4%nat)).
  vm_compute. reflexivity.
Defined.

(** X10. [findNearestRefinery] returns the node with a refinery of positive
    capacity at the least cost from the production node, the first of them
    in the list of nodes when several are at that cost; it returns [null]
    exactly when every such node is at the cost [Infinity]. *)
Theorem findNearestRefinery_nearest
  (pf : Pathfinder.t) (productionNodeId : nat) (nodes : list Node)
  (r : option nat) :
  Pathfinder.findNearestRefinery pf productionNodeId nodes = Some r ->
  match r with
  | Some t => nearest_of running_refinery pf productionNodeId nodes t
  | None => none_near running_refinery pf productionNodeId nodes
  end.
Proof.
  unfold Pathfinder.findNearestRefinery. intros H.
  destruct (foldM _ _ _) as [acc |] eqn:E; [| done]. simplify_eq.
  apply (nearest_spec running_refinery pf productionNodeId
           (Pathfinder.nearer_refinery pf productionNodeId)); [| done].
  intros acc' i node. unfold Pathfinder.nearer_refinery, running_refinery.
  destruct (buildings_refinery node) as [rf |]; [| done].
  by destruct (Qltb 0 (ref_capacity rf)).
Qed.

(** The refinery nearest to the well at node 0 of the small world is the
    one at node 1. *)
Lemma findNearestRefinery_nearest_witness :
  Pathfinder.findNearestRefinery Scenario.world_pathfinder 0
    Scenario.world_nodes = Some (Some 1%nat)
  /\ nearest_of running_refinery Scenario.world_pathfinder 0
       Scenario.world_nodes 1.
Proof.
  split; [vm_compute; reflexivity |].
  apply (findNearestRefinery_nearest Scenario.world_pathfinder 0
           Scenario.world_nodes (Some 1%nat)).
  vm_compute. reflexivity.
Defined.

Section LocalPrice.

Import Pathfinder.



End LocalPrice.



(** ** What a turn leaves alone *)

Section Frames.

Import GameState TurnResolver.

Lemma insert_same_map {A C : Type} (obs : A -> C)
  (l : list A) (i : nat) (x x' : A) :
  l !! i = Some x -> obs x' = obs x ->
  map obs (<[i := x']> l) = map obs l.
Proof.
  intros Hi Hx. change (obs <$> <[i := x']> l = obs <$> l).
  rewrite list_fmap_insert, Hx. apply list_insert_id.
  by rewrite list_lookup_fmap, Hi.
Qed.

(** Rewrites the updates of a list that leave [obs] alone. *)
Ltac same_map obs :=
  repeat match goal with
         | H : ?l !! ?i = Some ?x |- context [map obs (<[?i := ?y]> ?l)] =>
             rewrite (insert_same_map obs l i x y H)
               by (unfold obs;
                   repeat match goal with
                          | E : _ = Some _ |- _ => rewrite E
                          end;
                   simpl; first [reflexivity | congruence])
         end.

(** Splits the tests of a phase in the hypothesis [H] that gives its
    result. *)
Ltac phase_paths H :=
  repeat (simplify_eq; try done;
          match type of H with
          | context [match ?x with _ => _ end] => destruct x eqn:?
          end); simplify_eq; try done.

Lemma track_edge_frame barrels s edgeId s' :
  track_edge barrels s edgeId = Some s' -> frame s' = frame s.
Proof.
  unfold track_edge. intros H. phase_paths H.
  all: unfold frame, structure, clock; simpl in *.
  all: same_map edge_structure; same_map player_structure; done.
Qed.

Lemma trackRouteUsage_frame route barrels s s' :
  trackRouteUsage route barrels s = Some s' -> frame s' = frame s.
Proof. apply (foldM_preserves frame). intros. by eapply track_edge_frame. Qed.

Lemma trackInfrastructureUsage_frame production refinery demand barrels s s' :
  trackInfrastructureUsage production refinery demand barrels s = Some s' ->
  frame s' = frame s.
Proof.
  unfold trackInfrastructureUsage. intros H.
  destruct (Pathfinder.getDetailedRoute _ _ production refinery)
    as [r1 |]; [| done].
  assert (exists s1, match r1 with
                     | Some route => trackRouteUsage route barrels s
                     | None => Some s
                     end = Some s1
                     /\ frame s1 = frame s) as (s1 & E1 & H1).
  { destruct r1 as [route |].
    - destruct (trackRouteUsage route barrels s) as [s1 |] eqn:E; [| done].
      exists s1. split; [done |]. by eapply trackRouteUsage_frame.
    - by exists s. }
  rewrite E1 in H.
  destruct (Pathfinder.getDetailedRoute _ _ refinery demand)
    as [r2 |]; [| done].
  rewrite <- H1. destruct r2 as [route |].
  - by eapply trackRouteUsage_frame.
  - by simplify_eq.
Qed.

Lemma route_at_frame s i s' : route_at s i = Some s' -> frame s' = frame s.
Proof.
  unfold route_at. intros H.
  repeat (simplify_eq; try done;
          match type of H with
          | context [trackInfrastructureUsage ?a ?b ?c ?d ?e] =>
              destruct (trackInfrastructureUsage a b c d e) as [s1 |] eqn:Ht;
              [apply trackInfrastructureUsage_frame in Ht | done]
          | context [match ?x with _ => _ end] => destruct x eqn:?
          end); simplify_eq; try done.
  all: unfold frame, structure, clock in *; simpl in *.
  all: same_map node_structure; same_map player_structure; try done.
  all: simplify_eq.
  all: repeat match goal with
              | E : ?f ?a = ?f _ |- _ => is_var a; rewrite E; clear E
              | E : map ?g (?f ?a) = map ?g _ |- _ =>
                  is_var a; rewrite E; clear E
              end.
  all: same_map node_structure; same_map player_structure; done.
Qed.

Lemma routeAndSatisfyDemand_frame production s s' :
  routeAndSatisfyDemand production s = Some s' -> frame s' = frame s.
Proof. apply (foldM_preserves frame). intros. by eapply route_at_frame. Qed.

Lemma produce_structure acc node acc' :
  produce acc node = Some acc' ->
  map player_structure (snd acc') = map player_structure (snd acc).
Proof.
  unfold produce. destruct acc as [production ps]. intros H.
  phase_paths H. simpl. by same_map player_structure.
Qed.

Lemma productionPhase_frame s production s' :
  productionPhase s = Some (production, s') -> frame s' = frame s.
Proof.
  unfold productionPhase. intros H.
  destruct (foldM produce (nodes s) ([], players s)) as [r |] eqn:E;
    [| done].
  simplify_eq.
  apply (foldM_preserves (fun acc => map player_structure (snd acc))) in E.
  - unfold frame, structure, clock. simpl in *. by rewrite E.
  - intros. by eapply produce_structure.
Qed.

Lemma demand_at_structure pf refined terminalFee totalMarketDemand total
  ns i ns' :
  demand_at pf refined terminalFee totalMarketDemand total ns i = Some ns' ->
  map node_structure ns' = map node_structure ns.
Proof.
  unfold demand_at. intros H. phase_paths H. by same_map node_structure.
Qed.

Lemma updateDemand_frame pow s s' :
  updateDemand pow s = Some s' -> frame s' = frame s.
Proof.
  unfold updateDemand. intros H.
  destruct (Qdiv_js _ _) as [priceRatio |]; [| done].
  destruct (foldM _ _ _) as [ns |] eqn:E; [| done]. simplify_eq.
  apply (foldM_preserves (map node_structure)) in E.
  - unfold frame, structure, clock. simpl. by rewrite E.
  - intros. by eapply demand_at_structure.
Qed.

Lemma map_same {A C : Type} (obs : A -> C) (g : A -> A) (l : list A) :
  (forall x, obs (g x) = obs x) -> map obs (map g l) = map obs l.
Proof.
  intros H. rewrite map_map. apply map_ext. exact H.
Qed.

Lemma map_imap_same {A C : Type} (obs : A -> C) (g : nat -> A -> A)
  (l : list A) :
  (forall i x, obs (g i x) = obs x) -> map obs (imap g l) = map obs l.
Proof.
  intros H. revert g H. induction l as [| x l IH]; intros g H; [done |].
  simpl. rewrite H. f_equal. apply IH. intros i y. apply H.
Qed.

Lemma resetTurn_frame s : frame (resetTurn s) = frame s.
Proof.
  unfold frame, structure, clock. simpl.
  rewrite (map_same player_structure reset_player) by done.
  rewrite (map_same edge_structure reset_edge).
  2:{ intros e. unfold edge_structure, reset_edge. simpl.
      by destruct (pipe_owner (pipeline e)) eqn:E; simpl; rewrite ?E. }
  rewrite (map_same node_structure reset_refinery); [done |].
  intros n. unfold node_structure, reset_refinery.
  by destruct (buildings_refinery n) eqn:E; simpl; rewrite ?E.
Qed.

Lemma updateDemandGrowth_frame d s : frame (updateDemandGrowth d s) = frame s.
Proof.
  unfold frame, structure, clock. simpl.
  rewrite (map_imap_same node_structure); [done |].
  intros i n. by destruct (negb _).
Qed.

Lemma calculatePlayerProfits_structure ps ps' :
  calculatePlayerProfits ps = Some ps' ->
  map player_structure ps' = map player_structure ps.
Proof.
  revert ps'. induction ps as [| p ps IH]; simpl; intros ps' H.
  - by simplify_eq.
  - unfold settle in H.
    destruct (sub (revenue_this_turn p) (costs_this_turn p)); [| done].
    destruct (calculatePlayerProfits ps) as [ps1 |]; [| done].
    simplify_eq. simpl. by rewrite (IH ps1).
Qed.

Lemma calculateMarketShare_structure ps :
  map player_structure (calculateMarketShare ps) = map player_structure ps.
Proof.
  unfold calculateMarketShare. destruct (Qltb 0 (totalBarrels ps)); [| done].
  by apply map_same.
Qed.

(** A turn, phase by phase: what it leaves alone, the clock and the prices
    after it. *)
Lemma processTurn_frame pow d s s' :
  processTurn pow d s = Some s' ->
  structure s' = structure s
  /\ turn s' = S (turn s)
  /\ turnHistory s'
     = turnHistory s
       ++ [ {| snap_turn := turn s;
               snap_globalPrice := global_oil_price s';
               snap_players := map snapshot_of (players s') |} ]
  /\ global_oil_price s' = global_oil_price (updateGlobalPrice d s)
  /\ global_crude_price s' = global_crude_price (updateGlobalPrice d s)
  /\ global_refined_price s' = global_refined_price (updateGlobalPrice d s).
Proof.
  unfold processTurn. intros H.
  destruct (productionPhase _) as [[production s1] |] eqn:E1; [| done].
  destruct (updateDemand pow s1) as [s2 |] eqn:E2; [| done].
  destruct (routeAndSatisfyDemand production s2) as [s3 |] eqn:E3; [| done].
  simpl in H.
  destruct (calculatePlayerProfits (players s3)) as [ps |] eqn:E4; [| done].
  simplify_eq.
  apply productionPhase_frame in E1. apply updateDemand_frame in E2.
  apply routeAndSatisfyDemand_frame in E3.
  apply calculatePlayerProfits_structure in E4.
  pose proof (updateDemandGrowth_frame d s3) as E5.
  pose proof (resetTurn_frame s) as E0.
  rewrite E3, E2, E1 in E5. clear E1 E2 E3.
  unfold frame, structure, clock in *. simpl in *. simplify_eq.
  rewrite calculateMarketShare_structure, E4.
  repeat match goal with
         | E : ?f ?a = ?f _ |- _ => is_var a; rewrite E; clear E
         | E : map ?g (?f ?a) = map ?g _ |- _ => is_var a; rewrite E; clear E
         end.
  repeat match goal with
         | E : map ?g ?x = map ?g _ |- context [map ?g ?x] =>
             rewrite E; clear E
         end.
  split; [done |]. split; [lia |]. repeat split; done.
Qed.

End Frames.

(** ** What commands leave alone *)

Section Commands.

Import GameState TurnResolver.

(** Splits the tests of a command in the hypothesis [H] that gives its
    result. *)
Ltac command_paths H :=
  unfold execute, buildWell, buildPipeline, buildRefinery, upgradeRefinery,
    buildStorage, setPipelineFee, setRefineryFee, recompute in H;
  repeat (simplify_eq; try done;
          match type of H with
          | context [match ?x with _ => _ end] => destruct x eqn:?
          end); simplify_eq; try done;
  repeat match goal with
         | Hx : match ?x with _ => _ end = Some _ |- _ =>
             destruct x eqn:?; simplify_eq; try done
         end.

Ltac same_list obs :=
  repeat match goal with
         | H : ?l !! ?i = Some ?x |- context [map obs (<[?i := ?y]> ?l)] =>
             rewrite (insert_same_map obs l i x y H) by done
         end.

Lemma execute_clock s c s' o :
  execute s c = Some (s', o) -> clock s' = clock s /\ settings s' = settings s.
Proof. intros H. destruct c; command_paths H. Qed.

Lemma execute_sites s c s' o :
  execute s c = Some (s', o) ->
  map node_site (nodes s') = map node_site (nodes s)
  /\ map edge_site (edges s') = map edge_site (edges s)
  /\ map player_id (players s') = map player_id (players s).
Proof.
  intros H. destruct c; command_paths H; simpl.
  all: same_list node_site; same_list edge_site; same_list player_id; done.
Qed.

Lemma kept_along_refl {A : Type} (R : A -> A -> Prop) (l : list A) :
  (forall x, R x x) -> kept_along R l l.
Proof. intros HR i x Hi. exists x. by split. Qed.

Lemma kept_along_trans {A : Type} (R : A -> A -> Prop) (l1 l2 l3 : list A) :
  (forall x y z, R x y -> R y z -> R x z) ->
  kept_along R l1 l2 -> kept_along R l2 l3 -> kept_along R l1 l3.
Proof.
  intros HR H12 H23 i x Hi. destruct (H12 i x Hi) as (y & Hy & Hxy).
  destruct (H23 i y Hy) as (z & Hz & Hyz). exists z. split; [done |].
  by eapply HR.
Qed.

Lemma kept_along_insert {A : Type} (R : A -> A -> Prop) (l : list A)
  (i : nat) (x x' : A) :
  (forall y, R y y) -> l !! i = Some x -> R x x' ->
  kept_along R l (<[i := x']> l).
Proof.
  intros HR Hi Hx j y Hj. destruct (decide (i = j)) as [<- | Hne].
  - exists x'. rewrite list_lookup_insert_eq by (by eapply lookup_lt_Some).
    split; [done |]. by simplify_eq.
  - exists y. rewrite list_lookup_insert_ne by done. by split.
Qed.

Lemma kept_along_map {A C : Type} (R : A -> A -> Prop) (obs : A -> C)
  (l l' : list A) :
  (forall x x', obs x' = obs x -> R x x') ->
  map obs l' = map obs l -> kept_along R l l'.
Proof.
  intros HR Hm i x Hi.
  assert (Ho : (obs <$> l') !! i = Some (obs x)).
  { change (map obs l' !! i = Some (obs x)). rewrite Hm.
    change ((obs <$> l) !! i = Some (obs x)).
    by rewrite list_lookup_fmap, Hi. }
  rewrite list_lookup_fmap in Ho.
  destruct (l' !! i) as [x' |]; [| done]. simpl in Ho.
  exists x'. split; [done |]. apply HR. congruence.
Qed.

Lemma node_owners_kept_refl node : node_owners_kept node node.
Proof.
  split; [done |]. split; intros x Hx; by exists x.
Qed.

Lemma node_owners_kept_trans x y z :
  node_owners_kept x y -> node_owners_kept y z -> node_owners_kept x z.
Proof.
  intros (Hw & Hr & Hs) (Hw' & Hr' & Hs'). split; [| split].
  - intros H. destruct (Hw H) as [H1 H2]. destruct (Hw' H1) as [H3 H4].
    split; [done | congruence].
  - intros r H. destruct (Hr r H) as (r1 & H1 & H2).
    destruct (Hr' r1 H1) as (r2 & H3 & H4). exists r2. split; [done |].
    congruence.
  - intros st H. destruct (Hs st H) as (st1 & H1 & H2).
    destruct (Hs' st1 H1) as (st2 & H3 & H4). exists st2. split; [done |].
    congruence.
Qed.

Lemma pipeline_owner_kept_refl e : pipeline_owner_kept e e.
Proof. by intros o. Qed.

Lemma pipeline_owner_kept_trans x y z :
  pipeline_owner_kept x y -> pipeline_owner_kept y z ->
  pipeline_owner_kept x z.
Proof. intros H1 H2 o Ho. by apply H2, H1. Qed.

Lemma owners_kept_refl s : owners_kept s s.
Proof.
  split; apply kept_along_refl;
    [apply node_owners_kept_refl | apply pipeline_owner_kept_refl].
Qed.

Lemma owners_kept_trans s1 s2 s3 :
  owners_kept s1 s2 -> owners_kept s2 s3 -> owners_kept s1 s3.
Proof.
  intros [Hn He] [Hn' He']. split.
  - eapply kept_along_trans; [apply node_owners_kept_trans | done | done].
  - eapply kept_along_trans; [apply pipeline_owner_kept_trans | done | done].
Qed.

Lemma node_structure_owners x x' :
  node_structure x' = node_structure x -> node_owners_kept x x'.
Proof.
  unfold node_structure. intros H. simplify_eq. split; [| split].
  - intros Hw. split; congruence.
  - intros r Hr. rewrite Hr in *.
    destruct (buildings_refinery x') as [r' |]; [| done].
    exists r'. split; [done |]. unfold refinery_structure in *.
    simpl in *. congruence.
  - intros st Hst. exists st. split; [congruence | done].
Qed.

Lemma edge_structure_owner e e' :
  edge_structure e' = edge_structure e -> pipeline_owner_kept e e'.
Proof. unfold edge_structure. intros H o Ho. simplify_eq. congruence. Qed.

Lemma structure_owners s s' : structure s' = structure s -> owners_kept s s'.
Proof.
  unfold structure. intros H. simplify_eq. split.
  - eapply kept_along_map; [apply node_structure_owners | done].
  - eapply kept_along_map; [apply edge_structure_owner | done].
Qed.

Lemma execute_owners s c s' o :
  execute s c = Some (s', o) -> owners_kept s s'.
Proof.
  intros H. destruct c; command_paths H; try apply owners_kept_refl.
  all: split; simpl;
    try (apply kept_along_refl;
         first [apply node_owners_kept_refl | apply pipeline_owner_kept_refl]).
  all: eapply kept_along_insert;
    [first [apply node_owners_kept_refl | apply pipeline_owner_kept_refl]
    | done |].
  all: unfold node_owners_kept, pipeline_owner_kept; simpl.
  all: repeat split; intros; simplify_eq; try done; try congruence.
  all: try (eexists; split; [reflexivity | simpl; congruence]).
  all: try (eexists; split; [eassumption | reflexivity]).
Qed.

(** *** The tables follow the edges *)

Lemma init_edge_ext pf e e' :
  edge_key e' = edge_key e ->
  Pathfinder.init_edge pf e' = Pathfinder.init_edge pf e.
Proof.
  unfold edge_key, Pathfinder.init_edge. intros H. simplify_eq.
  by repeat match goal with E : _ = _ |- _ => rewrite E; clear E end.
Qed.

Lemma init_edges_ext edges :
  forall edges' pf,
    map edge_key edges' = map edge_key edges ->
    foldM Pathfinder.init_edge edges' pf = foldM Pathfinder.init_edge edges pf.
Proof.
  induction edges as [| e edges IH]; intros [| e' edges'] pf H;
    simpl in *; try done.
  assert (He : edge_key e' = edge_key e) by congruence.
  assert (Hrest : map edge_key edges' = map edge_key edges) by congruence.
  rewrite (init_edge_ext pf e e' He).
  destruct (Pathfinder.init_edge pf e); [by apply IH | done].
Qed.

Lemma computeAllPaths_ext nodes nodes' edges edges' :
  length nodes' = length nodes ->
  map edge_key edges' = map edge_key edges ->
  Pathfinder.computeAllPaths nodes' edges'
  = Pathfinder.computeAllPaths nodes edges.
Proof.
  intros Hn He. unfold Pathfinder.computeAllPaths. rewrite Hn.
  by rewrite (init_edges_ext edges edges').
Qed.

Lemma edge_structure_key e e' :
  edge_structure e' = edge_structure e -> edge_key e' = edge_key e.
Proof.
  unfold edge_structure, edge_key, Pathfinder.getEdgeCost. intros H.
  simplify_eq.
  by repeat match goal with E : _ = _ |- _ => rewrite E; clear E end.
Qed.

Lemma map_through {A B C : Type} (f : A -> B) (g : A -> C) (l l' : list A) :
  (forall x x', f x' = f x -> g x' = g x) ->
  map f l' = map f l -> map g l' = map g l.
Proof.
  intros H. revert l'. induction l as [| x l IH]; intros [| x' l'] Hm;
    simpl in *; try done.
  assert (Hx : f x' = f x) by congruence.
  assert (Hrest : map f l' = map f l) by congruence.
  f_equal; [by apply H | by apply IH].
Qed.

Lemma structure_synced s s' :
  structure s' = structure s -> synced s -> synced s'.
Proof.
  unfold structure, synced. intros H Hs. simplify_eq.
  rewrite (computeAllPaths_ext (nodes s) (nodes s') (edges s) (edges s')).
  - congruence.
  - match goal with
    | E : map node_structure _ = map node_structure _ |- _ =>
        apply (f_equal length) in E; by rewrite !length_map in E
    end.
  - eapply map_through; [apply edge_structure_key | done].
Qed.

Lemma execute_synced s c s' o :
  execute s c = Some (s', o) -> synced s -> synced s'.
Proof.
  unfold synced. intros H Hs. destruct c; command_paths H; simpl.
  all: try (rewrite <- Hs; apply computeAllPaths_ext;
            [by rewrite length_insert | done]).
Qed.

End Commands.

(** ** Across a game *)

Section Runs.

Import GameState TurnResolver.

Local Open Scope Q_scope.

Lemma run_cons pow s e es :
  run pow s (e :: es) = let? s1 := step pow s e in run pow s1 es.
Proof. done. Qed.

(** What every turn and every command keeps is kept by a game. *)
Lemma run_invariant pow (P : GameState.t -> Prop) :
  (forall d s s', processTurn pow d s = Some s' -> P s -> P s') ->
  (forall c s s' o, execute s c = Some (s', o) -> P s -> P s') ->
  forall es s s', run pow s es = Some s' -> P s -> P s'.
Proof.
  intros Ht Hc. induction es as [| e es IH]; intros s s' H Hs.
  - unfold run in H. simpl in H. by simplify_eq.
  - rewrite run_cons in H. destruct (step pow s e) as [s1 |] eqn:E; [| done].
    apply (IH s1 s' H). destruct e as [d | c]; simpl in E.
    + by apply (Ht d s).
    + destruct (execute s c) as [[s2 o] |] eqn:Ec; [| done].
      simpl in E. simplify_eq. by apply (Hc c s s1 o).
Qed.

Lemma processTurn_keeps_structure_frame pow d s s' :
  processTurn pow d s = Some s' -> structure s' = structure s.
Proof. intros H. by destruct (processTurn_frame pow d s s' H). Qed.

Lemma processTurn_keeps_sites pow d s s' :
  processTurn pow d s = Some s' ->
  map node_site (nodes s') = map node_site (nodes s)
  /\ map edge_site (edges s') = map edge_site (edges s)
  /\ map player_id (players s') = map player_id (players s).
Proof.
  intros H. pose proof (processTurn_keeps_structure_frame pow d s s' H) as Hs.
  unfold structure in Hs.
  assert (Hn : map node_structure (nodes s') = map node_structure (nodes s))
    by congruence.
  assert (He : map edge_structure (edges s') = map edge_structure (edges s))
    by congruence.
  assert (Hp : map player_structure (players s')
               = map player_structure (players s)) by congruence.
  split; [| split].
  - eapply map_through; [| exact Hn]. unfold node_structure, node_site.
    intros x x' E. congruence.
  - eapply map_through; [| exact He]. unfold edge_structure, edge_site.
    intros x x' E. congruence.
  - eapply map_through; [| exact Hp]. unfold player_structure.
    intros x x' E. congruence.
Qed.

End Runs.

(** X12. Over a game, the turn counter grows by the number of turns processed
    and by nothing else; the settings stay; every turn adds one entry to
    the history, stamped with the number the turn had before it was
    processed, and commands add none; the game is over exactly when the
    counter has reached [GAME_LENGTH_TURNS]. *)
Theorem run_counts_turns
  (pow : Q -> Q -> Q) (s : GameState.t) (es : list TurnResolver.Event)
  (s' : GameState.t) :
  TurnResolver.run pow s es = Some s' ->
  GameState.turn s' = (GameState.turn s + advances es)%nat
  /\ GameState.settings s' = GameState.settings s
  /\ (exists new,
        GameState.turnHistory s' = GameState.turnHistory s ++ new
        /\ map GameState.snap_turn new
           = seq (GameState.turn s) (advances es))
  /\ TurnResolver.isGameOver s'
     = Nat.leb (GAME_LENGTH_TURNS (GameState.settings s))
               (GameState.turn s + advances es).
Proof.
  intros H.
  assert (Hmain : GameState.turn s' = (GameState.turn s + advances es)%nat
                  /\ GameState.settings s' = GameState.settings s
                  /\ exists new,
                       GameState.turnHistory s'
                       = GameState.turnHistory s ++ new
                       /\ map GameState.snap_turn new
                          = seq (GameState.turn s) (advances es)).
  { revert s H. induction es as [| e es IH]; intros s H.
    - unfold TurnResolver.run in H. simpl in H. simplify_eq. simpl.
      split; [lia |]. split; [done |]. exists []. by rewrite app_nil_r.
    - rewrite run_cons in H.
      destruct (TurnResolver.step pow s e) as [s1 |] eqn:E; [| done].
      destruct (IH s1 H) as (Ht & Hs & new & Hh & Hn).
      destruct e as [d | c]; simpl in E.
      + destruct (processTurn_frame pow d s s1 E)
          as (Hst & Ht1 & Hh1 & _).
        unfold structure in Hst. simpl.
        split; [lia |]. split; [by simplify_eq; congruence |].
        eexists (_ :: new). split.
        * rewrite Hh, Hh1, <- app_assoc. done.
        * simpl. f_equal. by rewrite Hn, Ht1.
      + destruct (GameState.execute s c) as [[s2 o] |] eqn:Ec; [| done].
        simpl in E. simplify_eq.
        destruct (execute_clock s c s1 o Ec) as [Hc Hs1].
        unfold clock in Hc. simpl.
        assert (GameState.turn s1 = GameState.turn s) by congruence.
        assert (GameState.turnHistory s1 = GameState.turnHistory s)
          by congruence.
        split; [lia |]. split; [congruence |].
        exists new. split; [congruence | congruence]. }
  destruct Hmain as (Ht & Hs & Hnew).
  split; [done |]. split; [done |]. split; [done |].
  unfold TurnResolver.isGameOver. by rewrite Ht, Hs.
Qed.

(** A turn, a pipeline built, another turn in the small world: the counter
    is at 2 and the history holds the turns 0 and 1. *)
Lemma run_counts_turns_witness :
  GameState.turn Scenario.after_two_turns
  = (GameState.turn Scenario.world + advances Scenario.two_turns)%nat
  /\ GameState.settings Scenario.after_two_turns
     = GameState.settings Scenario.world
  /\ (exists new,
        GameState.turnHistory Scenario.after_two_turns
        = GameState.turnHistory Scenario.world ++ new
        /\ map GameState.snap_turn new
           = seq (GameState.turn Scenario.world)
                 (advances Scenario.two_turns))
  /\ TurnResolver.isGameOver Scenario.after_two_turns
     = Nat.leb (GAME_LENGTH_TURNS (GameState.settings Scenario.world))
               (GameState.turn Scenario.world
                + advances Scenario.two_turns).
Proof.
  apply (run_counts_turns Scenario.pow_integral Scenario.world
           Scenario.two_turns Scenario.after_two_turns).
  vm_compute. reflexivity.
Defined.

(** X13. A turn builds nothing and moves nothing: the settings, the tables of
    the pathfinder, the wells, refineries and storage with their owners,
    capacities, fees and levels, the edges with their costs and pipelines,
    and the assets of the players are after the turn what they were
    before. *)
Theorem processTurn_keeps_structure
  (pow : Q -> Q -> Q) (d : TurnResolver.Draws) (s s' : GameState.t) :
  TurnResolver.processTurn pow d s = Some s' -> structure s' = structure s.
Proof. intros H. by destruct (processTurn_frame pow d s s' H). Qed.

(** The first turn of the small world. *)
Lemma processTurn_keeps_structure_witness :
  structure Scenario.after_one_turn = structure Scenario.world.
Proof.
  apply (processTurn_keeps_structure Scenario.pow_integral Scenario.calm).
  vm_compute. reflexivity.
Defined.

(** X14. Over a game, no turn and no command changes the place of a node, of an
    edge or of a player in its list, the identifiers, the production data
    and the terminal flag of a node, the ends of an edge and its truck and
    rail costs. *)
Theorem run_keeps_sites
  (pow : Q -> Q -> Q) (s : GameState.t) (es : list TurnResolver.Event)
  (s' : GameState.t) :
  TurnResolver.run pow s es = Some s' ->
  map node_site (GameState.nodes s') = map node_site (GameState.nodes s)
  /\ map edge_site (GameState.edges s') = map edge_site (GameState.edges s)
  /\ map player_id (GameState.players s')
     = map player_id (GameState.players s).
Proof.
  intros H.
  apply (run_invariant pow
           (fun x =>
              map node_site (GameState.nodes x)
              = map node_site (GameState.nodes s)
              /\ map edge_site (GameState.edges x)
                 = map edge_site (GameState.edges s)
              /\ map player_id (GameState.players x)
                 = map player_id (GameState.players s)))
    with (es := es) (s := s); [| | done | done].
  - intros d s1 s2 Ht (Hn & He & Hp).
    pose proof (processTurn_keeps_sites pow d s1 s2 Ht) as (Hn' & He' & Hp').
    split; [congruence |]. split; congruence.
  - intros c s1 s2 o Hc (Hn & He & Hp).
    destruct (execute_sites s1 c s2 o Hc) as (Hn' & He' & Hp').
    split; [congruence |]. split; congruence.
Qed.

(** A turn, a pipeline built, another turn in the small world. *)
Lemma run_keeps_sites_witness :
  map node_site (GameState.nodes Scenario.after_two_turns)
  = map node_site (GameState.nodes Scenario.world)
  /\ map edge_site (GameState.edges Scenario.after_two_turns)
     = map edge_site (GameState.edges Scenario.world)
  /\ map player_id (GameState.players Scenario.after_two_turns)
     = map player_id (GameState.players Scenario.world).
Proof.
  apply (run_keeps_sites Scenario.pow_integral Scenario.world
           Scenario.two_turns Scenario.after_two_turns).
  vm_compute. reflexivity.
Defined.

(** X15. Over a game, what is built stays built and keeps its owner: a well, a
    refinery, a storage and a pipeline present at some point are present
    after any further turns and commands, successful or not, and belong to
    the same player. *)
Theorem run_keeps_owners
  (pow : Q -> Q -> Q) (s : GameState.t) (es : list TurnResolver.Event)
  (s' : GameState.t) :
  TurnResolver.run pow s es = Some s' -> owners_kept s s'.
Proof.
  intros H.
  apply (run_invariant pow (fun x => owners_kept s x))
    with (es := es) (s := s); [| | done | apply owners_kept_refl].
  - intros d s1 s2 Ht Hk. eapply owners_kept_trans; [done |].
    apply structure_owners. by eapply processTurn_keeps_structure_frame.
  - intros c s1 s2 o Hc Hk. eapply owners_kept_trans; [done |].
    by eapply execute_owners.
Qed.

(** A turn, a pipeline built, another turn in the small world. *)
Lemma run_keeps_owners_witness :
  owners_kept Scenario.world Scenario.after_two_turns.
Proof.
  apply (run_keeps_owners Scenario.pow_integral Scenario.world
           Scenario.two_turns Scenario.after_two_turns).
  vm_compute. reflexivity.
Defined.

(** X16. Over a game, the tables of the pathfinder are never stale: if they are
    those of the nodes and edges when the game starts, they are those of
    the nodes and edges after any turns and commands. *)
Theorem run_keeps_tables_synced
  (pow : Q -> Q -> Q) (s : GameState.t) (es : list TurnResolver.Event)
  (s' : GameState.t) :
  synced s -> TurnResolver.run pow s es = Some s' -> synced s'.
Proof.
  intros Hs H.
  apply (run_invariant pow synced) with (es := es) (s := s);
    [| | done | done].
  - intros d s1 s2 Ht. apply structure_synced.
    by eapply processTurn_keeps_structure_frame.
  - intros c s1 s2 o. apply execute_synced.
Qed.

(** A turn, a pipeline built, another turn in the small world. *)
Lemma run_keeps_tables_synced_witness : synced Scenario.after_two_turns.
Proof.
  apply (run_keeps_tables_synced Scenario.pow_integral Scenario.world
           Scenario.two_turns Scenario.after_two_turns).
  - vm_compute. reflexivity.
  - vm_compute. reflexivity.
Defined.

(** ** Building and paying *)

Section Building.

Import GameState.

Local Open Scope Q_scope.

Ltac build_paths H :=
  repeat (simplify_eq; try done;
          match type of H with
          | context [match ?x with _ => _ end] => destruct x eqn:?
          end); simplify_eq; try done;
  repeat match goal with
         | Hx : match ?x with _ => _ end = Some _ |- _ =>
             destruct x eqn:?; simplify_eq; try done
         end.

Lemma buildWell_twice s playerId nodeId s' other :
  buildWell s playerId nodeId = Some (s', Success) ->
  buildWell s' other nodeId = Some (s', Failure "Well already exists").
Proof.
  unfold buildWell at 1. intros H. build_paths H.
  unfold buildWell. simpl.
  rewrite list_lookup_insert_eq by (by eapply lookup_lt_Some). simpl.
  match goal with E : falsy _ = false |- _ => by rewrite E end.
Qed.

Lemma buildRefinery_twice s playerId nodeId s' other :
  buildRefinery s playerId nodeId = Some (s', Success) ->
  buildRefinery s' other nodeId
  = Some (s', Failure "Refinery already exists").
Proof.
  unfold buildRefinery at 1, recompute. intros H. build_paths H.
  unfold buildRefinery. simpl.
  by rewrite list_lookup_insert_eq by (by eapply lookup_lt_Some).
Qed.

Lemma buildPipeline_twice s playerId edgeId s' other :
  buildPipeline s playerId edgeId = Some (s', Success) ->
  buildPipeline s' other edgeId
  = Some (s', Failure "Pipeline already exists").
Proof.
  unfold buildPipeline at 1, recompute. intros H. build_paths H.
  unfold buildPipeline. simpl.
  by rewrite list_lookup_insert_eq by (by eapply lookup_lt_Some).
Qed.

Lemma sub_nonneg (a : num) (c : Q) (n : num) :
  ltb a (Fin c) = false -> sub a (Fin c) = Some n -> nonneg n.
Proof.
  intros Hl Hs. apply ltb_ge in Hl. unfold nonneg.
  destruct a as [x |]; simpl in *.
  - simplify_eq. simpl. lra.
  - by simplify_eq.
Qed.

Lemma insert_touches_one (R : Player -> Player -> Prop)
  (ps : list Player) (a : nat) (p0 p1 : Player) :
  ps !! a = Some p0 -> R p0 p1 -> (forall p, R p p) ->
  forall i p, ps !! i = Some p ->
    exists p', <[a := p1]> ps !! i = Some p' /\ (i <> a -> p' = p) /\ R p p'.
Proof.
  intros Ha HR Hrefl i p Hi. destruct (decide (i = a)) as [-> | Hne].
  - exists p1. rewrite list_lookup_insert_eq by (by eapply lookup_lt_Some).
    split; [done |]. split; [done |]. by simplify_eq.
  - exists p. rewrite list_lookup_insert_ne by done. by split.
Qed.

Lemma execute_payer s c s' o :
  execute s c = Some (s', o) ->
  forall i p, players s !! i = Some p ->
    exists p',
      players s' !! i = Some p'
      /\ (i <> actor c -> p' = p)
      /\ (nonneg (cash p) -> nonneg (cash p')).
Proof.
  intros H.
  assert (Hsame : forall i p, players s !! i = Some p ->
            exists p', players s !! i = Some p'
                       /\ (i <> actor c -> p' = p)
                       /\ (nonneg (cash p) -> nonneg (cash p'))).
  { intros i p Hi. exists p. by split. }
  destruct c;
    unfold execute, buildWell, buildPipeline, buildRefinery, upgradeRefinery,
      buildStorage, setPipelineFee, setRefineryFee, recompute in H;
    build_paths H; simpl; try exact Hsame.
  all: eapply (insert_touches_one
                 (fun p p' => nonneg (cash p) -> nonneg (cash p')));
    [eassumption | | done].
  all: intros _; simpl; by eapply sub_nonneg.
Qed.

Lemma getEdgeCost_le_fee e o :
  pipe_owner (pipeline e) = Some o ->
  Pathfinder.getEdgeCost e <= pipe_fee (pipeline e).
Proof.
  unfold Pathfinder.getEdgeCost. intros ->. apply Qmin2_le_r.
Qed.

Lemma recomputed_priced s playerId edgeId fee e :
  Pathfinder.computeAllPaths (nodes s) (edges s) = Some (pathfinder s) ->
  edges s !! edgeId = Some e ->
  pipe_owner (pipeline e) = Some playerId ->
  pipe_fee (pipeline e) = fee ->
  pipeline_priced s playerId edgeId fee.
Proof.
  intros Hpf He Ho Hf. exists e. split; [done |]. split; [done |].
  split; [done |]. intros Hb.
  assert (Hin : e ∈ edges s) by (by eapply list_elem_of_lookup_2).
  destruct (computeAllPaths_edge _ _ _ e Hpf Hin) as [Ha Hcells].
  destruct (Hcells Hb) as [H1 H2].
  pose proof (square_computeAllPaths _ _ _ Hpf) as Hsq.
  pose proof (getEdgeCost_le_fee e playerId Ho) as Hle. rewrite Hf in Hle.
  do 2 eexists.
  split; [by apply (getCost_cell (length (nodes s))) |].
  split; [by apply (getCost_cell (length (nodes s))) |].
  split; (eapply le_trans; [eassumption | exact Hle]).
Qed.

End Building.

(** X18. A node holds one well and one refinery at most, and an edge one
    pipeline: once a well, a refinery or a pipeline has been built, building
    another on the same node or edge fails, whoever asks, and leaves the
    game as it is. *)
Theorem building_twice_fails
  (s s' : GameState.t) (c : GameState.Command) (other : nat) :
  GameState.execute s c = Some (s', GameState.Success) ->
  match c with
  | GameState.BuildWell _ nodeId =>
      GameState.execute s' (GameState.BuildWell other nodeId)
      = Some (s', GameState.Failure "Well already exists")
  | GameState.BuildRefinery _ nodeId =>
      GameState.execute s' (GameState.BuildRefinery other nodeId)
      = Some (s', GameState.Failure "Refinery already exists")
  | GameState.BuildPipeline _ edgeId =>
      GameState.execute s' (GameState.BuildPipeline other edgeId)
      = Some (s', GameState.Failure "Pipeline already exists")
  | _ => True
  end.
Proof.
  destruct c; simpl; try done.
  - apply buildWell_twice.
  - apply buildPipeline_twice.
  - apply buildRefinery_twice.
Qed.

(** Player 0 has built the well of the small world; player 1 cannot build
    another on the node. *)
Lemma building_twice_fails_witness :
  GameState.execute Scenario.bare_world (GameState.BuildWell 0 0)
  = Some (default Scenario.bare_world
            (fst <$> GameState.buildWell Scenario.bare_world 0 0),
          GameState.Success)
  /\ GameState.execute
       (default Scenario.bare_world
          (fst <$> GameState.buildWell Scenario.bare_world 0 0))
       (GameState.BuildWell 1 0)
     = Some (default Scenario.bare_world
               (fst <$> GameState.buildWell Scenario.bare_world 0 0),
             GameState.Failure "Well already exists").
Proof.
  split; [vm_compute; reflexivity |].
  apply (building_twice_fails Scenario.bare_world _
           (GameState.BuildWell 0 0) 1).
  vm_compute. reflexivity.
Defined.

(** X19. A command touches the account of no player but the one who issues it,
    and never overdraws that one: a player whose cash is not negative
    before a command, successful or not, has cash that is not negative
    after it. *)
Theorem execute_charges_actor_only
  (s s' : GameState.t) (c : GameState.Command) (o : GameState.Outcome) :
  GameState.execute s c = Some (s', o) ->
  forall i p, GameState.players s !! i = Some p ->
    exists p',
      GameState.players s' !! i = Some p'
      /\ (i <> actor c -> p' = p)
      /\ (nonneg (cash p) -> nonneg (cash p')).
Proof. apply execute_payer. Qed.

(** Player 0 builds a pipeline in the small world: player 1 is as before,
    and player 0 still has cash. *)
Lemma execute_charges_actor_only_witness :
  (exists p p',
     GameState.players Scenario.world !! 1%nat = Some p
     /\ GameState.players Scenario.after_pipeline !! 1%nat = Some p'
     /\ (1%nat <> actor (GameState.BuildPipeline 0 0) -> p' = p)
     /\ (nonneg (cash p) -> nonneg (cash p')))
  /\ (exists p p',
        GameState.players Scenario.world !! 0%nat = Some p
        /\ GameState.players Scenario.after_pipeline !! 0%nat = Some p'
        /\ (0%nat <> actor (GameState.BuildPipeline 0 0) -> p' = p)
        /\ (nonneg (cash p) -> nonneg (cash p'))).
Proof.
  assert (H : GameState.execute Scenario.world (GameState.BuildPipeline 0 0)
              = Some (Scenario.after_pipeline, GameState.Success))
    by (vm_compute; reflexivity).
  split.
  - destruct (GameState.players Scenario.world !! 1%nat) as [p |] eqn:E;
      [| vm_compute in E; discriminate].
    destruct (execute_charges_actor_only _ _ _ _ H 1%nat p E)
      as (p' & Hp' & Hrest).
    exists p, p'. split; [done |]. split; [done |]. exact Hrest.
  - destruct (GameState.players Scenario.world !! 0%nat) as [p |] eqn:E;
      [| vm_compute in E; discriminate].
    destruct (execute_charges_actor_only _ _ _ _ H 0%nat p E)
      as (p' & Hp' & Hrest).
    exists p, p'. split; [done |]. split; [done |]. exact Hrest.
Defined.

(** X20. After a player has built a pipeline on an edge, or has set the fee of a
    pipeline of theirs, the pipeline is theirs at the default fee, or at
    the fee set, and the rebuilt pathfinder carries a barrel between the
    two ends of the edge for at most that fee. *)
Theorem pipeline_fee_caps_cost
  (s s' : GameState.t) (c : GameState.Command) :
  GameState.execute s c = Some (s', GameState.Success) ->
  match c with
  | GameState.BuildPipeline playerId edgeId =>
      pipeline_priced s' playerId edgeId
        (PIPELINE_DEFAULT_FEE (GameState.settings s))
  | GameState.SetPipelineFee playerId edgeId fee =>
      pipeline_priced s' playerId edgeId fee
  | _ => True
  end.
Proof.
  destruct c; simpl; try done; intros H.
  - unfold GameState.buildPipeline, GameState.recompute in H.
    repeat (simplify_eq; try done;
            match type of H with
            | context [match ?x with _ => _ end] => destruct x eqn:?
            end); simplify_eq; try done.
    repeat match goal with
           | Hx : match ?x with _ => _ end = Some _ |- _ =>
               destruct x eqn:?; simplify_eq; try done
           end.
    eapply recomputed_priced; simpl.
    + eassumption.
    + by rewrite list_lookup_insert_eq by (by eapply lookup_lt_Some).
    + done.
    + done.
  - unfold GameState.setPipelineFee, GameState.recompute in H.
    repeat (simplify_eq; try done;
            match type of H with
            | context [match ?x with _ => _ end] => destruct x eqn:?
            end); simplify_eq; try done.
    repeat match goal with
           | Hx : match ?x with _ => _ end = Some _ |- _ =>
               destruct x eqn:?; simplify_eq; try done
           end.
    eapply recomputed_priced; simpl.
    + eassumption.
    + by rewrite list_lookup_insert_eq by (by eapply lookup_lt_Some).
    + simpl.
      match goal with
      | E : negb (bool_decide _) = false |- _ =>
          apply negb_false_iff, bool_decide_eq_true in E; exact E
      end.
    + done.
Qed.

(** Player 0 builds a pipeline on the road from the well to the refinery
    of the small world: a barrel now travels it for half a dollar. *)
Lemma pipeline_fee_caps_cost_witness :
  pipeline_priced Scenario.after_pipeline 0 0
    (PIPELINE_DEFAULT_FEE (GameState.settings Scenario.world)).
Proof.
  apply (pipeline_fee_caps_cost Scenario.world Scenario.after_pipeline
           (GameState.BuildPipeline 0 0)).
  vm_compute. reflexivity.
Defined.

(** ** Demand *)

Section Demand.

Import GameState TurnResolver.

Local Open Scope Q_scope.

Lemma foldM_seq_invariant {A : Type} (P : nat -> A -> Prop)
  (f : A -> nat -> option A) (n : nat) :
  (forall m a a', (m < n)%nat -> P m a -> f a m = Some a' -> P (S m) a') ->
  forall a a', P 0%nat a -> foldM f (seq 0 n) a = Some a' -> P n a'.
Proof.
  induction n as [| n IH]; intros Hf a a' Ha H.
  - simpl in H. by simplify_eq.
  - rewrite seq_S, foldM_app in H. simpl in H.
    destruct (foldM f (seq 0 n) a) as [a1 |] eqn:E; [| done].
    destruct (f a1 n) as [a2 |] eqn:E2; [| done]. simplify_eq.
    apply (Hf n a1 a'); [lia | | done].
    apply (IH (fun m b b' Hm => Hf m b b' (Nat.lt_lt_succ_r _ _ Hm)) a a1);
      done.
Qed.

Lemma demand_loop pf refined terminalFee totalMarketDemand total ns0 ns :
  foldM (demand_at pf refined terminalFee totalMarketDemand total)
        (seq 0 (length ns0)) ns0 = Some ns ->
  Forall2 (demand_shared totalMarketDemand total) ns0 ns.
Proof.
  intros H.
  set (P := fun (k : nat) (l : list Node) =>
              length l = length ns0
              /\ forall i n, ns0 !! i = Some n ->
                   exists n', l !! i = Some n'
                     /\ if decide (i < k)%nat
                        then demand_shared totalMarketDemand total n n'
                        else n' = n).
  assert (HP : P (length ns0) ns).
  { apply (foldM_seq_invariant P
             (demand_at pf refined terminalFee totalMarketDemand total)
             (length ns0)) with (a := ns0); [| | done].
    - intros m l l' Hm [Hlen Hl] Hstep. unfold demand_at in Hstep.
      destruct (l !! m) as [node |] eqn:Em; [| done].
      assert (Hnode : ns0 !! m = Some node).
      { destruct (ns0 !! m) as [n0 |] eqn:E0.
        - destruct (Hl m n0 E0) as (n' & Hn' & Hc).
          rewrite decide_False in Hc by lia. congruence.
        - apply lookup_ge_None in E0. lia. }
      destruct (negb (Qeq_bool (demand_base node) 0)) eqn:Eb.
      + destruct (Pathfinder.calculateLocalPrice _ _ _ _ _) as [lp |];
          [| done].
        unfold Qdiv_js in Hstep.
        destruct (Qeq_bool total 0) eqn:Et; [done |]. simplify_eq.
        split; [by rewrite length_insert |]. intros i n Hi.
        destruct (decide (i = m)) as [-> | Hne].
        * rewrite list_lookup_insert_eq by (by eapply lookup_lt_Some).
          eexists. split; [done |]. rewrite decide_True by lia.
          simplify_eq. split; [done |].
          apply negb_true_iff in Eb. rewrite Eb. split; [done |].
          intros Hz. apply Qeq_bool_neq in Et. done.
        * rewrite list_lookup_insert_ne by done.
          destruct (Hl i n Hi) as (n' & Hn' & Hc). exists n'.
          split; [done |].
          destruct (decide (i < m)%nat).
          -- rewrite decide_True by lia. done.
          -- rewrite decide_False by lia. done.
      + simplify_eq. split; [done |]. intros i n Hi.
        destruct (Hl i n Hi) as (n' & Hn' & Hc). exists n'. split; [done |].
        destruct (decide (i = m)) as [-> | Hne].
        * rewrite decide_True by lia. rewrite decide_False in Hc by lia.
          simplify_eq. split; [done |].
          apply negb_false_iff in Eb. by rewrite Eb.
        * destruct (decide (i < m)%nat).
          -- rewrite decide_True by lia. done.
          -- rewrite decide_False by lia. done.
    - split; [done |]. intros i n Hi. exists n. split; [done |].
      rewrite decide_False by lia. done. }
  destruct HP as [Hlen Hl].
  apply Forall2_same_length_lookup. split; [done |].
  intros i n n' Hi Hi'. destruct (Hl i n Hi) as (n1 & Hn1 & Hc).
  rewrite decide_True in Hc by (by eapply lookup_lt_Some).
  by simplify_eq.
Qed.

End Demand.

(** X21. After [updateDemand], every consumption node holds its share of the
    market demand, the base total demand scaled by the price ratio raised to
    the elasticity: the market demand times the node's base demand over the
    total of the base demands, that total being added up in the order of the
    nodes.  The other nodes are as they were. *)
Theorem updateDemand_shares_market
  (pow : Q -> Q -> Q) (s s' : GameState.t) :
  TurnResolver.updateDemand pow s = Some s' ->
  exists priceRatio,
    Qdiv_js (REFERENCE_PRICE (GameState.settings s))
            (GameState.global_refined_price s) = Some priceRatio
    /\ let totalMarketDemand :=
         (BASE_TOTAL_DEMAND (GameState.settings s)
          * pow priceRatio (DEMAND_ELASTICITY (GameState.settings s)))%Q in
       Forall2 (demand_shared totalMarketDemand
                  (TurnResolver.totalBaseDemand (GameState.nodes s)))
               (GameState.nodes s) (GameState.nodes s').
Proof.
  intros H. unfold TurnResolver.updateDemand in H.
  destruct (Qdiv_js _ _) as [priceRatio |]; [| done].
  destruct (foldM _ _ _) as [ns |] eqn:E; [| done]. simplify_eq.
  exists priceRatio. split; [done |]. cbv zeta.
  by apply (demand_loop _ _ _ _ _ _ _ E).
Qed.

(** The demand of the first turn of the small world: 160 barrels, half for
    each of the two consumption nodes. *)
Lemma updateDemand_shares_market_witness :
  (current_demand <$> GameState.nodes Scenario.before_routing !! 2%nat)
  = Some (160 * (80 / (0 + 80 + 80)))%Q
  /\ exists priceRatio,
       Qdiv_js (REFERENCE_PRICE
                  (GameState.settings Scenario.after_production))
               (GameState.global_refined_price Scenario.after_production)
       = Some priceRatio
       /\ let totalMarketDemand :=
            (BASE_TOTAL_DEMAND
               (GameState.settings Scenario.after_production)
             * Scenario.pow_integral priceRatio
                 (DEMAND_ELASTICITY
                    (GameState.settings Scenario.after_production)))%Q in
          Forall2 (demand_shared totalMarketDemand
                     (TurnResolver.totalBaseDemand
                        (GameState.nodes Scenario.after_production)))
                  (GameState.nodes Scenario.after_production)
                  (GameState.nodes Scenario.before_routing).
Proof.
  split; [vm_compute; reflexivity |].
  apply (updateDemand_shares_market Scenario.pow_integral
           Scenario.after_production Scenario.before_routing).
  vm_compute. reflexivity.
Defined.

(** ** The end of the game *)

(** X22. [nextTurn] processes a turn unless the game is over, and then leaves
    the game as it is; the turn counter therefore never passes
    [GAME_LENGTH_TURNS]; the winner is shown exactly when the game is over
    after the call, and is the winner among the players as they then
    are. *)
Theorem nextTurn_stops_at_game_length
  (pow : Q -> Q -> Q) (d : TurnResolver.Draws) (s s' : GameState.t)
  (shown : option (option Player)) :
  Game.nextTurn pow d s = Some (s', shown) ->
  (TurnResolver.isGameOver s = true -> s' = s)
  /\ (TurnResolver.isGameOver s = false ->
      TurnResolver.processTurn pow d s = Some s'
      /\ GameState.turn s' = S (GameState.turn s))
  /\ ((GameState.turn s <= GAME_LENGTH_TURNS (GameState.settings s))%nat ->
      (GameState.turn s' <= GAME_LENGTH_TURNS (GameState.settings s'))%nat)
  /\ (is_Some shown <-> TurnResolver.isGameOver s' = true)
  /\ (forall w, shown = Some w ->
        w = TurnResolver.getWinner (GameState.players s')).
Proof.
  unfold Game.nextTurn. intros H.
  destruct (TurnResolver.isGameOver s) eqn:Eo.
  - simplify_eq. split; [done |]. split; [done |]. split; [done |].
    split; [by split |]. by intros w [= <-].
  - destruct (TurnResolver.processTurn pow d s) as [s1 |] eqn:Ep; [| done].
    destruct (processTurn_frame pow d s s1 Ep) as (Hst & Ht & _).
    assert (Hs : GameState.settings s1 = GameState.settings s).
    { unfold structure in Hst. congruence. }
    assert (Hlt : (GameState.turn s < GAME_LENGTH_TURNS (GameState.settings s))
                  %nat).
    { unfold TurnResolver.isGameOver in Eo. by apply Nat.leb_gt in Eo. }
    destruct (TurnResolver.isGameOver s1) eqn:Eo1; simplify_eq.
    + split; [done |]. split; [done |]. split; [rewrite Hs; lia |].
      split; [by split |]. by intros w [= <-].
    + split; [done |]. split; [done |]. split; [rewrite Hs; lia |].
      split; [| done]. split; [by intros [? ?] | congruence].
Qed.

(** The first turn of the small world, which is not its last. *)
Lemma nextTurn_stops_at_game_length_witness :
  Game.nextTurn Scenario.pow_integral Scenario.calm Scenario.world
  = Some (Scenario.after_one_turn, None)
  /\ (TurnResolver.isGameOver Scenario.world = true ->
      Scenario.after_one_turn = Scenario.world)
  /\ (TurnResolver.isGameOver Scenario.world = false ->
      TurnResolver.processTurn Scenario.pow_integral Scenario.calm
        Scenario.world = Some Scenario.after_one_turn
      /\ GameState.turn Scenario.after_one_turn
         = S (GameState.turn Scenario.world))
  /\ ((GameState.turn Scenario.world
       <= GAME_LENGTH_TURNS (GameState.settings Scenario.world))%nat ->
      (GameState.turn Scenario.after_one_turn
       <= GAME_LENGTH_TURNS (GameState.settings Scenario.after_one_turn))%nat)
  /\ (is_Some (@None (option Player))
      <-> TurnResolver.isGameOver Scenario.after_one_turn = true)
  /\ (forall w, @None (option Player) = Some w ->
        w = TurnResolver.getWinner
              (GameState.players Scenario.after_one_turn)).
Proof.
  split; [vm_compute; reflexivity |].
  apply (nextTurn_stops_at_game_length Scenario.pow_integral Scenario.calm
           Scenario.world Scenario.after_one_turn None).
  vm_compute. reflexivity.
Defined.

(** ** Production *)

Section Producing.

Import GameState TurnResolver.

Lemma produce_loop (l : list Node) :
  forall production ps production' ps',
    foldM produce l (production, ps) = Some (production', ps') ->
    production' = production ++ omap well_entry l
    /\ forall i p, ps !! i = Some p ->
         exists p',
           ps' !! i = Some p'
           /\ apart_from_costs p' = apart_from_costs p
           /\ costs_this_turn p' = fold_left (charged i) l (costs_this_turn p).
Proof.
  induction l as [| node l IH]; intros production ps production' ps' H.
  - simpl in H. simplify_eq. split; [by rewrite app_nil_r |]. intros i p Hi.
    exists p. by split.
  - change (foldM produce (node :: l) (production, ps))
      with (let? b := produce (production, ps) node in foldM produce l b)
      in H.
    destruct (produce (production, ps) node) as [[production1 ps1] |] eqn:E;
      [| done].
    destruct (IH _ _ _ _ H) as [Hprod Hps]. clear IH H.
    unfold produce in E. simpl. unfold well_entry at 1.
    destruct (has_well node && negb (falsy (production_capacity node)))
      eqn:Ew.
    + destruct (production_capacity node) as [capacity |] eqn:Ec; [| done].
      destruct (well_owner node) as [owner |] eqn:Eo; [| done].
      destruct (ps !! owner) as [player |] eqn:Ep; [| done].
      destruct (operating_cost node) as [oc |] eqn:Eoc; [| done].
      simplify_eq. simpl. split; [by rewrite <- app_assoc |].
      intros i p Hi.
      assert (Hch : forall c,
                charged i c node
                = if decide (owner = i) then add c (Fin (capacity * oc))
                  else c).
      { intros c. unfold charged, well_entry.
        by rewrite Ec, Ew, Eo, Eoc. }
      destruct (decide (owner = i)) as [-> | Hne].
      * destruct (Hps i (add_costs player (Fin (capacity * oc))))
          as (p' & Hp' & Ha & Hc).
        { by rewrite list_lookup_insert_eq by (by eapply lookup_lt_Some). }
        assert (p = player) as -> by congruence.
        exists p'. split; [done |]. split; [exact Ha |].
        by rewrite Hc, Hch.
      * destruct (Hps i p) as (p' & Hp' & Ha & Hc).
        { by rewrite list_lookup_insert_ne. }
        exists p'. split; [done |]. split; [done |].
        by rewrite Hc, Hch.
    + simplify_eq. split; [done |]. intros i p Hi.
      destruct (Hps i p Hi) as (p' & Hp' & Ha & Hc).
      exists p'. split; [done |]. split; [done |]. rewrite Hc.
      f_equal. unfold charged, well_entry. by rewrite Ew.
Qed.

End Producing.

(** X23. [productionPhase] returns one entry for every node with a well and a
    capacity that is not zero, in the order of the nodes; it charges the
    owner of each of these wells the capacity of the well times its
    operating cost, and changes nothing else: the nodes, the edges and the
    rest of every player are as they were. *)
Theorem productionPhase_charges_wells
  (s s' : GameState.t) (production : list TurnResolver.Production) :
  TurnResolver.productionPhase s = Some (production, s') ->
  production = omap well_entry (GameState.nodes s)
  /\ GameState.nodes s' = GameState.nodes s
  /\ GameState.edges s' = GameState.edges s
  /\ forall i p, GameState.players s !! i = Some p ->
       exists p',
         GameState.players s' !! i = Some p'
         /\ apart_from_costs p' = apart_from_costs p
         /\ costs_this_turn p'
            = fold_left (charged i) (GameState.nodes s) (costs_this_turn p).
Proof.
  unfold TurnResolver.productionPhase. intros H.
  destruct (foldM _ _ _) as [[production1 ps1] |] eqn:E; [| done].
  simplify_eq. simpl.
  destruct (produce_loop _ _ _ _ _ E) as [Hprod Hps].
  split; [done |]. split; [done |]. split; [done |]. exact Hps.
Qed.

(** The production phase of the first turn of the small world: one well,
    of 100 barrels at 10 a barrel, charged to player 0. *)
Lemma productionPhase_charges_wells_witness :
  exists production,
    TurnResolver.productionPhase
      (TurnResolver.updateGlobalPrice Scenario.calm
         (TurnResolver.resetTurn Scenario.world))
    = Some (production, Scenario.after_production)
    /\ length production = 1%nat
    /\ (costs_this_turn
          <$> GameState.players Scenario.after_production !! 0%nat)
       = Some (Fin 1000)
    /\ production
       = omap well_entry
           (GameState.nodes
              (TurnResolver.updateGlobalPrice Scenario.calm
                 (TurnResolver.resetTurn Scenario.world)))
    /\ GameState.nodes Scenario.after_production
       = GameState.nodes
           (TurnResolver.updateGlobalPrice Scenario.calm
              (TurnResolver.resetTurn Scenario.world))
    /\ GameState.edges Scenario.after_production
       = GameState.edges
           (TurnResolver.updateGlobalPrice Scenario.calm
              (TurnResolver.resetTurn Scenario.world))
    /\ forall i p,
         GameState.players
           (TurnResolver.updateGlobalPrice Scenario.calm
              (TurnResolver.resetTurn Scenario.world)) !! i = Some p ->
         exists p',
           GameState.players Scenario.after_production !! i = Some p'
           /\ apart_from_costs p' = apart_from_costs p
           /\ costs_this_turn p'
              = fold_left (charged i)
                  (GameState.nodes
                     (TurnResolver.updateGlobalPrice Scenario.calm
                        (TurnResolver.resetTurn Scenario.world)))
                  (costs_this_turn p).
Proof.
  eexists. split; [vm_compute; reflexivity |].
  split; [reflexivity |]. split; [vm_compute; reflexivity |].
  apply (productionPhase_charges_wells
           (TurnResolver.updateGlobalPrice Scenario.calm
              (TurnResolver.resetTurn Scenario.world))
           Scenario.after_production).
  vm_compute. reflexivity.
Defined.

(** ** Barrels sold *)

Section Booking.

Import GameState TurnResolver.

Local Open Scope Q_scope.

Lemma track_edge_barrels barrels s edgeId s' :
  track_edge barrels s edgeId = Some s' ->
  map barrels_sold (players s') = map barrels_sold (players s).
Proof.
  unfold track_edge. intros H.
  repeat (simplify_eq; try done;
          match type of H with
          | context [match ?x with _ => _ end] => destruct x eqn:?
          end); simplify_eq; simpl in *; try done.
  by eapply insert_same_map.
Qed.

Lemma trackRouteUsage_barrels route barrels s s' :
  trackRouteUsage route barrels s = Some s' ->
  map barrels_sold (players s') = map barrels_sold (players s).
Proof.
  apply (foldM_preserves (fun s => map barrels_sold (players s))).
  intros. by eapply track_edge_barrels.
Qed.

Lemma trackInfrastructureUsage_barrels production refinery demand barrels
  s s' :
  trackInfrastructureUsage production refinery demand barrels s = Some s' ->
  map barrels_sold (players s') = map barrels_sold (players s).
Proof.
  unfold trackInfrastructureUsage. intros H.
  destruct (Pathfinder.getDetailedRoute _ _ production refinery)
    as [r1 |]; [| done].
  assert (exists s1, match r1 with
                     | Some route => trackRouteUsage route barrels s
                     | None => Some s
                     end = Some s1
                     /\ map barrels_sold (players s1)
                        = map barrels_sold (players s)) as (s1 & E1 & H1).
  { destruct r1 as [route |].
    - destruct (trackRouteUsage route barrels s) as [s1 |] eqn:E; [| done].
      exists s1. split; [done |]. by eapply trackRouteUsage_barrels.
    - by exists s. }
  rewrite E1 in H.
  destruct (Pathfinder.getDetailedRoute _ _ refinery demand)
    as [r2 |]; [| done].
  rewrite <- H1. destruct r2 as [route |].
  - by eapply trackRouteUsage_barrels.
  - by simplify_eq.
Qed.

Lemma credited_insert (ps : list Player) (i : nat) (p p' : Player)
  (barrels : Q) :
  ps !! i = Some p -> barrels_sold p' = barrels_sold p + barrels ->
  map barrels_sold (<[i := p']> ps)
  = credited barrels i (map barrels_sold ps).
Proof.
  intros Hi Hb. unfold credited.
  rewrite list_fmap_insert, Hb.
  apply list_eq. intros k. destruct (decide (k = i)) as [-> | Hne].
  - rewrite list_lookup_insert_eq
      by (rewrite length_fmap; by eapply lookup_lt_Some).
    rewrite list_lookup_alter_eq, list_lookup_fmap, Hi. done.
  - rewrite list_lookup_insert_ne by done.
    by rewrite list_lookup_alter_ne.
Qed.

End Booking.

(** X24. Every barrel served over a player route is counted twice in the
    barrels sold: a round of the routing loop that serves a positive volume
    adds that volume to the barrels sold of the owner of the well and then
    to the barrels sold of the owner of the refinery, also when they are the
    same player, and leaves the barrels sold of the other players as they
    are; a round that serves none leaves them all as they are. *)
Theorem route_at_credits_both_owners
  (s s' : GameState.t) (i : nat) (demandNode : Node)
  (production refinery demand : nat) (cost : num) :
  GameState.nodes s !! i = Some demandNode ->
  Qeq_bool (current_demand demandNode) 0 = false ->
  Pathfinder.findCheapestSupply (GameState.pathfinder s)
    (node_id demandNode) (GameState.global_oil_price s)
    (TERMINAL_FEE (GameState.settings s)) (GameState.settings s)
    (GameState.nodes s)
  = Some (PlayerSupply production refinery demand cost) ->
  TurnResolver.route_at s i = Some s' ->
  exists q r,
    (production_capacity <$> GameState.nodes s !! production) = Some (Some q)
    /\ (buildings_refinery <$> GameState.nodes s !! refinery)
       = Some (Some r)
    /\ let barrels :=
         TurnResolver.served (current_demand demandNode) q (ref_capacity r) in
       let sold := map barrels_sold (GameState.players s) in
       if Qleb barrels 0
       then map barrels_sold (GameState.players s') = sold
       else exists wellOwner,
              (well_owner <$> GameState.nodes s !! production)
              = Some (Some wellOwner)
              /\ map barrels_sold (GameState.players s')
                 = credited barrels (ref_owner r)
                     (credited barrels wellOwner sold).
Proof.
  intros Hi Hd Hsr H. unfold TurnResolver.route_at in H.
  rewrite Hi, Hd, Hsr in H. simpl in H.
  set (sr := PlayerSupply production refinery demand cost) in *.
  set (ns := <[i := TurnResolver.with_supply_source demandNode sr]>
               (GameState.nodes s)) in *.
  assert (Hobs : forall {C : Type} (obs : Node -> C) j,
             (forall n, obs (TurnResolver.with_supply_source n sr) = obs n) ->
             obs <$> (ns !! j) = obs <$> (GameState.nodes s !! j)).
  { intros C obs j Ho. unfold ns.
    by apply (lookup_insert_same_obs obs _ i j demandNode). }
  destruct (ns !! production) as [prodNode |] eqn:Ep; [| done].
  destruct (ns !! refinery) as [refNode |] eqn:Er; [| done].
  destruct (buildings_refinery refNode) as [r |] eqn:Eb; [| done].
  destruct (production_capacity prodNode) as [q |] eqn:Eq; [| done].
  assert (Hq : production_capacity <$> GameState.nodes s !! production
               = Some (Some q)).
  { rewrite <- (Hobs _ production_capacity production) by done.
    rewrite Ep. simpl. by rewrite Eq. }
  assert (Hr : buildings_refinery <$> GameState.nodes s !! refinery
               = Some (Some r)).
  { rewrite <- (Hobs _ buildings_refinery refinery) by done.
    rewrite Er. simpl. by rewrite Eb. }
  exists q, r. split; [done |]. split; [done |]. cbv zeta.
  set (barrels := TurnResolver.served (current_demand demandNode) q
                    (ref_capacity r)) in *.
  destruct (Qleb barrels 0) eqn:El.
  - by simplify_eq.
  - destruct (Pathfinder.getCost _ production refinery); [| done].
    destruct (operating_cost prodNode); [| done].
    destruct (Pathfinder.getCost _ refinery demand); [| done].
    destruct (well_owner prodNode) as [wellOwner |] eqn:Ew; [| done].
    exists wellOwner. split.
    { rewrite <- (Hobs _ well_owner production) by done.
      rewrite Ep. simpl. by rewrite Ew. }
    repeat match type of H with
           | context [TurnResolver.trackInfrastructureUsage ?a ?b ?c ?d ?e] =>
               destruct (TurnResolver.trackInfrastructureUsage a b c d e)
                 as [s1 |] eqn:Ht; [| done]
           | (let? _ := ?x in _) = _ => destruct x eqn:?; [| done]
           end.
    apply trackInfrastructureUsage_barrels in Ht. simplify_eq. simpl in *.
    rewrite Ht.
    match goal with
    | Hw : GameState.players s !! _ = Some ?w,
      Hr' : <[_ := _]> (GameState.players s) !! _ = Some ?r' |- _ =>
        rewrite (credited_insert _ _ r' _ barrels Hr') by done;
        rewrite (credited_insert _ _ w _ barrels Hw) by done
    end.
    done.
Qed.

(** Node 2 of the small world, served from the well at node 0 through the
    refinery at node 1: its 80 barrels are sold by player 0 and by
    player 1. *)
Lemma route_at_credits_both_owners_witness :
  Forall2 Qeq
    (map barrels_sold (GameState.players Scenario.after_first_route))
    [80%Q; 80%Q]
  /\ exists q r,
       (production_capacity
          <$> GameState.nodes Scenario.before_routing !! 0%nat)
       = Some (Some q)
       /\ (buildings_refinery
             <$> GameState.nodes Scenario.before_routing !! 1%nat)
          = Some (Some r)
       /\ let barrels :=
            TurnResolver.served (current_demand Scenario.priced_city) q
                                (ref_capacity r) in
          let sold :=
            map barrels_sold (GameState.players Scenario.before_routing) in
          if Qleb barrels 0
          then map barrels_sold
                 (GameState.players Scenario.after_first_route) = sold
          else exists wellOwner,
                 (well_owner
                    <$> GameState.nodes Scenario.before_routing !! 0%nat)
                 = Some (Some wellOwner)
                 /\ map barrels_sold
                      (GameState.players Scenario.after_first_route)
                    = credited barrels (ref_owner r)
                        (credited barrels wellOwner sold).
Proof.
  split; [vm_compute; repeat constructor |].
  apply (route_at_credits_both_owners Scenario.before_routing
           Scenario.after_first_route 2 Scenario.priced_city 0 1 2 (Fin 31)).
  - vm_compute. reflexivity.
  - vm_compute. reflexivity.
  - vm_compute. reflexivity.
  - vm_compute. reflexivity.
Defined.

(** ** Usage of the edges *)

Section Usage.

Import GameState TurnResolver.

Local Open Scope Q_scope.

Lemma metered_zero barrels e : metered barrels 0 e e.
Proof.
  change (inject_Z (Z.of_nat 0)) with 0.
  split; [done |]. split; [ring |].
  destruct (pipe_owner (pipeline e)); ring.
Qed.

Lemma metered_add barrels k1 k2 e1 e2 e3 :
  metered barrels k1 e1 e2 -> metered barrels k2 e2 e3 ->
  metered barrels (k2 + k1) e1 e3.
Proof.
  intros (Hs1 & Hf1 & Hu1) (Hs2 & Hf2 & Hu2).
  assert (Ho : pipe_owner (pipeline e2) = pipe_owner (pipeline e1)).
  { unfold edge_structure in Hs1. congruence. }
  split; [congruence |]. rewrite Nat2Z.inj_add, inject_Z_plus.
  split; [rewrite Hf2, Hf1; ring |].
  rewrite Hu2, Hu1, Ho. destruct (pipe_owner (pipeline e1)); ring.
Qed.

Lemma tolled_ext edges edges' barrels i revenue edgeId :
  map edge_structure edges' = map edge_structure edges ->
  tolled edges' barrels i revenue edgeId
  = tolled edges barrels i revenue edgeId.
Proof.
  intros H. unfold tolled.
  assert (Hl : edge_structure <$> edges' !! edgeId
               = edge_structure <$> edges !! edgeId).
  { rewrite <- !list_lookup_fmap.
    change (map edge_structure edges' !! edgeId
            = map edge_structure edges !! edgeId). by rewrite H. }
  destruct (edges' !! edgeId) as [e' |], (edges !! edgeId) as [e |];
    simpl in Hl; try done.
  unfold edge_structure in Hl.
  assert (pipe_owner (pipeline e') = pipe_owner (pipeline e)) as ->
    by congruence.
  assert (pipe_fee (pipeline e') = pipe_fee (pipeline e)) as ->
    by congruence.
  done.
Qed.

Lemma track_edge_meters barrels s edgeId s' :
  track_edge barrels s edgeId = Some s' ->
  nodes s' = nodes s
  /\ map edge_structure (edges s') = map edge_structure (edges s)
  /\ (forall j e, edges s !! j = Some e ->
        exists e', edges s' !! j = Some e'
                   /\ metered barrels (if decide (edgeId = j) then 1 else 0)
                              e e')
  /\ (forall i p, players s !! i = Some p ->
        exists p', players s' !! i = Some p'
                   /\ apart_from_revenue p' = apart_from_revenue p
                   /\ revenue_this_turn p'
                      = tolled (edges s) barrels i (revenue_this_turn p)
                               edgeId).
Proof.
  intros H. pose proof (track_edge_frame barrels s edgeId s' H) as Hf.
  assert (Hes : map edge_structure (edges s') = map edge_structure (edges s)).
  { unfold frame, structure in Hf. congruence. }
  split; [by eapply track_edge_nodes |]. split; [done |].
  unfold track_edge in H.
  destruct (edges s !! edgeId) as [edge |] eqn:Ee; [| done].
  simpl in H.
  assert (Hedges : forall e1,
            edge_structure e1 = edge_structure edge ->
            flow_volume e1 = flow_volume edge + barrels ->
            pipe_utilization (pipeline e1)
            = match pipe_owner (pipeline edge) with
              | Some _ => pipe_utilization (pipeline edge) + barrels
              | None => pipe_utilization (pipeline edge)
              end ->
            forall j e, edges s !! j = Some e ->
              exists e', <[edgeId := e1]> (edges s) !! j = Some e'
                /\ metered barrels (if decide (edgeId = j) then 1 else 0)
                           e e').
  { intros e1 Hs1 Hf1 Hu1 j e Hj.
    destruct (decide (edgeId = j)) as [<- | Hne].
    - rewrite list_lookup_insert_eq by (by eapply lookup_lt_Some).
      exists e1. split; [done |].
      assert (e = edge) as -> by congruence.
      split; [exact Hs1 |].
      rewrite Hf1, Hu1. change (inject_Z (Z.of_nat 1)) with 1.
      split; [ring |].
      destruct (pipe_owner (pipeline edge)); ring.
    - rewrite list_lookup_insert_ne by done. exists e. split; [done |].
      apply metered_zero. }
  assert (Htoll : forall i c,
            tolled (edges s) barrels i c edgeId
            = match pipe_owner (pipeline edge) with
              | Some owner =>
                  if decide (owner = i)
                  then add c (Fin (barrels * pipe_fee (pipeline edge)))
                  else c
              | None => c
              end).
  { intros i c. unfold tolled. by rewrite Ee. }
  destruct (pipe_owner (pipeline edge)) as [owner |] eqn:Eo.
  - destruct (players s !! owner) as [pipelineOwner |] eqn:Ep; [| done].
    simplify_eq. simpl. split.
    + apply Hedges; simpl; [| done | done].
      unfold edge_structure. simpl. by rewrite Eo.
    + intros i p Hi. rewrite Htoll.
      destruct (decide (owner = i)) as [-> | Hne].
      * rewrite list_lookup_insert_eq by (by eapply lookup_lt_Some).
        eexists. split; [done |]. by simplify_eq.
      * rewrite list_lookup_insert_ne by done. exists p. by split.
  - simplify_eq. simpl. split.
    + apply Hedges; simpl; [| done | done].
      unfold edge_structure. simpl. done.
    + intros i p Hi. rewrite Htoll. exists p. by split.
Qed.

Lemma trackRouteUsage_loop barrels (ids : list nat) :
  forall s s',
    foldM (track_edge barrels) ids s = Some s' ->
    nodes s' = nodes s
    /\ map edge_structure (edges s') = map edge_structure (edges s)
    /\ (forall j e, edges s !! j = Some e ->
          exists e', edges s' !! j = Some e'
                     /\ metered barrels (count_occ Nat.eq_dec ids j) e e')
    /\ (forall i p, players s !! i = Some p ->
          exists p', players s' !! i = Some p'
                     /\ apart_from_revenue p' = apart_from_revenue p
                     /\ revenue_this_turn p'
                        = fold_left (tolled (edges s) barrels i) ids
                                    (revenue_this_turn p)).
Proof.
  induction ids as [| id ids IH]; intros s s' H.
  - simpl in H. simplify_eq. split; [done |]. split; [done |]. split.
    + intros j e Hj. exists e. split; [done |]. apply metered_zero.
    + intros i p Hi. exists p. by split.
  - change (foldM (track_edge barrels) (id :: ids) s)
      with (let? s1 := track_edge barrels s id in
            foldM (track_edge barrels) ids s1) in H.
    destruct (track_edge barrels s id) as [s1 |] eqn:E; [| done].
    destruct (track_edge_meters barrels s id s1 E)
      as (Hn1 & Hs1 & He1 & Hp1).
    destruct (IH s1 s' H) as (Hn & Hs & He & Hp).
    split; [congruence |]. split; [congruence |]. split.
    + intros j e Hj. destruct (He1 j e Hj) as (e1 & Hj1 & Hm1).
      destruct (He j e1 Hj1) as (e' & Hj' & Hm). exists e'.
      split; [done |]. simpl.
      destruct (Nat.eq_dec id j) as [-> | Hne].
      * rewrite decide_True in Hm1 by done.
        replace (S (count_occ Nat.eq_dec ids j))
          with (count_occ Nat.eq_dec ids j + 1)%nat by lia.
        by eapply metered_add.
      * rewrite decide_False in Hm1 by done.
        replace (count_occ Nat.eq_dec ids j)
          with (count_occ Nat.eq_dec ids j + 0)%nat by lia.
        by eapply metered_add.
    + intros i p Hi. destruct (Hp1 i p Hi) as (p1 & Hi1 & Ha1 & Hr1).
      destruct (Hp i p1 Hi1) as (p' & Hi' & Ha & Hr). exists p'.
      split; [done |]. split; [congruence |]. simpl.
      rewrite Hr, Hr1. clear -Hs1. generalize (tolled (edges s) barrels i
                                                  (revenue_this_turn p) id).
      induction ids as [| x ids IHx]; intros c; simpl; [done |].
      rewrite (tolled_ext (edges s) (edges s1)) by done. apply IHx.
Qed.

End Usage.

(** X25. [trackRouteUsage] meters every passage over an edge of the route: the
    flow of an edge grows by the barrels carried for each time the route
    lists it, and so does the utilization of its pipeline if it has one;
    the owner of a pipeline earns its fee on every barrel of every passage,
    as revenue of the turn.  Nothing else changes: the nodes, the costs and
    ownership of the edges and the rest of every player are as they
    were. *)
Theorem trackRouteUsage_meters_passages
  (route : Pathfinder.Route) (barrels : Q) (s s' : GameState.t) :
  TurnResolver.trackRouteUsage route barrels s = Some s' ->
  GameState.nodes s' = GameState.nodes s
  /\ (forall j e, GameState.edges s !! j = Some e ->
        exists e',
          GameState.edges s' !! j = Some e'
          /\ metered barrels
               (count_occ Nat.eq_dec (Pathfinder.route_edges route) j) e e')
  /\ (forall i p, GameState.players s !! i = Some p ->
        exists p',
          GameState.players s' !! i = Some p'
          /\ apart_from_revenue p' = apart_from_revenue p
          /\ revenue_this_turn p'
             = fold_left (tolled (GameState.edges s) barrels i)
                         (Pathfinder.route_edges route)
                         (revenue_this_turn p)).
Proof.
  unfold TurnResolver.trackRouteUsage. intros H.
  destruct (trackRouteUsage_loop barrels _ s s' H) as (Hn & _ & He & Hp).
  split; [done |]. by split.
Qed.

(** Eighty barrels carried from the well at node 0 to the refinery at node
    1 of the small world, once player 0 has built a pipeline on the edge
    between them. *)
Lemma trackRouteUsage_meters_passages_witness :
  exists route s',
    Pathfinder.getDetailedRoute
      (GameState.pathfinder Scenario.after_pipeline)
      (GameState.edges Scenario.after_pipeline) 0 1 = Some (Some route)
    /\ TurnResolver.trackRouteUsage route 80 Scenario.after_pipeline
       = Some s'
    /\ (revenue_this_turn <$> GameState.players s' !! 0%nat)
       = Some (Fin (80 * (1 # 2)))
    /\ GameState.nodes s' = GameState.nodes Scenario.after_pipeline
    /\ (forall j e, GameState.edges Scenario.after_pipeline !! j = Some e ->
          exists e',
            GameState.edges s' !! j = Some e'
            /\ metered 80
                 (count_occ Nat.eq_dec (Pathfinder.route_edges route) j)
                 e e')
    /\ (forall i p,
          GameState.players Scenario.after_pipeline !! i = Some p ->
          exists p',
            GameState.players s' !! i = Some p'
            /\ apart_from_revenue p' = apart_from_revenue p
            /\ revenue_this_turn p'
               = fold_left
                   (tolled (GameState.edges Scenario.after_pipeline) 80 i)
                   (Pathfinder.route_edges route) (revenue_this_turn p)).
Proof.
  eexists. eexists. split; [vm_compute; reflexivity |].
  split; [vm_compute; reflexivity |].
  split; [vm_compute; reflexivity |].
  apply trackRouteUsage_meters_passages.
  vm_compute. reflexivity.
Defined.

(** ** Nodes without demand *)

Section Idle.

Import GameState TurnResolver.

Ltac idle_paths H :=
  repeat (simplify_eq; try done;
          match type of H with
          | context [match ?x with _ => _ end] => destruct x eqn:?
          end); simplify_eq; try done;
  repeat match goal with
         | Hx : match ?x with _ => _ end = Some _ |- _ =>
             destruct x eqn:?; simplify_eq; try done
         end.

Ltac same_demand :=
  repeat match goal with
         | H : ?l !! ?i = Some ?x
           |- context [map demand_part (<[?i := ?y]> ?l)] =>
             rewrite (insert_same_map demand_part l i x y H) by done
         end.

Lemma route_at_demand s i s' :
  route_at s i = Some s' ->
  map demand_part (nodes s') = map demand_part (nodes s).
Proof.
  unfold route_at. intros H.
  repeat (simplify_eq; try done;
          match type of H with
          | context [trackInfrastructureUsage ?a ?b ?c ?d ?e] =>
              destruct (trackInfrastructureUsage a b c d e) as [s1 |] eqn:Ht;
              [apply trackInfrastructureUsage_nodes in Ht | done]
          | context [match ?x with _ => _ end] => destruct x eqn:?
          end); simplify_eq; simpl in *; try done.
  all: same_demand; try done.
  all: rewrite Ht in *; same_demand; done.
Qed.

Lemma routeAndSatisfyDemand_demand production s s' :
  routeAndSatisfyDemand production s = Some s' ->
  map demand_part (nodes s') = map demand_part (nodes s).
Proof.
  apply (foldM_preserves (fun s => map demand_part (nodes s))).
  intros. by eapply route_at_demand.
Qed.

Lemma productionPhase_nodes s production s' :
  productionPhase s = Some (production, s') -> nodes s' = nodes s.
Proof.
  unfold productionPhase. intros H.
  destruct (foldM _ _ _) as [r |]; [| done]. by simplify_eq.
Qed.

Lemma idle_kept_refl n : idle_kept n n.
Proof. by intros _. Qed.

Lemma idle_kept_trans x y z : idle_kept x y -> idle_kept y z -> idle_kept x z.
Proof.
  unfold idle_kept, demand_part. intros Hxy Hyz Hx.
  specialize (Hxy Hx).
  assert (demand_base y = demand_base x) as Hb by congruence.
  rewrite Hb in Hyz. specialize (Hyz Hx). congruence.
Qed.

Lemma idle_kept_part n n' : demand_part n' = demand_part n -> idle_kept n n'.
Proof. by intros H _. Qed.

Lemma updateDemand_idle pow s s' :
  updateDemand pow s = Some s' -> kept_along idle_kept (nodes s) (nodes s').
Proof.
  unfold updateDemand. intros H.
  destruct (Qdiv_js _ _) as [priceRatio |]; [| done].
  destruct (foldM _ _ _) as [ns |] eqn:E; [| done]. simplify_eq. simpl.
  pose proof (demand_loop _ _ _ _ _ _ _ E) as Hshared.
  intros i n Hi.
  destruct (Forall2_lookup_l _ _ _ _ _ Hshared Hi) as (n' & Hi' & _ & Hn).
  exists n'. split; [done |]. intros Hz. rewrite Hz in Hn. by subst.
Qed.

Lemma updateDemandGrowth_idle d s :
  kept_along idle_kept (nodes s) (nodes (updateDemandGrowth d s)).
Proof.
  intros i n Hi. simpl. rewrite list_lookup_imap, Hi. simpl.
  eexists. split; [done |]. intros Hz. by rewrite Hz.
Qed.

Lemma processTurn_idle pow d s s' :
  processTurn pow d s = Some s' -> kept_along idle_kept (nodes s) (nodes s').
Proof.
  unfold processTurn. intros H.
  destruct (productionPhase _) as [[production s1] |] eqn:E1; [| done].
  destruct (updateDemand pow s1) as [s2 |] eqn:E2; [| done].
  destruct (routeAndSatisfyDemand production s2) as [s3 |] eqn:E3; [| done].
  simpl in H.
  destruct (calculatePlayerProfits (players s3)) as [ps |] eqn:E4; [| done].
  simplify_eq. simpl.
  apply productionPhase_nodes in E1. simpl in E1.
  apply updateDemand_idle in E2. rewrite E1 in E2.
  apply routeAndSatisfyDemand_demand in E3.
  eapply (kept_along_trans idle_kept); [apply idle_kept_trans | |].
  - eapply (kept_along_map idle_kept demand_part);
      [apply idle_kept_part |].
    apply (map_same demand_part reset_refinery). intros n.
    unfold reset_refinery. by destruct (buildings_refinery n).
  - eapply (kept_along_trans idle_kept); [apply idle_kept_trans | done |].
    eapply (kept_along_trans idle_kept); [apply idle_kept_trans | |].
    + eapply (kept_along_map idle_kept demand_part);
        [apply idle_kept_part | exact E3].
    + apply updateDemandGrowth_idle.
Qed.

Lemma execute_demand s c s' o :
  execute s c = Some (s', o) ->
  map demand_part (nodes s') = map demand_part (nodes s).
Proof.
  intros H.
  destruct c;
    unfold execute, buildWell, buildPipeline, buildRefinery, upgradeRefinery,
      buildStorage, setPipelineFee, setRefineryFee, recompute in H;
    idle_paths H; simpl; same_demand; done.
Qed.

End Idle.

(** X26. Over a game, a node without base demand stays one and keeps the
    current demand it has: no turn and no command gives it a base demand or
    changes its current demand.  Nodes without base demand that start
    without current demand therefore never have any. *)
Theorem run_keeps_idle_nodes
  (pow : Q -> Q -> Q) (s : GameState.t) (es : list TurnResolver.Event)
  (s' : GameState.t) :
  TurnResolver.run pow s es = Some s' ->
  kept_along idle_kept (GameState.nodes s) (GameState.nodes s').
Proof.
  intros H.
  apply (run_invariant pow
           (fun x => kept_along idle_kept (GameState.nodes s)
                                (GameState.nodes x)))
    with (es := es) (s := s); [| | done |].
  - intros d s1 s2 Ht Hk.
    eapply (kept_along_trans idle_kept); [apply idle_kept_trans | done |].
    by eapply processTurn_idle.
  - intros c s1 s2 o Hc Hk.
    eapply (kept_along_trans idle_kept); [apply idle_kept_trans | done |].
    eapply (kept_along_map idle_kept demand_part); [apply idle_kept_part |].
    by eapply execute_demand.
  - apply kept_along_refl, idle_kept_refl.
Qed.

(** A turn, a pipeline built, another turn in the small world: the import
    terminal at node 4 has no demand before and none after. *)
Lemma run_keeps_idle_nodes_witness :
  exists n n',
    GameState.nodes Scenario.world !! 4%nat = Some n
    /\ Qeq_bool (demand_base n) 0 = true
    /\ GameState.nodes Scenario.after_two_turns !! 4%nat = Some n'
    /\ idle_kept n n'.
Proof.
  destruct (GameState.nodes Scenario.world !! 4%nat) as [n |] eqn:E;
    [| vm_compute in E; discriminate].
  assert (H : TurnResolver.run Scenario.pow_integral Scenario.world
                Scenario.two_turns = Some Scenario.after_two_turns)
    by (vm_compute; reflexivity).
  destruct (run_keeps_idle_nodes _ _ _ _ H 4%nat n E) as (n' & Hn' & Hk).
  exists n, n'. split; [done |]. split; [| by split].
  vm_compute in E. injection E as <-. reflexivity.
Defined.


(** * The engine on doubles *)

(** ** Sums of doubles *)

Section DoubleFacts.

Import SpecFloat Binary64.

(** Addition is commutative, bit for bit. *)
Lemma double_add_comm (x y : double) : add x y = add y x.
Proof.
  unfold add, SFadd.
  destruct x as [[] | [] | | sx mx ex], y as [[] | [] | | sy my ey];
    try reflexivity.
  by rewrite Z.min_comm, Z.add_comm.
Qed.

Lemma double_compare_refl (x : double) :
  SFcompare x x = None \/ SFcompare x x = Some Eq.
Proof.
  destruct x as [[] | [] | | [] m e]; simpl; auto;
    rewrite Z.compare_refl, Pos.compare_cont_refl; auto.
Qed.

Lemma double_ltb_irrefl (x : double) : ltb x x = false.
Proof.
  unfold ltb, SFltb. by destruct (double_compare_refl x) as [-> | ->].
Qed.

(** Adding zero gives nothing below. *)
Lemma double_add_zero_r (x : double) : ltb (add x zero) x = false.
Proof.
  destruct x as [[] | [] | | s m e]; try reflexivity.
  apply double_ltb_irrefl.
Qed.

Lemma double_add_zero_l (x : double) : ltb (add zero x) x = false.
Proof. rewrite double_add_comm. apply double_add_zero_r. Qed.

Lemma double_leb_zero (x : double) : leb zero x = true -> ltb x zero = false.
Proof. by destruct x as [[] | [] | | [] m e]. Qed.

(** Rounding keeps the sign. *)
Lemma round_sign (s : bool) (m : Z) (e : Z) (l : location) :
  match binary_round_aux 53 1024 s m e l with
  | S754_zero s' | S754_infinity s' | S754_finite s' _ _ => s' = s
  | S754_nan => True
  end.
Proof.
  unfold binary_round_aux.
  destruct (shr_fexp 53 1024 m e l) as [mrs' e'].
  destruct (shr_fexp 53 1024 _ e' loc_Exact) as [mrs'' e''].
  destruct (shr_m mrs'') as [| p | p]; [done | | done].
  by destruct (Z.leb e'' (1024 - 53)).
Qed.

(** The sum of two doubles that are not below zero is not below zero; it
    may be [Infinity]. *)
Lemma double_add_not_below (x y : double) :
  ltb x zero = false -> ltb y zero = false -> ltb (add x y) zero = false.
Proof.
  destruct x as [[] | [] | | [] mx ex], y as [[] | [] | | [] my ey];
    try done.
  intros _ _. unfold add, SFadd. cbv zeta.
  destruct (shl_align mx ex (Z.min ex ey)) as [mx' ex'].
  destruct (shl_align my ey (Z.min ex ey)) as [my' ey']. simpl.
  unfold binary_round.
  destruct (shl_align _ _ _) as [mz ez].
  pose proof (round_sign false (Zpos mz) ez loc_Exact) as H.
  by destruct (binary_round_aux 53 1024 false (Zpos mz) ez loc_Exact)
    as [[] | [] | | [] m e].
Qed.

End DoubleFacts.

(** ** The rebuild of the pathfinder on doubles *)

Section IeeeTables.

Import Binary64 Ieee IeeeTable.
Import Pathfinder (mset, cell).

Lemma ieee_dist_relax k i j pf :
  dist (relax k i j pf) = relax_dist k i j (dist pf).
Proof. unfold relax, relax_dist. by destruct (ltb _ _). Qed.

Lemma ieee_dist_floydWarshall n pf :
  dist (floydWarshall n pf) = floydWarshall_dist n (dist pf).
Proof.
  unfold floydWarshall, floydWarshall_dist, round_dist.
  apply fold_left_project. intros a k.
  apply fold_left_project. intros b i.
  apply fold_left_project. intros c j. apply ieee_dist_relax.
Qed.

Lemma ieee_dist_init_edge pf e :
  dist <$> init_edge pf e = init_edge_dist (dist pf) e.
Proof.
  unfold init_edge, init_edge_dist.
  destruct (dist pf !! node_a e) as [row |]; [| done].
  destruct (row !! node_b e) as [x |]; [| done].
  by destruct (ltb _ x).
Qed.

Lemma ieee_dist_computeAllPaths {N : Type} (nodes : list N) edges :
  dist <$> computeAllPaths nodes edges
  = floydWarshall_dist (length nodes)
      <$> foldM init_edge_dist edges (seed_self (length nodes)).
Proof.
  unfold computeAllPaths. set (n := length nodes).
  set (pf1 := fold_left init_self (seq 0 n) _).
  assert (E : dist pf1 = seed_self n).
  { unfold seed_self, pf1.
    by rewrite (fold_left_project dist init_self
                  (fun d i => mset d i i zero)). }
  rewrite <- E.
  rewrite <- (foldM_project dist init_edge init_edge_dist edges pf1)
    by apply ieee_dist_init_edge.
  destruct (foldM init_edge edges pf1) as [pf |]; simpl; [| done].
  by rewrite ieee_dist_floydWarshall.
Qed.

End IeeeTables.

Section IeeeRound.

Import Binary64 Ieee IeeeTable.
Import Pathfinder (mset, cell).

Variables (n k : nat) (D : list (list double)).
Hypothesis HD : square n D.
Hypothesis Hk : (k < n)%nat.
Hypothesis Hkk : cell infinity D k k = zero.

Local Abbreviation midway := (midway n k D).

(** The round leaves column [k] and row [k] as they are. *)
Lemma ieee_relaxed_column i : relaxed D k i k = cell infinity D i k.
Proof. unfold relaxed. by rewrite Hkk, double_add_zero_r. Qed.

Lemma ieee_relaxed_row j : relaxed D k k j = cell infinity D k j.
Proof. unfold relaxed. by rewrite Hkk, double_add_zero_l. Qed.

Lemma ieee_midway_column i m d a :
  midway i m d -> (a < n)%nat -> cell infinity d a k = cell infinity D a k.
Proof.
  intros [_ H] Ha. rewrite (H a k Ha Hk).
  destruct (decide _); [apply ieee_relaxed_column | done].
Qed.

Lemma ieee_midway_row i m d b :
  midway i m d -> (b < n)%nat -> cell infinity d k b = cell infinity D k b.
Proof.
  intros [_ H] Hb. rewrite (H k b Hk Hb).
  destruct (decide _); [apply ieee_relaxed_row | done].
Qed.

Lemma ieee_midway_step i m d :
  (i < n)%nat -> (m < n)%nat ->
  midway i m d -> midway i (S m) (relax_dist k i m d).
Proof.
  intros Hi Hm Hd. pose proof Hd as [Hsq Hcells].
  assert (Him : cell infinity d i m = cell infinity D i m).
  { rewrite (Hcells i m Hi Hm). rewrite decide_False; [done |].
    intros [? | [_ ?]]; lia. }
  assert (Hnew : cell infinity (relax_dist k i m d) i m = relaxed D k i m).
  { unfold relax_dist, relaxed.
    rewrite (ieee_midway_column i m d i Hd Hi),
      (ieee_midway_row i m d m Hd Hm), Him.
    destruct (ltb _ _); [by erewrite cell_mset_eq | done]. }
  assert (Hold : forall a b, (i, m) <> (a, b) ->
            cell infinity (relax_dist k i m d) a b = cell infinity d a b).
  { intros a b Hne. unfold relax_dist.
    destruct (ltb _ _); [by erewrite cell_mset_ne | done]. }
  split.
  - unfold relax_dist. destruct (ltb _ _); [by apply mset_square | done].
  - intros a b Ha Hb. destruct (decide ((i, m) = (a, b))) as [E | Hne].
    + injection E as <- <-. rewrite Hnew, decide_True; [done |].
      right. split; [done | lia].
    + rewrite (Hold a b Hne), (Hcells a b Ha Hb).
      destruct (decide ((a < i)%nat \/ (a = i /\ (b < m)%nat)))
        as [Hc | Hc].
      * rewrite decide_True; [done |].
        destruct Hc as [? | [? ?]]; [by left | right; split; [done | lia]].
      * rewrite decide_False; [done |].
        intros [? | [-> ?]]; [apply Hc; by left |].
        destruct (decide (b = m)) as [-> | ?]; [done |].
        apply Hc. right. split; [done | lia].
Qed.

Lemma ieee_midway_next_row i d : midway i n d -> midway (S i) 0 d.
Proof.
  intros [Hsq H]. split; [done |]. intros a b Ha Hb. rewrite (H a b Ha Hb).
  destruct (decide ((a < i)%nat \/ (a = i /\ (b < n)%nat))) as [Hc | Hc].
  - rewrite decide_True; [done |]. left. destruct Hc as [? | [? ?]]; lia.
  - rewrite decide_False; [done |]. intros [? | [_ ?]]; [| lia].
    apply Hc. destruct (decide (a = i)); [right | left]; [done | lia].
Qed.

(** The round relaxes every cell against the table it starts with, although
    it updates that table in place. *)
Lemma ieee_round_dist_spec :
  square n (round_dist n k D)
  /\ forall i j, (i < n)%nat -> (j < n)%nat ->
       cell infinity (round_dist n k D) i j = relaxed D k i j.
Proof.
  assert (H : midway n 0 (round_dist n k D)).
  { unfold round_dist.
    apply (fold_seq_invariant (fun i d => midway i 0 d)).
    - split; [done |]. intros a b _ _. rewrite decide_False; [done |].
      intros [? | [_ ?]]; lia.
    - intros i d Hi Hd. apply ieee_midway_next_row.
      apply (fold_seq_invariant (fun m d => midway i m d)); [done |].
      intros m d' Hm. by apply ieee_midway_step. }
  destruct H as [Hsq H]. split; [done |]. intros i j Hi Hj.
  rewrite (H i j Hi Hj), decide_True; [done | by left].
Qed.

End IeeeRound.

Section IeeeMirrored.

Import Binary64 Ieee IeeeTable.
Import Pathfinder (mset, cell).

Lemma mirrored_round n K D :
  (K < n)%nat -> mirrored n D -> mirrored n (round_dist n K D).
Proof.
  intros HK (Hsq & Hpos & Hdiag & Hsym).
  destruct (ieee_round_dist_spec n K D Hsq HK (Hdiag K HK)) as [Hsq' Hcell].
  split; [done |]. split; [| split].
  - intros i j Hi Hj. rewrite (Hcell i j Hi Hj). unfold relaxed.
    destruct (ltb _ (cell infinity D i j)); [| by apply Hpos].
    apply double_add_not_below; by apply Hpos.
  - intros i Hi. rewrite (Hcell i i Hi Hi). unfold relaxed.
    rewrite (Hdiag i Hi).
    by rewrite (double_add_not_below _ _ (Hpos i K Hi HK) (Hpos K i HK Hi)).
  - intros i j Hi Hj. rewrite (Hcell i j Hi Hj), (Hcell j i Hj Hi).
    unfold relaxed.
    rewrite (Hsym j i Hj Hi), (Hsym j K Hj HK), (Hsym K i HK Hi).
    by rewrite (double_add_comm (cell infinity D K j)).
Qed.

Lemma mirrored_floydWarshall n d :
  mirrored n d -> mirrored n (floydWarshall_dist n d).
Proof.
  intros H. unfold floydWarshall_dist.
  apply (fold_seq_invariant (fun _ d => mirrored n d)); [done |].
  intros K d' HK. by apply mirrored_round.
Qed.

Lemma ieee_seed_self_spec n :
  square n (seed_self n)
  /\ forall a b, (a < n)%nat -> (b < n)%nat ->
       cell infinity (seed_self n) a b
       = if decide (a = b) then zero else infinity.
Proof.
  set (P := fun (m : nat) (d : list (list double)) =>
              square n d
              /\ forall a b, (a < n)%nat -> (b < n)%nat ->
                   cell infinity d a b
                   = if decide (a = b /\ (a < m)%nat) then zero
                     else infinity).
  assert (H : P n (seed_self n)).
  { unfold seed_self. apply fold_seq_invariant; unfold P.
    - split; [apply square_replicate |]. intros a b Ha Hb.
      rewrite decide_False by lia.
      unfold cell. rewrite lookup_replicate_2 by done. simpl.
      by rewrite lookup_replicate_2.
    - intros m d Hm [Hsq H]. split; [by apply mset_square |].
      intros a b Ha Hb. erewrite cell_mset by done. rewrite (H a b Ha Hb).
      destruct (decide (m = a /\ m = b)) as [[-> ->] | Hne].
      + rewrite decide_True; [done | lia].
      + destruct (decide (a = b /\ (a < m)%nat)) as [[-> ?] | Hc].
        * rewrite decide_True; [done | lia].
        * rewrite decide_False; [done |]. intros [-> ?]. apply Hc.
          split; [done |]. destruct (decide (b = m)) as [-> |]; [| lia].
          by destruct Hne. }
  destruct H as [Hsq H]. split; [done |]. intros a b Ha Hb.
  rewrite (H a b Ha Hb).
  destruct (decide (a = b)) as [-> |].
  - by rewrite decide_True.
  - rewrite decide_False; [done |]. by intros [? _].
Qed.

Lemma mirrored_seed_self n : mirrored n (seed_self n).
Proof.
  destruct (ieee_seed_self_spec n) as [Hsq H].
  split; [done |]. split; [| split].
  - intros i j Hi Hj. rewrite (H i j Hi Hj). by destruct (decide _).
  - intros i Hi. rewrite (H i i Hi Hi). by rewrite decide_True.
  - intros i j Hi Hj. rewrite (H i j Hi Hj), (H j i Hj Hi).
    destruct (decide (i = j)) as [-> |].
    + by rewrite decide_True.
    + by rewrite decide_False.
Qed.

Lemma mirrored_init_edge n d e d' :
  leb zero (getEdgeCost e) = true ->
  mirrored n d -> init_edge_dist d e = Some d' -> mirrored n d'.
Proof.
  intros Hcost Hd H. pose proof Hd as (Hsq & Hpos & Hdiag & Hsym).
  apply double_leb_zero in Hcost.
  unfold init_edge_dist in H.
  destruct (d !! node_a e) as [row |] eqn:Ea; [| done].
  destruct (row !! node_b e) as [x |] eqn:Eb; [| by simplify_eq].
  destruct (ltb _ x) eqn:El; [| by simplify_eq]. simplify_eq.
  assert (Ha : (node_a e < n)%nat).
  { destruct Hsq as [<- _]. by eapply lookup_lt_Some. }
  assert (Hb : (node_b e < n)%nat).
  { destruct Hsq as [_ Hrows].
    rewrite <- (Forall_lookup_1 (fun row => length row = n) d _ row Hrows Ea).
    by eapply lookup_lt_Some. }
  rewrite <- (lookup_cell d infinity _ _ row x Ea Eb) in El.
  set (a := node_a e) in *. set (b := node_b e) in *.
  set (c := getEdgeCost e) in *.
  assert (Hsq1 : square n (mset d a b c)) by by apply mset_square.
  assert (Hcell : forall i j, (i < n)%nat -> (j < n)%nat ->
            cell infinity (mset (mset d a b c) b a c) i j
            = if decide ((a = i /\ b = j) \/ (b = i /\ a = j)) then c
              else cell infinity d i j).
  { intros i j Hi Hj. erewrite !cell_mset by done.
    destruct (decide (b = i /\ a = j)) as [? | ?].
    - rewrite decide_True; [done | by right].
    - destruct (decide (a = i /\ b = j)) as [? | ?].
      + rewrite decide_True; [done | by left].
      + rewrite decide_False; [done |]. by intros [? | ?]. }
  split; [by apply mset_square |]. split; [| split].
  - intros i j Hi Hj. rewrite (Hcell i j Hi Hj).
    destruct (decide _); [exact Hcost | by apply Hpos].
  - intros i Hi. rewrite (Hcell i i Hi Hi).
    destruct (decide _) as [Hc | _]; [| by apply Hdiag].
    assert (E : a = b) by (destruct Hc as [[-> ->] | [-> ->]]; done).
    rewrite <- E, (Hdiag a Ha) in El. congruence.
  - intros i j Hi Hj. rewrite (Hcell i j Hi Hj), (Hcell j i Hj Hi).
    destruct (decide ((a = i /\ b = j) \/ (b = i /\ a = j))) as [Hc | Hc].
    + rewrite decide_True; [done |].
      destruct Hc as [[? ?] | [? ?]]; [right | left]; done.
    + rewrite decide_False; [by apply Hsym |].
      intros [[? ?] | [? ?]]; apply Hc; [right | left]; done.
Qed.

Lemma mirrored_init_edges n edges d d' :
  Forall (fun e => leb zero (getEdgeCost e) = true) edges ->
  mirrored n d -> foldM init_edge_dist edges d = Some d' ->
  mirrored n d'.
Proof.
  intros Hcost. revert d. induction Hcost as [| e edges He Hes IH];
    intros d Hd H; simpl in H.
  - by simplify_eq.
  - destruct (init_edge_dist d e) as [d1 |] eqn:E; [| done].
    apply (IH d1); [| done]. by eapply mirrored_init_edge.
Qed.

(** The distance table of the rebuilt pathfinder. *)
Lemma mirrored_computeAllPaths {N : Type} (nodes : list N) edges pf :
  Forall (fun e => leb zero (getEdgeCost e) = true) edges ->
  computeAllPaths nodes edges = Some pf ->
  mirrored (length nodes) (dist pf).
Proof.
  intros Hcost H.
  pose proof (ieee_dist_computeAllPaths nodes edges) as E. rewrite H in E.
  simpl in E.
  destruct (foldM init_edge_dist edges _) as [d |] eqn:Ed; [| done].
  simpl in E. injection E as ->. apply mirrored_floydWarshall.
  eapply mirrored_init_edges; [done | apply mirrored_seed_self | done].
Qed.

Lemma ieee_init_edge_dist_total n d e :
  square n d -> (node_a e < n)%nat ->
  exists d', init_edge_dist d e = Some d' /\ square n d'.
Proof.
  intros Hsq Ha. unfold init_edge_dist.
  destruct (square_row n d (node_a e) Hsq Ha) as (row & -> & _).
  destruct (row !! node_b e) as [x |]; [| by exists d].
  destruct (ltb _ x); [| by exists d].
  eexists. split; [done |]. by do 2 apply mset_square.
Qed.

Lemma ieee_init_edges_dist_total n edges d :
  square n d -> Forall (fun e => (node_a e < n)%nat) edges ->
  exists d', foldM init_edge_dist edges d = Some d' /\ square n d'.
Proof.
  intros Hsq Hin. revert d Hsq.
  induction Hin as [| e edges He Hes IH]; intros d Hsq; simpl.
  - by exists d.
  - destruct (ieee_init_edge_dist_total n d e Hsq He) as (d1 & -> & Hsq1).
    by apply IH.
Qed.

(** The rebuild ends without an error on a graph whose edges start at nodes
    of the graph. *)
Lemma ieee_computeAllPaths_total {N : Type} (nodes : list N) edges :
  Forall (fun e => (node_a e < length nodes)%nat) edges ->
  is_Some (computeAllPaths nodes edges).
Proof.
  intros Hin.
  destruct (ieee_init_edges_dist_total (length nodes) edges
              (seed_self (length nodes)))
    as (d & Hd & _); [apply ieee_seed_self_spec | done |].
  pose proof (ieee_dist_computeAllPaths nodes edges) as E. rewrite Hd in E.
  destruct (computeAllPaths nodes edges) as [pf |]; [by eexists | done].
Qed.

Lemma ieee_getCost_cell n pf i j :
  square n (dist pf) -> (i < n)%nat -> (j < n)%nat ->
  getCost pf i j = Some (cell infinity (dist pf) i j).
Proof. intros. unfold getCost. by eapply square_cell. Qed.

End IeeeMirrored.

(** C3, as the code has it. On a graph whose edge costs are not negative, the
    distance table of the rebuilt pathfinder has, for all nodes [i] and
    [j]: cost 0 from [i] to [i] and the same cost from [i] to [j] as from
    [j] to [i], where [Infinity] stands for no path.  The rebuild ends
    without an error when every edge starts at a node of the graph. *)
Theorem rebuilt_costs_zero_and_symmetric
  {N : Type} (nodes : list N) (edges : list Ieee.Edge) :
  Forall (fun e => Binary64.leb Binary64.zero (Ieee.getEdgeCost e) = true)
         edges ->
  (Forall (fun e => (Ieee.node_a e < length nodes)%nat) edges ->
   is_Some (Ieee.computeAllPaths nodes edges))
  /\ forall pf,
       Ieee.computeAllPaths nodes edges = Some pf ->
       forall i j,
         (i < length nodes)%nat -> (j < length nodes)%nat ->
         exists cij,
           Ieee.getCost pf i i = Some Binary64.zero
           /\ Ieee.getCost pf i j = Some cij
           /\ Ieee.getCost pf j i = Some cij.
Proof.
  intros Hcost. split; [apply ieee_computeAllPaths_total |].
  intros pf Hpf i j Hi Hj.
  destruct (mirrored_computeAllPaths nodes edges pf Hcost Hpf)
    as (Hsq & _ & Hdiag & Hsym).
  exists (Pathfinder.cell Binary64.infinity (Ieee.dist pf) i j).
  rewrite !(ieee_getCost_cell (length nodes)) by done.
  by rewrite (Hdiag i Hi), (Hsym j i Hj Hi).
Qed.

(** On the chain of pipelines the rebuild ends, and the nodes 0 and 3 are
    at the same cost of each other in both directions. *)
Lemma rebuilt_costs_zero_and_symmetric_witness :
  is_Some (Ieee.computeAllPaths Chain.chain_nodes Chain.chain_edges)
  /\ exists pf c,
       Ieee.computeAllPaths Chain.chain_nodes Chain.chain_edges = Some pf
       /\ Ieee.getCost pf 0 0 = Some Binary64.zero
       /\ Ieee.getCost pf 0 3 = Some c
       /\ Ieee.getCost pf 3 0 = Some c.
Proof.
  destruct (rebuilt_costs_zero_and_symmetric Chain.chain_nodes
              Chain.chain_edges) as [Htotal Hmirror].
  { vm_compute. repeat constructor. }
  assert (Hsome : is_Some (Ieee.computeAllPaths Chain.chain_nodes
                             Chain.chain_edges)).
  { apply Htotal. vm_compute. repeat constructor. }
  split; [exact Hsome |]. destruct Hsome as [pf Hpf].
  destruct (Hmirror pf Hpf 0%nat 3%nat) as (c & H0 & H1 & H2).
  - vm_compute. lia.
  - vm_compute. lia.
  - exists pf, c. split; [exact Hpf |]. split; [exact H0 |].
    split; [exact H1 | exact H2].
Defined.

(** C3 as stated fails.  On the chain of pipelines the costs are not
    negative; the table holds 0.2 from node 0 to node 1 and 1.3 from node 1
    to node 3, which add up to 1.5; from node 0 to node 3 it holds
    0.1 + (0.1 + 1.3), the sum the round through node 2 makes of the sum the
    round through node 1 made, and with the rounding of each sum that is
    above 1.5. *)
Lemma triangle_fails_on_rounded_sums :
  Forall (fun e => Binary64.leb Binary64.zero (Ieee.getEdgeCost e) = true)
         Chain.chain_edges
  /\ exists pf c01 c13 c03,
       Ieee.computeAllPaths Chain.chain_nodes Chain.chain_edges = Some pf
       /\ Ieee.getCost pf 0 1 = Some c01
       /\ Ieee.getCost pf 1 3 = Some c13
       /\ Ieee.getCost pf 0 3 = Some c03
       /\ c01 = Binary64.decimal 2 10
       /\ c13 = Binary64.decimal 13 10
       /\ Binary64.add c01 c13 = Binary64.decimal 15 10
       /\ c03 = Binary64.add (Binary64.decimal 1 10)
                   (Binary64.add (Binary64.decimal 1 10)
                                 (Binary64.decimal 13 10))
       /\ Binary64.ltb (Binary64.add c01 c13) c03 = true
       /\ Binary64.leb c03 (Binary64.add c01 c13) = false.
Proof.
  split; [vm_compute; repeat constructor |].
  do 4 eexists.
  do 9 (split; [vm_compute; reflexivity |]).
  vm_compute. reflexivity.
Qed.

(** ** The price walk on doubles *)

(** C8. The game state its constructor builds from the settings, which have no
    [INITIAL_OIL_PRICE], holds no price; whatever the random source gives,
    [updateGlobalPrice] makes the three prices [NaN] from it: the crude
    price is neither at least 30 nor at most 150, the refined price neither
    at least 50 nor at most 200, and the refined price is not at least the
    crude price.  The prices the update leaves are [NaN] after every later
    update as well. *)
Theorem updateGlobalPrice_after_constructor_is_nan
  (crude_draw refined_draw crude_draw' refined_draw' : Binary64.double)
  (PRICE_VOLATILITY : Binary64.double) :
  let p := Ieee.updateGlobalPrice crude_draw refined_draw PRICE_VOLATILITY
             (Ieee.constructed Ieee.undefined) in
  let crude := Ieee.to_number (Ieee.global_crude_price p) in
  let refined := Ieee.to_number (Ieee.global_refined_price p) in
  p = {| Ieee.global_crude_price := Ieee.number Binary64.nan;
         Ieee.global_refined_price := Ieee.number Binary64.nan;
         Ieee.global_oil_price := Ieee.number Binary64.nan |}
  /\ Binary64.leb (Binary64.of_Z 30) crude = false
  /\ Binary64.leb crude (Binary64.of_Z 150) = false
  /\ Binary64.leb (Binary64.of_Z 50) refined = false
  /\ Binary64.leb refined (Binary64.of_Z 200) = false
  /\ Binary64.leb crude refined = false
  /\ Ieee.updateGlobalPrice crude_draw' refined_draw' PRICE_VOLATILITY p = p.
Proof.
  cbv zeta. do 6 (split; [vm_compute; reflexivity |]).
  vm_compute. reflexivity.
Qed.
